(** * ETL engine (src/lib/etl/etl-engine.ts): shallow embedding and verification

    The development follows the source file top to bottom:

    - [Js]: the fragment of JavaScript values and built-ins the engine
      relies on (truthiness, [===], [Map] key equality, property access
      with the members inherited from [Object.prototype],
      [String.prototype.includes]);
    - the filter evaluator [applyFilters] and the extract phase;
    - the transformation pipeline [transform];
    - the destination loader [load];
    - the job lifecycle manager ([executeJob], [cancelJob]) as a resumable
      computation over the engine state and a store of job objects.

    Three neighbours of the engine follow: the DTO mapper
    (src/lib/dto/dto-mapper.ts), the PATCH handler of the ETL jobs
    endpoint, which drives [executeJob] and [cancelJob], and the bulk
    operations of the admin dispatcher.

    Definitions come first, the theorems about them afterwards. *)

From Stdlib Require Import Ascii.
From stdpp Require Import base numbers strings list gmap functions pretty sorting.

Set Warnings "-register-all,-clear-no-such-hyp".

Local Open Scope Z_scope.

(** * Part I: the program *)

(** ** Thrown values and results of fallible code *)

(** A value thrown by [throw]. The engine only ever distinguishes
    [Error] instances (whose [message] it records) from everything else. *)
Inductive Thrown :=
| ThrownError (message : string)
| ThrownOther.

Inductive Result (A : Type) :=
| Ok (a : A)
| Throw (e : Thrown).
Arguments Ok {A} a.
Arguments Throw {A} e.

(** Sequencing: a [Throw] aborts what follows, as an exception does. The
    instances give the notation [x ← m; k]. *)
#[global] Instance Result_ret : MRet Result := fun _ a => Ok a.
#[global] Instance Result_bind : MBind Result := fun _ _ k m =>
  match m with
  | Ok a => k a
  | Throw e => Throw e
  end.

Definition typeError {A} (msg : string) : Result A := Throw (ThrownError msg).

(** ** Host built-ins

    Built-ins of the JavaScript host whose results are fixed by the engine
    the program runs on rather than by this repository. [dateParse s] is
    [new Date(s).getTime()], with [None] for NaN (an unparsable string);
    [regexTest p s] is [new RegExp(p).test(s)], with [None] when the
    constructor rejects the pattern; [dateToString] is ToString of a date
    with the given time value; [functionToString name] is ToString of the
    built-in function of that name, whose text the language leaves to
    the implementation. *)
Class Host := {
  dateParse : string → option Z;
  regexTest : string → string → option bool;
  dateToString : option Z → string;
  functionToString : string → string;
}.

(** ** JavaScript values *)

Module Js.

(** [String.prototype.startsWith] and [String.prototype.includes], on the
    code units of the string. *)
Fixpoint startsWith (s p : string) : bool :=
  match p, s with
  | EmptyString, _ => true
  | String a p', String b s' => if Ascii.eqb a b then startsWith s' p' else false
  | String _ _, EmptyString => false
  end.

Fixpoint includes (s sub : string) : bool :=
  startsWith s sub ||
  match s with
  | EmptyString => false
  | String _ s' => includes s' sub
  end.

(** Values. Numbers are restricted to integers (no NaN, no fractions, no
    negative zero). Objects, arrays and dates carry the identity [ref] of
    the heap object they denote: two such values are the same object
    exactly when their [ref]s agree. [Obj] is a plain object, one whose
    prototype is [Object.prototype]; [props] lists its own enumerable
    properties in enumeration order (keys are taken to be field names;
    the special placement of integer-like keys is not modelled). The time
    value of a date is [None] for an invalid date (NaN). [Fn name] is the
    built-in function of that name and [ObjectPrototype] the object
    [Object.prototype] itself: no JSON text denotes them, they reach the
    program when it reads a property that a plain object inherits. *)
Inductive Val :=
| Undefined
| Null
| Bool (b : bool)
| Num (n : Z)
| Str (s : string)
| Obj (ref : nat) (props : list (string * Val))
| Arr (ref : nat) (elems : list Val)
| Date (ref : nat) (time : option Z)
| Fn (name : string)
| ObjectPrototype.

(** ToBoolean. *)
Definition truthy (v : Val) : bool :=
  match v with
  | Undefined | Null => false
  | Bool b => b
  | Num n => negb (Z.eqb n 0)
  | Str s => negb (String.eqb s EmptyString)
  | Obj _ _ | Arr _ _ | Date _ _ | Fn _ | ObjectPrototype => true
  end.

(** [a === b]. On the integer fragment of numbers, [===] and the
    SameValueZero comparison used for [Map] keys coincide. *)
Definition strictEq (a b : Val) : bool :=
  match a, b with
  | Undefined, Undefined => true
  | Null, Null => true
  | Bool x, Bool y => Bool.eqb x y
  | Num x, Num y => Z.eqb x y
  | Str x, Str y => String.eqb x y
  | Obj r _, Obj r' _ => Nat.eqb r r'
  | Arr r _, Arr r' _ => Nat.eqb r r'
  | Date r _, Date r' _ => Nat.eqb r r'
  | Fn f, Fn f' => String.eqb f f'
  | ObjectPrototype, ObjectPrototype => true
  | _, _ => false
  end.

Definition sameValueZero (a b : Val) : bool := strictEq a b.

(** Own-property lookup in a property list: the first binding of [k]. *)
Fixpoint lookupProp (k : string) (props : list (string * Val)) : option Val :=
  match props with
  | [] => None
  | (k', v) :: rest => if String.eqb k' k then Some v else lookupProp k rest
  end.

(** The names under which [Object.prototype] holds a method. *)
Definition objectPrototypeMethods : list string :=
  [ "__defineGetter__"; "__defineSetter__"; "hasOwnProperty";
    "__lookupGetter__"; "__lookupSetter__"; "isPrototypeOf";
    "propertyIsEnumerable"; "toString"; "valueOf"; "toLocaleString" ].

(** What a plain object reads under a name that is not an own property:
    the member of [Object.prototype] of that name. [constructor] is the
    function [Object], [__proto__] an accessor that answers the
    prototype of the object it is read from. *)
Definition inherited (k : string) : Val :=
  if String.eqb k "__proto__" then ObjectPrototype
  else if String.eqb k "constructor" then Fn "Object"
  else if existsb (String.eqb k) objectPrototypeMethods then Fn k
  else Undefined.

(** [o[k]] on the property list of a plain object: the own property,
    or else the inherited member, or else [undefined]. *)
Definition getProp (k : string) (props : list (string * Val)) : Val :=
  default (inherited k) (lookupProp k props).

(** Defining the own property [k], as object literals, spreads and
    assignments under a name other than [__proto__] do: overwrite in
    place when [k] is an own property, append otherwise. *)
Fixpoint setProp (k : string) (v : Val) (props : list (string * Val))
  : list (string * Val) :=
  match props with
  | [] => [(k, v)]
  | (k', v') :: rest =>
      if String.eqb k' k then (k, v) :: rest else (k', v') :: setProp k v rest
  end.

(** [o[k] = v] on a plain object. Under the name [__proto__], unless
    the object has an own property of that name, the assignment runs
    the inherited setter and defines no property: the setter ignores a
    primitive [v]; given an object or [null] it replaces the prototype
    of [o], and what [o] inherits afterwards is outside the model. *)
Definition assign (k : string) (v : Val) (props : list (string * Val))
  : list (string * Val) :=
  match lookupProp k props with
  | Some _ => setProp k v props
  | None => if String.eqb k "__proto__" then props else setProp k v props
  end.

(** [delete o[k]]. *)
Definition deleteProp (k : string) (props : list (string * Val))
  : list (string * Val) :=
  List.filter (fun kv => negb (String.eqb (fst kv) k)) props.

(** An object literal or spread sequence: later bindings of a key replace
    the value of the earlier one and keep its position. *)
Definition assignProps (base extra : list (string * Val)) : list (string * Val) :=
  foldl (fun acc kv => setProp (fst kv) (snd kv) acc) base extra.

Definition literal (bindings : list (string * Val)) : list (string * Val) :=
  assignProps [] bindings.

(** Decimal rendering of an index or integer, as ToString gives it. *)
Definition decimal (n : Z) : string := pretty n.

Definition indexed (vs : list Val) : list (string * Val) :=
  imap (fun i v => (decimal (Z.of_nat i), v)) vs.

Definition chars (s : string) : list Val :=
  map (fun c => Str (String c EmptyString)) (String.list_ascii_of_string s).

(** Own enumerable string-keyed properties, as [Object.entries(v)] and the
    spread [{...v}] enumerate them. *)
Definition ownEntries (v : Val) : list (string * Val) :=
  match v with
  | Obj _ props => props
  | Arr _ elems => indexed elems
  | Str s => indexed (chars s)
  | _ => []
  end.

(** [v.k] for one of the property names the program spells out ([field],
    [value], [headers], [url], ...). Reading a property of [undefined]
    or [null] throws a TypeError. None of these names is a member of a
    built-in prototype, so that outside plain objects only own
    properties are looked up. *)
Definition member (v : Val) (k : string) : Result Val :=
  match v with
  | Undefined =>
      typeError ("Cannot read properties of undefined (reading '" +:+ k +:+ "')")
  | Null =>
      typeError ("Cannot read properties of null (reading '" +:+ k +:+ "')")
  | Obj _ props => Ok (getProp k props)
  | Arr _ elems =>
      if String.eqb k "length" then Ok (Num (Z.of_nat (length elems)))
      else Ok (default Undefined (lookupProp k (indexed elems)))
  | Str s =>
      if String.eqb k "length" then Ok (Num (Z.of_nat (String.length s)))
      else Ok (default Undefined (lookupProp k (indexed (chars s))))
  | _ => Ok Undefined
  end.

(** ToString, used when a value serves as a property key ([o[v]]) or as
    the subject of a regular expression. A plain object is taken with
    the inherited [toString]. *)
Fixpoint toString `{Host} (v : Val) : string :=
  match v with
  | Undefined => "undefined"
  | Null => "null"
  | Bool true => "true"
  | Bool false => "false"
  | Num n => decimal n
  | Str s => s
  | Obj _ _ => "[object Object]"
  | Arr _ elems =>
      String.concat ","
        (map (fun e => match e with
                       | Undefined | Null => EmptyString
                       | _ => toString e
                       end) elems)
  | Date _ t => dateToString t
  | Fn name => functionToString name
  | ObjectPrototype => "[object Object]"
  end.

End Js.

(** ** Data model (types/dto, types/webhook) *)

(** A [Record<string, string>] object: its identity and its entries. *)
Record StringMap := {
  sm_ref : nat;
  sm_entries : list (string * string);
}.

(** A [Date] object: its identity and its time value ([None] = NaN). *)
Record DateObject := {
  date_ref : nat;
  date_time : option Z;
}.

(** A [string[]] array: its identity and its elements. *)
Record StringArray := {
  arr_ref : nat;
  arr_elems : list string;
}.

(** Modelled from the spec: the declaration of [WebhookRequest]
    (types/webhook) is not part of the sources; the fields are those of
    the spec's CapturedRequest, with the names the engine and the DTO
    mapper use, and [extraPath], which the capture route
    (app/api/webhook/[...params]/route.ts) stores on every record: the
    path segments after the endpoint id, [undefined] ([None]) when
    there is none. [req_ref] is the identity of the record object. *)
Record WebhookRequest := {
  req_ref : nat;
  req_id : string;
  req_webhookId : string;
  req_method : string;
  req_path : string;
  req_extraPath : option StringArray;
  req_headers : StringMap;
  req_body : string;
  req_queryParams : StringMap;
  req_timestamp : DateObject;
  req_ip : option string;
  req_userAgent : option string;
  req_contentType : option string;
  req_bodySize : Z;
}.

(** Only the [id] of a webhook configuration is read by the engine. *)
Record WebhookConfig := {
  cfg_id : string;
}.

Record DateRange := {
  dr_start : string;
  dr_end : string;
}.

Record HeaderCondition := {
  hc_key : string;
  hc_operator : string;
  hc_value : string;
}.

(** [ETLFilters]. [f_webhookId] is the property [extract] reads as
    [filters?.webhookId]. *)
Record ETLFilters := {
  f_webhookId : option string;
  f_dateRange : option DateRange;
  f_methods : option (list string);
  f_contentTypes : option (list string);
  f_ipAddresses : option (list string);
  f_userAgents : option (list string);
  f_bodyContains : option string;
  f_headerConditions : option (list HeaderCondition);
}.

(** ** Filter evaluator: [applyFilters] *)

(** Truthiness of an optional string property: absent and the empty string are falsy. *)
Definition truthyStr (s : option string) : bool :=
  match s with
  | Some s => negb (String.eqb s EmptyString)
  | None => false
  end.

(** [xs && xs.length > 0] for an optional array. *)
Definition nonEmpty {A} (xs : option (list A)) : bool :=
  match xs with
  | Some (_ :: _) => true
  | _ => false
  end.

(** [a < b] on time values: false as soon as one side is NaN. *)
Definition timeLt (a b : option Z) : bool :=
  match a, b with
  | Some x, Some y => Z.ltb x y
  | _, _ => false
  end.

(** [arr.includes(s)] on an array of strings. *)
Definition arrayIncludes (arr : list string) (s : string) : bool :=
  existsb (String.eqb s) arr.

(** The own properties of a [Record<string, string>] object. *)
Definition stringProps (entries : list (string * string))
  : list (string * Js.Val) :=
  map (fun kv => (fst kv, Js.Str (snd kv))) entries.

(** [request.headers[key]]: the header stored under [key], or else
    the member of that name which the headers object inherits from
    [Object.prototype]. *)
Definition headerLookup (key : string) (entries : list (string * string))
  : Js.Val :=
  Js.getProp key (stringProps entries).

(** [requests.filter(callback)] with a callback that may throw: the
    first exception ends the traversal. *)
Fixpoint filterRequests {A} (callback : A → Result bool) (requests : list A)
  : Result (list A) :=
  match requests with
  | [] => Ok []
  | request :: rest =>
      keep ← callback request;
      kept ← filterRequests callback rest;
      Ok (if keep : bool then request :: kept else kept)
  end.

Section FilterEvaluator.
Context `{Host}.

(** Each [rejects*] function is the guard of one [return false] of the
    filter callback, in source order. *)
Definition rejectsDateRange (filters : ETLFilters) (request : WebhookRequest) : bool :=
  match f_dateRange filters with
  | Some range =>
      let requestTime := date_time (req_timestamp request) in
      let startTime := dateParse (dr_start range) in
      let endTime := dateParse (dr_end range) in
      timeLt requestTime startTime || timeLt endTime requestTime
  | None => false
  end.

Definition rejectsMethod (filters : ETLFilters) (request : WebhookRequest) : bool :=
  nonEmpty (f_methods filters) &&
  negb (arrayIncludes (default [] (f_methods filters)) (req_method request)).

Definition rejectsContentType (filters : ETLFilters) (request : WebhookRequest) : bool :=
  nonEmpty (f_contentTypes filters) &&
  (negb (truthyStr (req_contentType request)) ||
   negb (existsb (fun ct => Js.includes (default EmptyString (req_contentType request)) ct)
           (default [] (f_contentTypes filters)))).

Definition rejectsIp (filters : ETLFilters) (request : WebhookRequest) : bool :=
  nonEmpty (f_ipAddresses filters) &&
  (negb (truthyStr (req_ip request)) ||
   negb (arrayIncludes (default [] (f_ipAddresses filters))
           (default EmptyString (req_ip request)))).

Definition rejectsUserAgent (filters : ETLFilters) (request : WebhookRequest) : bool :=
  nonEmpty (f_userAgents filters) &&
  (negb (truthyStr (req_userAgent request)) ||
   negb (existsb (fun ua => Js.includes (default EmptyString (req_userAgent request)) ua)
           (default [] (f_userAgents filters)))).

Definition rejectsBody (filters : ETLFilters) (request : WebhookRequest) : bool :=
  truthyStr (f_bodyContains filters) &&
  negb (Js.includes (req_body request) (default EmptyString (f_bodyContains filters))).

(** One iteration of the loop over the header conditions: [true] when
    the iteration executes a [return false]. A [switch] without a
    matching case falls through. The value looked up is a string when
    the header is stored; an inherited member is a function or an
    object: it is never [===] a string, has no method [includes], so
    that the call throws, and is matched by its text under [regex],
    where the [try] block covers the construction of the expression and
    the test. *)
Definition rejectsHeaderCondition (request : WebhookRequest)
    (condition : HeaderCondition) : Result bool :=
  let headerValue := headerLookup (hc_key condition)
                       (sm_entries (req_headers request)) in
  if negb (Js.truthy headerValue) then Ok true
  else if String.eqb (hc_operator condition) "equals" then
    Ok (negb (Js.strictEq headerValue (Js.Str (hc_value condition))))
  else if String.eqb (hc_operator condition) "contains" then
    match headerValue with
    | Js.Str headerValue => Ok (negb (Js.includes headerValue (hc_value condition)))
    | _ => typeError "headerValue.includes is not a function"
    end
  else if String.eqb (hc_operator condition) "regex" then
    match regexTest (hc_value condition) (Js.toString headerValue) with
    | Some matched => Ok (negb matched)
    | None => Ok true
    end
  else Ok false.

Fixpoint rejectsHeaders (request : WebhookRequest)
    (conditions : list HeaderCondition) : Result bool :=
  match conditions with
  | [] => Ok false
  | condition :: rest =>
      rejected ← rejectsHeaderCondition request condition;
      if rejected : bool then Ok true
      else rejectsHeaders request rest
  end.

(** The callback passed to [requests.filter]. *)
Definition keepsRequest (filters : ETLFilters) (request : WebhookRequest)
  : Result bool :=
  if rejectsDateRange filters request then Ok false
  else if rejectsMethod filters request then Ok false
  else if rejectsContentType filters request then Ok false
  else if rejectsIp filters request then Ok false
  else if rejectsUserAgent filters request then Ok false
  else if rejectsBody filters request then Ok false
  else if nonEmpty (f_headerConditions filters) then
    rejected ← rejectsHeaders request (default [] (f_headerConditions filters));
    Ok (negb rejected)
  else Ok true.

Definition applyFilters (requests : list WebhookRequest)
    (filters : option ETLFilters) : Result (list WebhookRequest) :=
  match filters with
  | None => Ok requests
  | Some filters => filterRequests (keepsRequest filters) requests
  end.

End FilterEvaluator.

(** ** Extract phase *)

(** The storage collaborator (lib/storage/storage-manager), seen through
    the two calls the engine makes. Either call may reject. *)
Record StorageManager := {
  getRequests : string → nat → Result (list WebhookRequest);
  getAllWebhookConfigs : Result (list WebhookConfig);
}.

Section Extract.
Context `{Host}.

(** The [for (const config of configs)] loop: the first rejected read
    aborts it. *)
Fixpoint extractAll (storageManager : StorageManager)
    (configs : list WebhookConfig) (allRequests : list WebhookRequest)
  : Result (list WebhookRequest) :=
  match configs with
  | [] => Ok allRequests
  | config :: rest =>
      requests ← getRequests storageManager (cfg_id config) 1000;
      extractAll storageManager rest (allRequests ++ requests)
  end.

(** [extract(jobId, filters)]; [getStorageManager] is the outcome of the
    awaited [getStorageManager()]. The [catch] logs and rethrows. *)
Definition extract (getStorageManager : Result StorageManager)
    (filters : option ETLFilters) : Result (list WebhookRequest) :=
  storageManager ← getStorageManager;
  allRequests ←
    (if truthyStr (filters ≫= f_webhookId) then
       getRequests storageManager (default EmptyString (filters ≫= f_webhookId)) 1000
     else
       configs ← getAllWebhookConfigs storageManager;
       extractAll storageManager configs []);
  applyFilters allRequests filters.

End Extract.

(** Modelled from the spec: the storage layer is outside the sources; the
    spec gives it the contract [getRequests(endpointId, limit)]. This is
    a storage manager over an in-memory store that never rejects and
    returns the first [limit] records stored for the endpoint. *)
Definition storageOver (configs : list WebhookConfig)
    (stored : string → list WebhookRequest) : StorageManager :=
  {| getRequests := fun webhookId limit => Ok (take limit (stored webhookId));
     getAllWebhookConfigs := Ok configs |}.

(** ** Transformation pipeline *)

(** An element of the [any[]] record set: a plain record object with
    its identity and own properties. Every producer in the engine
    (storage reads, [map], [aggregate], [enrich]) yields such
    objects. *)
Record Item := {
  item_ref : nat;
  item_props : list (string * Js.Val);
}.

Definition itemVal (item : Item) : Js.Val :=
  Js.Obj (item_ref item) (item_props item).

Definition stringMapVal (m : StringMap) : Js.Val :=
  Js.Obj (sm_ref m) (stringProps (sm_entries m)).

Definition stringArrayVal (a : StringArray) : Js.Val :=
  Js.Arr (arr_ref a) (map Js.Str (arr_elems a)).

Definition optionalProp (k : string) (v : option string) : list (string * Js.Val) :=
  match v with
  | Some s => [(k, Js.Str s)]
  | None => []
  end.

(** A stored request seen as an untyped record, as [transform] receives
    it: the properties of the object the capture route builds. *)
Definition requestItem (r : WebhookRequest) : Item :=
  {| item_ref := req_ref r;
     item_props :=
       [ ("id", Js.Str (req_id r));
         ("webhookId", Js.Str (req_webhookId r));
         ("method", Js.Str (req_method r));
         ("path", Js.Str (req_path r));
         ("extraPath", from_option stringArrayVal Js.Undefined (req_extraPath r));
         ("headers", stringMapVal (req_headers r));
         ("body", Js.Str (req_body r));
         ("queryParams", stringMapVal (req_queryParams r));
         ("timestamp", Js.Date (date_ref (req_timestamp r))
                               (date_time (req_timestamp r))) ]
       ++ optionalProp "ip" (req_ip r)
       ++ optionalProp "userAgent" (req_userAgent r)
       ++ optionalProp "contentType" (req_contentType r)
       ++ [ ("bodySize", Js.Num (req_bodySize r)) ] |}.

Record ETLTransformation := {
  t_id : string;
  t_type : string;
  t_config : Js.Val;
  t_enabled : bool;
  t_order : Z;
}.

(** [data.filter(callback)] with a callback that may throw. *)
Fixpoint filterItems (callback : Item → Result bool) (data : list Item)
  : Result (list Item) :=
  match data with
  | [] => Ok []
  | item :: rest =>
      keep ← callback item;
      kept ← filterItems callback rest;
      Ok (if keep : bool then item :: kept else kept)
  end.

(** [data.map(callback)] where the callback allocates one object per
    element: [next] is the first unused identity (the caller passes one
    above every identity in use). *)
Fixpoint mapItems (callback : nat → Item → Result Item) (next : nat)
    (data : list Item) : Result (list Item) :=
  match data with
  | [] => Ok []
  | item :: rest =>
      mapped ← callback next item;
      others ← mapItems callback (S next) rest;
      Ok (mapped :: others)
  end.

(** The [Map] built by [aggregateTransformation]: keys in insertion
    order, each with the identity and the elements of its array. *)
Definition Groups := list (Js.Val * (nat * list Item)).

Definition groupsHas (key : Js.Val) (groups : Groups) : bool :=
  existsb (fun g => Js.sameValueZero (fst g) key) groups.

(** [groups.get(key).push(item)]. *)
Fixpoint groupsPush (key : Js.Val) (item : Item) (groups : Groups) : Groups :=
  match groups with
  | [] => []
  | (k, (ref, items)) :: rest =>
      if Js.sameValueZero k key then (k, (ref, items ++ [item])) :: rest
      else (k, (ref, items)) :: groupsPush key item rest
  end.

Section Pipeline.
Context `{Host}.

(** [item[k]] for a value [k] used as property key: an own property of
    the record, or else what the record inherits under that name. *)
Definition itemGet (item : Item) (k : Js.Val) : Js.Val :=
  Js.getProp (Js.toString k) (item_props item).

Definition filterTransformation (data : list Item) (config : Js.Val)
  : Result (list Item) :=
  filterItems (fun item =>
    field ← Js.member config "field";
    if Js.truthy field then
      value ← Js.member config "value";
      if Js.truthy value then Ok (Js.strictEq (itemGet item field) value)
      else Ok true
    else Ok true) data.

(** One iteration of the loop over [Object.entries(config.fieldMappings)]. *)
Definition renameField (mapped : list (string * Js.Val))
    (entry : string * Js.Val) : list (string * Js.Val) :=
  let oldField := fst entry in
  let newField := snd entry in
  if negb (Js.strictEq (Js.getProp oldField mapped) Js.Undefined) then
    Js.deleteProp oldField
      (Js.assign (Js.toString newField) (Js.getProp oldField mapped) mapped)
  else mapped.

Definition mapTransformation (next : nat) (data : list Item) (config : Js.Val)
  : Result (list Item) :=
  mapItems (fun ref item =>
    let mapped := item_props item in
    fieldMappings ← Js.member config "fieldMappings";
    Ok {| item_ref := ref;
          item_props :=
            if Js.truthy fieldMappings
            then foldl renameField mapped (Js.ownEntries fieldMappings)
            else mapped |}) next data.

(** The body of [data.forEach] in [aggregateTransformation]; the second
    component counts the arrays allocated so far. *)
Definition addToGroups (groupBy : Js.Val) (acc : Groups * nat) (item : Item)
  : Groups * nat :=
  let key := itemGet item groupBy in
  let '(groups, next) := acc in
  let '(groups, next) :=
    if negb (groupsHas key groups)
    then (groups ++ [(key, (next, []))], S next)
    else (groups, next) in
  (groupsPush key item groups, next).

(** The summary object built for one entry of the [Map]. *)
Definition groupSummary (config : Js.Val) (ref : nat)
    (entry : Js.Val * (nat * list Item)) : Result Item :=
  let '(key, (itemsRef, items)) := entry in
  groupBy ← Js.member config "groupBy";
  includeItems ← Js.member config "includeItems";
  Ok {| item_ref := ref;
        item_props := Js.literal
          [ (Js.toString groupBy, key);
            ("count", Js.Num (Z.of_nat (length items)));
            ("items", if Js.truthy includeItems
                      then Js.Arr itemsRef (map itemVal items)
                      else Js.Undefined) ] |}.

Fixpoint summarize (config : Js.Val) (next : nat) (groups : Groups)
  : Result (list Item) :=
  match groups with
  | [] => Ok []
  | entry :: rest =>
      summary ← groupSummary config next entry;
      others ← summarize config (S next) rest;
      Ok (summary :: others)
  end.

Definition aggregateTransformation (next : nat) (data : list Item)
    (config : Js.Val) : Result (list Item) :=
  groupBy ← Js.member config "groupBy";
  if Js.truthy groupBy then
    let '(groups, next) := foldl (addToGroups groupBy) ([], next) data in
    summarize config next groups
  else Ok data.

(** The callback of [enrichTransformation] reads the clock itself:
    [now i] is the reading of [new Date().toISOString()] in the call
    for the [i]-th record of the step, which gets the identity
    [next + i]. *)
Definition enrichTransformation (now : nat → string) (next : nat)
    (data : list Item) (config : Js.Val) : Result (list Item) :=
  mapItems (fun ref item =>
    additionalFields ← Js.member config "additionalFields";
    Ok {| item_ref := ref;
          item_props :=
            Js.assignProps (item_props item)
              (Js.ownEntries additionalFields ++
               [("enrichedAt", Js.Str (now (ref - next)%nat))]) |})
    next data.

Definition validateTransformation (data : list Item) (config : Js.Val)
  : Result (list Item) :=
  filterItems (fun item =>
    requiredFields ← Js.member config "requiredFields";
    if Js.truthy requiredFields then
      match requiredFields with
      | Js.Arr _ fields =>
          Ok (forallb (fun field =>
                negb (Js.strictEq (itemGet item field) Js.Undefined) &&
                negb (Js.strictEq (itemGet item field) Js.Null)) fields)
      | _ => typeError "config.requiredFields.every is not a function"
      end
    else Ok true) data.

(** Identities a step may have consumed: an upper bound is enough, the
    engine never reuses one. *)
Definition allocated (data : list Item) : nat := (2 * length data)%nat.

Definition applyTransformation (now : nat → string) (next : nat)
    (data : list Item) (transformation : ETLTransformation)
  : Result (list Item) :=
  let type := t_type transformation in
  let config := t_config transformation in
  if String.eqb type "filter" then filterTransformation data config
  else if String.eqb type "map" then mapTransformation next data config
  else if String.eqb type "aggregate" then aggregateTransformation next data config
  else if String.eqb type "enrich" then enrichTransformation now next data config
  else if String.eqb type "validate" then validateTransformation data config
  else Throw (ThrownError ("Unknown transformation type: " +:+ type)).

(** [Array.prototype.sort] with the comparator [a.order - b.order]: the
    sort is stable, so an element goes in front of the first element
    that does not precede it. *)
Fixpoint insertByOrder (t : ETLTransformation)
    (sorted : list ETLTransformation) : list ETLTransformation :=
  match sorted with
  | [] => [t]
  | u :: rest =>
      if Z.leb (t_order t - t_order u) 0 then t :: u :: rest
      else u :: insertByOrder t rest
  end.

Definition sortByOrder (ts : list ETLTransformation) : list ETLTransformation :=
  foldr insertByOrder [] ts.

Definition sortedTransformations (transformations : list ETLTransformation)
  : list ETLTransformation :=
  sortByOrder (List.filter t_enabled transformations).

(** The [for] loop of [transform]. [clock k i] is the reading of the
    clock that the [k]-th executed step takes for its [i]-th record. *)
Fixpoint applyAll (clock : nat → nat → string) (k : nat) (next : nat)
    (transformedData : list Item) (steps : list ETLTransformation)
  : Result (list Item) :=
  match steps with
  | [] => Ok transformedData
  | transformation :: rest =>
      transformedData' ← applyTransformation (clock k) next transformedData
                           transformation;
      applyAll clock (S k) (next + allocated transformedData) transformedData' rest
  end.

Definition transform (clock : nat → nat → string) (next : nat) (data : list Item)
    (transformations : option (list ETLTransformation)) : Result (list Item) :=
  match transformations with
  | None | Some [] => Ok data
  | Some transformations =>
      applyAll clock 0 next data (sortedTransformations transformations)
  end.

End Pipeline.

(** ** Destination loader *)

Record ETLDestination := {
  d_type : string;
  d_config : Js.Val;
}.

(** What an outbound call carries as body: the JSON text of one record
    ([loadToWebhook]) or of the whole record set ([loadToAPI]). *)
Inductive Payload :=
| OneRecord (item : Item)
| AllRecords (data : list Item).

Record FetchCall := {
  fetch_url : Js.Val;
  fetch_method : Js.Val;
  fetch_headers : Js.Val;
  fetch_body : Payload;
}.

(** The loader's observable effect is the sequence of outbound calls it
    issues; console output is not modelled. *)
Definition Outbound (A : Type) : Type := list FetchCall * Result A.

(** [v || d]. *)
Definition orElse (v d : Js.Val) : Js.Val := if Js.truthy v then v else d.

Section Loader.
(** [fetch call] is the settlement of the awaited [fetch(...)]. *)
Variable fetch : FetchCall → Result unit.

(** The [for] loop of [loadToWebhook]: the first rejected call is
    logged and rethrown, which ends the loop. *)
Fixpoint sendEach (request : Item → FetchCall) (data : list Item) : Outbound unit :=
  match data with
  | [] => ([], Ok ())
  | item :: rest =>
      match fetch (request item) with
      | Ok _ =>
          let '(calls, outcome) := sendEach request rest in
          (request item :: calls, outcome)
      | Throw e => ([request item], Throw e)
      end
  end.

(** The three reads that open [loadToWebhook] and [loadToAPI]; [ref]
    is the identity of the default headers literal. *)
Definition requestTemplate (ref : nat) (config : Js.Val)
  : Result (Payload → FetchCall) :=
  url ← Js.member config "url";
  method ← Js.member config "method";
  headers ← Js.member config "headers";
  Ok (fun body =>
    {| fetch_url := url;
       fetch_method := orElse method (Js.Str "POST");
       fetch_headers :=
         orElse headers
           (Js.Obj ref [("Content-Type", Js.Str "application/json")]);
       fetch_body := body |}).

Definition loadToWebhook (next : nat) (data : list Item) (config : Js.Val)
  : Outbound unit :=
  match requestTemplate next config with
  | Ok request => sendEach (fun item => request (OneRecord item)) data
  | Throw e => ([], Throw e)
  end.

Definition loadToFile (data : list Item) (config : Js.Val) : Outbound unit :=
  ([], _ ← Js.member config "filename"; Ok ()).

Definition loadToEmail (data : list Item) (config : Js.Val) : Outbound unit :=
  ([], _ ← Js.member config "recipients";
       _ ← Js.member config "subject";
       Ok ()).

Definition loadToAPI (next : nat) (data : list Item) (config : Js.Val)
  : Outbound unit :=
  match requestTemplate next config with
  | Ok request =>
      ([request (AllRecords data)], fetch (request (AllRecords data)))
  | Throw e => ([], Throw e)
  end.

Definition load (next : nat) (data : list Item)
    (destination : option ETLDestination) : Outbound unit :=
  match destination with
  | None => ([], Ok ())
  | Some destination =>
      let type := d_type destination in
      let config := d_config destination in
      if String.eqb type "webhook" then loadToWebhook next data config
      else if String.eqb type "file" then loadToFile data config
      else if String.eqb type "email" then loadToEmail data config
      else if String.eqb type "api" then loadToAPI next data config
      else ([], Throw (ThrownError ("Unsupported destination type: " +:+ type)))
  end.

End Loader.

(** ** Job lifecycle manager *)

Inductive JobStatus := pending | running | completed | failed | cancelled.

#[global] Instance JobStatus_eq_dec : EqDecision JobStatus.
Proof. solve_decision. Defined.

Record ETLProgress := {
  totalRecords : Z;
  processedRecords : Z;
  successfulRecords : Z;
  failedRecords : Z;
  percentage : Z;
  currentPhase : string;
}.

(** [ETLJobDTO], with the fields the engine reads or writes and the
    identifying ones. *)
Record ETLJob := {
  job_id : string;
  job_name : string;
  job_status : JobStatus;
  job_filters : option ETLFilters;
  job_transformations : option (list ETLTransformation);
  job_destination : option ETLDestination;
  job_createdAt : string;
  job_startedAt : option string;
  job_completedAt : option string;
  job_progress : option ETLProgress;
  job_error : option string;
}.

(** Job objects are shared between the engine, its callers and the route
    handlers: they live in a store addressed by reference. *)
Definition loc := nat.

(** The [ETLEngine] instance ([jobs], [activeJobs]) together with the
    store of job objects its references point into. *)
Record State := {
  heap : loc → ETLJob;
  jobs : gmap string loc;
  activeJobs : gset string;
}.

(** Mutation of the object behind a reference. *)
Definition update (job : loc) (f : ETLJob → ETLJob) (st : State) : State :=
  {| heap := alter f job (heap st);
     jobs := jobs st;
     activeJobs := activeJobs st |}.

(** [this.jobs.set(jobId, job)]. *)
Definition jobsSet (jobId : string) (job : loc) (st : State) : State :=
  {| heap := heap st;
     jobs := <[jobId := job]> (jobs st);
     activeJobs := activeJobs st |}.

(** [this.activeJobs.add(jobId)] and [this.activeJobs.delete(jobId)]. *)
Definition activeAdd (jobId : string) (st : State) : State :=
  {| heap := heap st;
     jobs := jobs st;
     activeJobs := {[jobId]} ∪ activeJobs st |}.

Definition activeDelete (jobId : string) (st : State) : State :=
  {| heap := heap st;
     jobs := jobs st;
     activeJobs := activeJobs st ∖ {[jobId]} |}.

Definition withStatus (s : JobStatus) (j : ETLJob) : ETLJob :=
  {| job_id := job_id j; job_name := job_name j; job_status := s;
     job_filters := job_filters j; job_transformations := job_transformations j;
     job_destination := job_destination j; job_createdAt := job_createdAt j;
     job_startedAt := job_startedAt j; job_completedAt := job_completedAt j;
     job_progress := job_progress j; job_error := job_error j |}.

Definition withStartedAt (t : string) (j : ETLJob) : ETLJob :=
  {| job_id := job_id j; job_name := job_name j; job_status := job_status j;
     job_filters := job_filters j; job_transformations := job_transformations j;
     job_destination := job_destination j; job_createdAt := job_createdAt j;
     job_startedAt := Some t; job_completedAt := job_completedAt j;
     job_progress := job_progress j; job_error := job_error j |}.

Definition withCompletedAt (t : string) (j : ETLJob) : ETLJob :=
  {| job_id := job_id j; job_name := job_name j; job_status := job_status j;
     job_filters := job_filters j; job_transformations := job_transformations j;
     job_destination := job_destination j; job_createdAt := job_createdAt j;
     job_startedAt := job_startedAt j; job_completedAt := Some t;
     job_progress := job_progress j; job_error := job_error j |}.

Definition withProgress (p : ETLProgress) (j : ETLJob) : ETLJob :=
  {| job_id := job_id j; job_name := job_name j; job_status := job_status j;
     job_filters := job_filters j; job_transformations := job_transformations j;
     job_destination := job_destination j; job_createdAt := job_createdAt j;
     job_startedAt := job_startedAt j; job_completedAt := job_completedAt j;
     job_progress := Some p; job_error := job_error j |}.

Definition withError (msg : string) (j : ETLJob) : ETLJob :=
  {| job_id := job_id j; job_name := job_name j; job_status := job_status j;
     job_filters := job_filters j; job_transformations := job_transformations j;
     job_destination := job_destination j; job_createdAt := job_createdAt j;
     job_startedAt := job_startedAt j; job_completedAt := job_completedAt j;
     job_progress := job_progress j; job_error := Some msg |}.

Definition setTotalRecords (n : Z) (p : ETLProgress) : ETLProgress :=
  {| totalRecords := n; processedRecords := processedRecords p;
     successfulRecords := successfulRecords p; failedRecords := failedRecords p;
     percentage := percentage p; currentPhase := currentPhase p |}.

Definition setProcessedRecords (n : Z) (p : ETLProgress) : ETLProgress :=
  {| totalRecords := totalRecords p; processedRecords := n;
     successfulRecords := successfulRecords p; failedRecords := failedRecords p;
     percentage := percentage p; currentPhase := currentPhase p |}.

Definition setSuccessfulRecords (n : Z) (p : ETLProgress) : ETLProgress :=
  {| totalRecords := totalRecords p; processedRecords := processedRecords p;
     successfulRecords := n; failedRecords := failedRecords p;
     percentage := percentage p; currentPhase := currentPhase p |}.

Definition setPercentage (n : Z) (p : ETLProgress) : ETLProgress :=
  {| totalRecords := totalRecords p; processedRecords := processedRecords p;
     successfulRecords := successfulRecords p; failedRecords := failedRecords p;
     percentage := n; currentPhase := currentPhase p |}.

Definition setCurrentPhase (phase : string) (p : ETLProgress) : ETLProgress :=
  {| totalRecords := totalRecords p; processedRecords := processedRecords p;
     successfulRecords := successfulRecords p; failedRecords := failedRecords p;
     percentage := percentage p; currentPhase := phase |}.

(** Code that mutates the state and may throw: the state reached so far
    survives the exception. *)
Definition Eff (A : Type) : Type := State → State * Result A.

#[global] Instance Eff_ret : MRet Eff := fun _ a st => (st, Ok a).
#[global] Instance Eff_bind : MBind Eff := fun _ _ k m st =>
  match m st with
  | (st', Ok a) => k a st'
  | (st', Throw e) => (st', Throw e)
  end.

Definition modify (f : State → State) : Eff unit := fun st => (f st, Ok ()).

(** A read of the current state, such as [job.filters]. *)
Definition reads {A} (f : State → A) : Eff A := fun st => (st, Ok (f st)).

(** Delivery of an awaited settlement. *)
Definition settle {A} (r : Result A) : Eff A := fun st => (st, r).

(** [job.progress.field = v]: a TypeError when [job.progress] is
    [undefined]. *)
Definition writeProgress (job : loc) (field : string)
    (f : ETLProgress → ETLProgress) : Eff unit := fun st =>
  match job_progress (heap st job) with
  | Some p => (update job (withProgress (f p)) st, Ok ())
  | None =>
      (st, typeError ("Cannot set properties of undefined (setting '"
                      +:+ field +:+ "')"))
  end.

(** The [await] at which a call of [executeJob] is suspended, with the
    arguments the awaited call was given. *)
Inductive Pending :=
| AwaitExtract (filters : option ETLFilters)
| AwaitTransform (data : list WebhookRequest)
    (transformations : option (list ETLTransformation))
| AwaitLoad (data : list Item) (destination : option ETLDestination).

(** A suspended call of [executeJob]: its locals [jobId] and [job]. *)
Record Run := {
  run_jobId : string;
  run_job : loc;
  run_pending : Pending;
}.

(** Settlement of the promise returned by [executeJob]. *)
Inductive Settled :=
| Resolved
| Rejected (e : Thrown).

(** [error instanceof Error ? error.message : 'Unknown error']. *)
Definition errorMessage (e : Thrown) : string :=
  match e with
  | ThrownError message => message
  | ThrownOther => "Unknown error"
  end.

(** The [catch] block of [executeJob]; [now] is the clock reading. *)
Definition catchBlock (now : string) (job : loc) (e : Thrown) (st : State) : State :=
  update job (withCompletedAt now)
    (update job (withError (errorMessage e))
       (update job (withStatus failed) st)).

(** The [finally] block. *)
Definition finallyBlock (jobId : string) (job : loc) (st : State) : State :=
  jobsSet jobId job (activeDelete jobId st).

(** [try { body } catch { ... throw error } finally { ... }] around a piece
    of the body that either reaches the next [await] or runs to the end. *)
Definition guarded (now : string) (jobId : string) (job : loc)
    (body : Eff (option Pending)) (st : State) : State * (Run + Settled) :=
  match body st with
  | (st', Ok (Some awaiting)) =>
      (st', inl {| run_jobId := jobId; run_job := job; run_pending := awaiting |})
  | (st', Ok None) => (finallyBlock jobId job st', inr Resolved)
  | (st', Throw e) =>
      (finallyBlock jobId job (catchBlock now job e st'), inr (Rejected e))
  end.

(** What the run needs from outside when it resumes: the clock, the
    first unused object identity, and the settlements of the I/O it
    awaits. *)
Record World := {
  w_now : string;
  w_clock : nat → nat → string;
  w_next : nat;
  w_getStorageManager : Result StorageManager;
  w_fetch : FetchCall → Result unit;
}.

Section Lifecycle.
Context `{Host}.

(** [executeJob(job)] up to its first [await]. *)
Definition executeJob (now : string) (job : loc) (st : State)
  : State * (Run + Settled) :=
  let jobId := job_id (heap st job) in
  if decide (jobId ∈ activeJobs st) then
    (st, inr (Rejected (ThrownError ("Job " +:+ jobId +:+ " is already running"))))
  else
    guarded now jobId job
      (modify (update job (withStatus running));;
       modify (update job (withStartedAt now));;
       modify (update job (withProgress
         {| totalRecords := 0; processedRecords := 0; successfulRecords := 0;
            failedRecords := 0; percentage := 0; currentPhase := "extract" |}));;
       modify (jobsSet jobId job);;
       writeProgress job "currentPhase" (setCurrentPhase "extract");;
       filters ← reads (fun st => job_filters (heap st job));
       mret (Some (AwaitExtract filters)))
      (activeAdd jobId st).

(** The rest of the [try] block from the pending [await] to the next
    one (or to the end). *)
Definition continue (w : World) (job : loc) (awaiting : Pending)
  : Eff (option Pending) :=
  match awaiting with
  | AwaitExtract filters =>
      extractedData ← settle (extract (w_getStorageManager w) filters);
      writeProgress job "totalRecords"
        (setTotalRecords (Z.of_nat (length extractedData)));;
      writeProgress job "currentPhase" (setCurrentPhase "transform");;
      transformations ← reads (fun st => job_transformations (heap st job));
      mret (Some (AwaitTransform extractedData transformations))
  | AwaitTransform extractedData transformations =>
      transformedData ← settle (transform (w_clock w) (w_next w)
                                  (map requestItem extractedData) transformations);
      writeProgress job "processedRecords"
        (setProcessedRecords (Z.of_nat (length transformedData)));;
      writeProgress job "currentPhase" (setCurrentPhase "load");;
      destination ← reads (fun st => job_destination (heap st job));
      mret (Some (AwaitLoad transformedData destination))
  | AwaitLoad transformedData destination =>
      settle (snd (load (w_fetch w) (w_next w) transformedData destination));;
      writeProgress job "successfulRecords"
        (setSuccessfulRecords (Z.of_nat (length transformedData)));;
      writeProgress job "percentage" (setPercentage 100);;
      modify (update job (withStatus completed));;
      modify (update job (withCompletedAt (w_now w)));;
      writeProgress job "currentPhase" (setCurrentPhase "completed");;
      mret None
  end.

(** The run resumes when the awaited phase settles. *)
Definition resume (w : World) (run : Run) (st : State) : State * (Run + Settled) :=
  guarded (w_now w) (run_jobId run) (run_job run)
    (continue w (run_job run) (run_pending run)) st.

(** A run driven to its end without anything else touching the engine
    in between: [worlds] are the surroundings at each resumption. *)
Fixpoint resumeAll (worlds : list World) (at_ : State * (Run + Settled))
  : State * (Run + Settled) :=
  match worlds, at_ with
  | w :: rest, (st, inl run) => resumeAll rest (resume w run st)
  | _, _ => at_
  end.

Definition executeJobToEnd (now : string) (w1 w2 w3 : World) (job : loc)
    (st : State) : State * (Run + Settled) :=
  resumeAll [w1; w2; w3] (executeJob now job st).

End Lifecycle.

(** ** Job management methods *)

Definition getJob (jobId : string) (st : State) : option loc := jobs st !! jobId.

Definition isJobRunning (jobId : string) (st : State) : bool :=
  bool_decide (jobId ∈ activeJobs st).

(** [cancelJob(jobId)]; [now] is the clock reading. *)
Definition cancelJob (now : string) (jobId : string) (st : State) : State * bool :=
  match jobs st !! jobId with
  | Some job =>
      if decide (jobId ∈ activeJobs st) then
        (jobsSet jobId job
           (activeDelete jobId
              (update job (withCompletedAt now)
                 (update job (withStatus cancelled) st))), true)
      else (st, false)
  | None => (st, false)
  end.

(** ** DTO mapper (src/lib/dto/dto-mapper.ts)

    The mapper's validators take [any] value and its sanitizer only
    relies on [headers] being spreadable, so both are modelled on
    untyped values. *)

(** [typeof v]. Functions, symbols and bigints are outside the fragment
    of values. *)
Definition typeOf (v : Js.Val) : string :=
  match v with
  | Js.Undefined => "undefined"
  | Js.Null => "object"
  | Js.Bool _ => "boolean"
  | Js.Num _ => "number"
  | Js.Str _ => "string"
  | Js.Obj _ _ | Js.Arr _ _ | Js.Date _ _ | Js.ObjectPrototype => "object"
  | Js.Fn _ => "function"
  end.

Module DTOMapper.

(** One conjunct [typeof dto.k === type] of a validator: the read of
    [dto.k] throws when [dto] is [undefined] or [null]. *)
Definition hasType (dto : Js.Val) (k type : string) : Result bool :=
  v ← Js.member dto k; Ok (String.eqb (typeOf v) type).

(** A chain [c1 && c2 && ...]: the first conjunct that is false (or
    throws) ends the evaluation. *)
Fixpoint allOf (conjuncts : list (Result bool)) : Result bool :=
  match conjuncts with
  | [] => Ok true
  | conjunct :: rest => b ← conjunct; if b : bool then allOf rest else Ok false
  end.

Definition validateWebhookRequestDTO (dto : Js.Val) : Result bool :=
  allOf [ Ok (String.eqb (typeOf dto) "object");
          hasType dto "id" "string";
          hasType dto "webhookId" "string";
          hasType dto "method" "string";
          hasType dto "path" "string";
          hasType dto "headers" "object";
          hasType dto "body" "string";
          hasType dto "queryParams" "object";
          hasType dto "timestamp" "string";
          hasType dto "bodySize" "number" ].

Definition validateWebhookConfigDTO (dto : Js.Val) : Result bool :=
  allOf [ Ok (String.eqb (typeOf dto) "object");
          hasType dto "id" "string";
          hasType dto "url" "string";
          hasType dto "createdAt" "string";
          hasType dto "requestCount" "number";
          hasType dto "isActive" "boolean" ].

Definition sensitiveHeaders : list string :=
  ["authorization"; "cookie"; "x-api-key"; "x-auth-token"].

(** The callback of [sensitiveHeaders.forEach]. *)
Definition redact (sanitizedHeaders : list (string * Js.Val)) (header : string)
  : list (string * Js.Val) :=
  if Js.truthy (Js.getProp header sanitizedHeaders)
  then Js.setProp header (Js.Str "[REDACTED]") sanitizedHeaders
  else sanitizedHeaders.

(** [sanitizeWebhookRequestDTO(dto)]. It allocates the copy of the
    headers (identity [next]), the array of sensitive names and the
    object it returns (identity [next + 2]). *)
Definition sanitizeWebhookRequestDTO (next : nat) (dto : Js.Val) : Result Js.Val :=
  headers ← Js.member dto "headers";
  let sanitizedHeaders :=
    foldl redact (Js.literal (Js.ownEntries headers)) sensitiveHeaders in
  Ok (Js.Obj (next + 2)
        (Js.literal (Js.ownEntries dto ++ [("headers", Js.Obj next sanitizedHeaders)]))).

(** [WebhookRequestDTO]. [dto_ref] is the identity of the DTO object,
    and [dto_tags] carries the identity of its array. *)
Record WebhookRequestDTO := {
  dto_ref : nat;
  dto_id : string;
  dto_webhookId : string;
  dto_method : string;
  dto_path : string;
  dto_headers : StringMap;
  dto_body : string;
  dto_queryParams : StringMap;
  dto_timestamp : string;
  dto_ip : option string;
  dto_userAgent : option string;
  dto_contentType : option string;
  dto_bodySize : Z;
  dto_processed : option bool;
  dto_tags : option (nat * list string);
  dto_priority : option string;
  dto_retryCount : option Z;
}.

Section Conversions.
Context `{Host}.
(** [isoString t] is the text [toISOString] gives for the time value
    [t] of a valid date. *)
Variable isoString : Z → string.

(** [date.toISOString()]: a RangeError on an invalid date. *)
Definition toISOString (time : option Z) : Result string :=
  match time with
  | Some t => Ok (isoString t)
  | None => Throw (ThrownError "Invalid time value")
  end.

(** [toWebhookRequestDTO(request)]; [next] is the identity of the DTO
    object, [next + 1] that of its [tags] array. *)
Definition toWebhookRequestDTO (next : nat) (request : WebhookRequest)
  : Result WebhookRequestDTO :=
  timestamp ← toISOString (date_time (req_timestamp request));
  Ok {| dto_ref := next;
        dto_id := req_id request;
        dto_webhookId := req_webhookId request;
        dto_method := req_method request;
        dto_path := req_path request;
        dto_headers := req_headers request;
        dto_body := req_body request;
        dto_queryParams := req_queryParams request;
        dto_timestamp := timestamp;
        dto_ip := req_ip request;
        dto_userAgent := req_userAgent request;
        dto_contentType := req_contentType request;
        dto_bodySize := req_bodySize request;
        dto_processed := Some false;
        dto_tags := Some (S next, []);
        dto_priority := Some "medium";
        dto_retryCount := Some 0 |}.

(** [fromWebhookRequestDTO(dto)]; [next] is the identity of the request
    object, [next + 1] that of its [Date]. The object is built without
    [extraPath], which a DTO does not carry. *)
Definition fromWebhookRequestDTO (next : nat) (dto : WebhookRequestDTO)
  : WebhookRequest :=
  {| req_ref := next;
     req_id := dto_id dto;
     req_webhookId := dto_webhookId dto;
     req_method := dto_method dto;
     req_path := dto_path dto;
     req_extraPath := None;
     req_headers := dto_headers dto;
     req_body := dto_body dto;
     req_queryParams := dto_queryParams dto;
     req_timestamp := {| date_ref := S next;
                         date_time := dateParse (dto_timestamp dto) |};
     req_ip := dto_ip dto;
     req_userAgent := dto_userAgent dto;
     req_contentType := dto_contentType dto;
     req_bodySize := dto_bodySize dto |}.

(** [requests.map(request => this.toWebhookRequestDTO(request))]: the
    first conversion that throws ends the mapping. *)
Fixpoint toWebhookRequestDTOs (next : nat) (requests : list WebhookRequest)
  : Result (list WebhookRequestDTO) :=
  match requests with
  | [] => Ok []
  | request :: rest =>
      dto ← toWebhookRequestDTO next request;
      dtos ← toWebhookRequestDTOs (next + 2) rest;
      Ok (dto :: dtos)
  end.

(** [dtos.map(dto => this.fromWebhookRequestDTO(dto))]. *)
Definition fromWebhookRequestDTOs (next : nat) (dtos : list WebhookRequestDTO)
  : list WebhookRequest :=
  imap (fun i dto => fromWebhookRequestDTO (next + 2 * i) dto) dtos.

End Conversions.

End DTOMapper.

(** ** ETL jobs API: the PATCH handler (app/api/etl/jobs route) *)

(** The JSON response of the handler: the HTTP status and the fields of
    the body. [res_data] is the pair [{ action, jobId }] of a successful
    response. *)
Record Response := {
  res_status : Z;
  res_success : bool;
  res_error : option string;
  res_message : option string;
  res_data : option (string * Js.Val);
}.

Definition failure (status : Z) (error : string) : Response :=
  {| res_status := status; res_success := false; res_error := Some error;
     res_message := None; res_data := None |}.

(** The response of the handler's [catch] block. *)
Definition controlFailed (e : Thrown) : Response :=
  {| res_status := 500; res_success := false;
     res_error := Some "Failed to control ETL job";
     res_message := Some (errorMessage e); res_data := None |}.

Definition controlled (action : string) (jobId : Js.Val) : Response :=
  {| res_status := 200; res_success := true; res_error := None;
     res_message := None; res_data := Some (action, jobId) |}.

(** [const { k } = body]: like a property read, except for the wording
    of the TypeError on [undefined] and [null]. *)
Definition destructure (body : Js.Val) (k : string) : Result Js.Val :=
  match body with
  | Js.Undefined =>
      typeError ("Cannot destructure property '" +:+ k
                 +:+ "' of 'body' as it is undefined.")
  | Js.Null =>
      typeError ("Cannot destructure property '" +:+ k
                 +:+ "' of 'body' as it is null.")
  | _ => Js.member body k
  end.

(** [jobs.get(jobId)] and [cancelJob(jobId)] for an untyped [jobId]: the
    keys of the engine's map are strings, so any other value finds
    nothing. *)
Definition getJobOf (jobId : Js.Val) (st : State) : option loc :=
  match jobId with
  | Js.Str s => getJob s st
  | _ => None
  end.

Definition cancelJobOf (now : string) (jobId : Js.Val) (st : State) : State * bool :=
  match jobId with
  | Js.Str s => cancelJob now s st
  | _ => (st, false)
  end.

Section JobsRoute.
Context `{Host}.

(** [PATCH(request)]: [json] is the settlement of [request.json()],
    [now] the clock reading. The third component is the run that
    [executeJob(job)] has started and left suspended in the background
    (or its immediate rejection, which the handler only logs). *)
Definition PATCH (now : string) (json : Result Js.Val) (st : State)
  : State * Response * option (Run + Settled) :=
  match json with
  | Throw e => (st, controlFailed e, None)
  | Ok body =>
      match destructure body "jobId" with
      | Throw e => (st, controlFailed e, None)
      | Ok jobId =>
          match destructure body "action" with
          | Throw e => (st, controlFailed e, None)
          | Ok action =>
              if negb (Js.truthy jobId) || negb (Js.truthy action) then
                (st, failure 400 "Missing required fields: jobId and action", None)
              else
                match getJobOf jobId st with
                | None => (st, failure 404 "ETL job not found", None)
                | Some job =>
                    if Js.strictEq action (Js.Str "start") then
                      if negb (bool_decide (job_status (heap st job) = pending)) then
                        (st, failure 400 "Job is not in pending status", None)
                      else
                        let '(st', started) := executeJob now job st in
                        (st', controlled "started" jobId, Some started)
                    else if Js.strictEq action (Js.Str "cancel") then
                      let '(st', cancelled') := cancelJobOf now jobId st in
                      if negb cancelled' then
                        (st', failure 400 "Job could not be cancelled", None)
                      else (st', controlled "cancelled" jobId, None)
                    else
                      (st, failure 400 ("Unknown action: " +:+ Js.toString action), None)
                end
          end
      end
  end.

End JobsRoute.

(** ** Admin dispatcher: bulk operations (lib/admin/admin-dispatcher) *)

Module AdminDispatcher.

Inductive Status := pending | running | completed | failed.

(** One entry of [results]. *)
Record BulkResult := {
  result_id : string;
  result_success : bool;
  result_error : option string;
}.

Record Progress := {
  progress_total : Z;
  progress_completed : Z;
  progress_failed : Z;
}.

(** [BulkOperationDTO]. [results] is optional in the type. *)
Record BulkOperation := {
  op_id : string;
  op_type : string;
  op_targets : list string;
  op_parameters : Js.Val;
  op_status : Status;
  op_progress : Progress;
  op_createdAt : string;
  op_completedAt : option string;
  op_results : option (list BulkResult);
}.

(** The part of the dispatcher that bulk operations use: the operation
    objects and the map [bulkOperations] that registers them. *)
Record Dispatcher := {
  operations : loc → BulkOperation;
  bulkOperations : gmap string loc;
}.

(** The storage manager as the bulk loop calls it; each call may
    reject. [getWebhookConfig] yields the configuration object or a
    falsy value. *)
Record AdminStorage := {
  deleteWebhookConfig : string → Result bool;
  deleteRequest : Js.Val → string → Result bool;
  getWebhookConfig : string → Result Js.Val;
  saveWebhookConfig : Js.Val → Result unit;
}.

Definition withStatus (s : Status) (o : BulkOperation) : BulkOperation :=
  {| op_id := op_id o; op_type := op_type o; op_targets := op_targets o;
     op_parameters := op_parameters o; op_status := s;
     op_progress := op_progress o; op_createdAt := op_createdAt o;
     op_completedAt := op_completedAt o; op_results := op_results o |}.

Definition withProgress (p : Progress) (o : BulkOperation) : BulkOperation :=
  {| op_id := op_id o; op_type := op_type o; op_targets := op_targets o;
     op_parameters := op_parameters o; op_status := op_status o;
     op_progress := p; op_createdAt := op_createdAt o;
     op_completedAt := op_completedAt o; op_results := op_results o |}.

Definition withCompletedAt (t : string) (o : BulkOperation) : BulkOperation :=
  {| op_id := op_id o; op_type := op_type o; op_targets := op_targets o;
     op_parameters := op_parameters o; op_status := op_status o;
     op_progress := op_progress o; op_createdAt := op_createdAt o;
     op_completedAt := Some t; op_results := op_results o |}.

Definition withResults (rs : list BulkResult) (o : BulkOperation) : BulkOperation :=
  {| op_id := op_id o; op_type := op_type o; op_targets := op_targets o;
     op_parameters := op_parameters o; op_status := op_status o;
     op_progress := op_progress o; op_createdAt := op_createdAt o;
     op_completedAt := op_completedAt o; op_results := Some rs |}.

(** [operation.progress.completed++] and [operation.progress.failed++]. *)
Definition countCompleted (o : BulkOperation) : BulkOperation :=
  withProgress
    {| progress_total := progress_total (op_progress o);
       progress_completed := progress_completed (op_progress o) + 1;
       progress_failed := progress_failed (op_progress o) |} o.

Definition countFailed (o : BulkOperation) : BulkOperation :=
  withProgress
    {| progress_total := progress_total (op_progress o);
       progress_completed := progress_completed (op_progress o);
       progress_failed := progress_failed (op_progress o) + 1 |} o.

(** [operation.results!.push(result)]: a TypeError when [results] is
    [undefined]. *)
Definition push (result : BulkResult) (o : BulkOperation) : Result BulkOperation :=
  match op_results o with
  | Some rs => Ok (withResults (rs ++ [result]) o)
  | None => typeError "Cannot read properties of undefined (reading 'push')"
  end.

(** The [switch] of the loop body: the value of [success] it ends with.
    [ref] is the identity of the object [updatedConfig]. *)
Definition processTarget (storageManager : AdminStorage) (ref : nat)
    (operation : BulkOperation) (targetId : string) : Result bool :=
  let type := op_type operation in
  let parameters := op_parameters operation in
  if String.eqb type "delete" then
    kind ← Js.member parameters "type";
    if Js.strictEq kind (Js.Str "webhook") then
      deleteWebhookConfig storageManager targetId
    else if Js.strictEq kind (Js.Str "request") then
      webhookId ← Js.member parameters "webhookId";
      deleteRequest storageManager webhookId targetId
    else Ok false
  else if String.eqb type "update" then
    kind ← Js.member parameters "type";
    if Js.strictEq kind (Js.Str "webhook") then
      config ← getWebhookConfig storageManager targetId;
      if Js.truthy config then
        updates ← Js.member parameters "updates";
        _ ← saveWebhookConfig storageManager
              (Js.Obj ref (Js.literal (Js.ownEntries config ++ Js.ownEntries updates)));
        Ok true
      else Ok false
    else Ok false
  else if String.eqb type "export" then Ok true
  else if String.eqb type "transform" then Ok true
  else Ok false.

(** The [try] block of the loop body. *)
Definition attempt (storageManager : AdminStorage) (ref : nat)
    (operation : BulkOperation) (targetId : string) : Result BulkOperation :=
  success ← processTarget storageManager ref operation targetId;
  operation' ← push {| result_id := targetId; result_success := success;
                       result_error := None |} operation;
  Ok (if success : bool then countCompleted operation' else countFailed operation').

(** The loop body with its [catch] block: the operation object after
    the pass for [targetId]. *)
Definition pass (storageManager : AdminStorage) (ref : nat)
    (operation : BulkOperation) (targetId : string) : Result BulkOperation :=
  match attempt storageManager ref operation targetId with
  | Ok operation' => Ok operation'
  | Throw err =>
      operation' ← push {| result_id := targetId; result_success := false;
                           result_error := Some (errorMessage err) |} operation;
      Ok (countFailed operation')
  end.

Definition update (operation : loc) (f : BulkOperation → BulkOperation)
    (d : Dispatcher) : Dispatcher :=
  {| operations := alter f operation (operations d);
     bulkOperations := bulkOperations d |}.

(** [this.bulkOperations.set(operation.id, operation)]. *)
Definition register (operation : loc) (d : Dispatcher) : Dispatcher :=
  {| operations := operations d;
     bulkOperations := <[op_id (operations d operation) := operation]> (bulkOperations d) |}.

(** The [for] loop over the targets; [storageManager k] describes how
    the storage manager answers during the [k]-th pass. *)
Fixpoint forEachTarget (storageManager : nat → AdminStorage) (next k : nat)
    (operation : loc) (targets : list string) (d : Dispatcher)
  : Dispatcher * Result unit :=
  match targets with
  | [] => (d, Ok ())
  | targetId :: rest =>
      match pass (storageManager k) (next + k) (operations d operation) targetId with
      | Ok operation' =>
          forEachTarget storageManager next (S k) operation rest
            (register operation (update operation (fun _ => operation') d))
      | Throw e => (d, Throw e)
      end
  end.

(** [executeBulkOperationAsync(operation)], run to its settlement;
    [getStorageManager] is the outcome of the awaited call, [now] the
    clock reading at the end. *)
Definition executeBulkOperationAsync (now : string)
    (getStorageManager : Result (nat → AdminStorage)) (next : nat)
    (operation : loc) (d : Dispatcher) : Dispatcher * Settled :=
  let d := register operation (update operation (withStatus running) d) in
  match getStorageManager with
  | Throw e => (d, Rejected e)
  | Ok storageManager =>
      match forEachTarget storageManager next 0 operation
              (op_targets (operations d operation)) d with
      | (d, Throw e) => (d, Rejected e)
      | (d, Ok _) =>
          (register operation
             (update operation (withCompletedAt now)
                (update operation (withStatus completed) d)), Resolved)
      end
  end.

(** [executeBulkOperation(operation)] together with the background run
    it starts, up to the settlement of that run. The argument carries
    [type], [targets] and [parameters], as the bulk endpoint passes
    them. [operationId] is the value of [generateId()], [created] the
    clock reading at the call, [operation] the place of the new
    operation object. *)
Definition executeBulkOperation (created now : string) (operationId : string)
    (operation : loc) (type : string) (targets : list string) (parameters : Js.Val)
    (getStorageManager : Result (nat → AdminStorage)) (next : nat)
    (d : Dispatcher) : Dispatcher * string :=
  let bulkOperation :=
    {| op_id := operationId; op_type := type; op_targets := targets;
       op_parameters := parameters; op_status := pending;
       op_progress := {| progress_total := Z.of_nat (length targets);
                         progress_completed := 0; progress_failed := 0 |};
       op_createdAt := created; op_completedAt := None;
       op_results := Some [] |} in
  let d := register operation (update operation (fun _ => bulkOperation) d) in
  match executeBulkOperationAsync now getStorageManager next operation d with
  | (d, Resolved) => (d, operationId)
  | (d, Rejected _) =>
      (register operation (update operation (withStatus failed) d), operationId)
  end.

Definition getBulkOperation (operationId : string) (d : Dispatcher) : option loc :=
  bulkOperations d !! operationId.

End AdminDispatcher.

(** ** A reference host

    A small host on which the definitions above can be evaluated. Its
    date parser reads the format [toISOString] produces
    ([YYYY-MM-DDTHH:mm:ss.sssZ]) and nothing else, its regular expressions
    are the patterns made of letters and digits only (which match exactly
    where they occur), and it renders dates in UTC. The theorems are
    proved for every host; this one serves the closed examples, which use
    it only where all hosts agree. *)

Definition digitValue (c : Ascii.ascii) : option Z :=
  let n := Ascii.nat_of_ascii c in
  if (48 <=? n)%nat && (n <=? 57)%nat then Some (Z.of_nat (n - 48)) else None.

Fixpoint digitsValue (cs : list Ascii.ascii) (acc : Z) : option Z :=
  match cs with
  | [] => Some acc
  | c :: rest => d ← digitValue c; digitsValue rest (10 * acc + d)
  end.

Definition isLeapYear (y : Z) : bool :=
  (Z.eqb (y mod 4) 0 && negb (Z.eqb (y mod 100) 0)) || Z.eqb (y mod 400) 0.

Definition daysInMonth (y m : Z) : Z :=
  if Z.eqb m 2 then (if isLeapYear y then 29 else 28)
  else if Z.eqb m 4 || Z.eqb m 6 || Z.eqb m 9 || Z.eqb m 11 then 30
  else 31.

(** Days between 1970-01-01 and the given civil date. *)
Definition daysFromCivil (y m d : Z) : Z :=
  let y := if Z.leb m 2 then y - 1 else y in
  let era := y / 400 in
  let yoe := y - era * 400 in
  let doy := (153 * ((m + 9) mod 12) + 2) / 5 + d - 1 in
  let doe := yoe * 365 + yoe / 4 - yoe / 100 + doy in
  era * 146097 + doe - 719468.

(** The civil date (year, month, day) of a day number. *)
Definition civilFromDays (z : Z) : Z * Z * Z :=
  let z := z + 719468 in
  let era := z / 146097 in
  let doe := z - era * 146097 in
  let yoe := (doe - doe / 1460 + doe / 36524 - doe / 146096) / 365 in
  let doy := doe - (365 * yoe + yoe / 4 - yoe / 100) in
  let mp := (5 * doy + 2) / 153 in
  let d := doy - (153 * mp + 2) / 5 + 1 in
  let m := if Z.ltb mp 10 then mp + 3 else mp - 9 in
  let y := yoe + era * 400 in
  (if Z.leb m 2 then y + 1 else y, m, d).

Definition isoDateParse (s : string) : option Z :=
  match String.list_ascii_of_string s with
  | [y1; y2; y3; y4; "-"; m1; m2; "-"; d1; d2; "T";
     h1; h2; ":"; n1; n2; ":"; s1; s2; "."; f1; f2; f3; "Z"]%char =>
      y ← digitsValue [y1; y2; y3; y4] 0;
      m ← digitsValue [m1; m2] 0;
      d ← digitsValue [d1; d2] 0;
      h ← digitsValue [h1; h2] 0;
      n ← digitsValue [n1; n2] 0;
      sec ← digitsValue [s1; s2] 0;
      ms ← digitsValue [f1; f2; f3] 0;
      if Z.leb 1 m && Z.leb m 12 && Z.leb 1 d && Z.leb d (daysInMonth y m)
         && Z.leb h 23 && Z.leb n 59 && Z.leb sec 59
      then Some ((((daysFromCivil y m d * 24 + h) * 60 + n) * 60 + sec) * 1000 + ms)
      else None
  | _ => None
  end.

Definition isLetterOrDigit (c : Ascii.ascii) : bool :=
  let n := Ascii.nat_of_ascii c in
  ((48 <=? n) && (n <=? 57) || (65 <=? n) && (n <=? 90)
   || (97 <=? n) && (n <=? 122))%nat.

Definition literalRegexTest (pattern subject : string) : option bool :=
  if forallb isLetterOrDigit (String.list_ascii_of_string pattern)
  then Some (Js.includes subject pattern)
  else None.

Definition twoDigits (n : Z) : string :=
  if Z.ltb n 10 then "0" +:+ pretty n else pretty n.

Definition fourDigits (n : Z) : string :=
  if Z.ltb n 10 then "000" +:+ pretty n
  else if Z.ltb n 100 then "00" +:+ pretty n
  else if Z.ltb n 1000 then "0" +:+ pretty n
  else pretty n.

Definition utcDateToString (time : option Z) : string :=
  match time with
  | None => "Invalid Date"
  | Some t =>
      let day := t / 86400000 in
      let inDay := t mod 86400000 in
      let '(y, m, d) := civilFromDays day in
      let weekday := nth (Z.to_nat ((day + 4) mod 7))
                       ["Sun"; "Mon"; "Tue"; "Wed"; "Thu"; "Fri"; "Sat"] EmptyString in
      let month := nth (Z.to_nat (m - 1))
                     ["Jan"; "Feb"; "Mar"; "Apr"; "May"; "Jun";
                      "Jul"; "Aug"; "Sep"; "Oct"; "Nov"; "Dec"] EmptyString in
      weekday +:+ " " +:+ month +:+ " " +:+ twoDigits d +:+ " "
      +:+ (if Z.ltb y 0 then "-" +:+ fourDigits (- y) else fourDigits y) +:+ " "
      +:+ twoDigits (inDay / 3600000) +:+ ":"
      +:+ twoDigits (inDay / 60000 mod 60) +:+ ":"
      +:+ twoDigits (inDay / 1000 mod 60)
      +:+ " GMT+0000 (Coordinated Universal Time)"
  end.

Definition threeDigits (n : Z) : string :=
  if Z.ltb n 10 then "00" +:+ pretty n
  else if Z.ltb n 100 then "0" +:+ pretty n
  else pretty n.

(** [toISOString] for the years 0 to 9999. *)
Definition utcISOString (t : Z) : string :=
  let day := t / 86400000 in
  let inDay := t mod 86400000 in
  let '(y, m, d) := civilFromDays day in
  fourDigits y +:+ "-" +:+ twoDigits m +:+ "-" +:+ twoDigits d +:+ "T"
  +:+ twoDigits (inDay / 3600000) +:+ ":"
  +:+ twoDigits (inDay / 60000 mod 60) +:+ ":"
  +:+ twoDigits (inDay / 1000 mod 60) +:+ "."
  +:+ threeDigits (inDay mod 1000) +:+ "Z".

(** ToString of a built-in function, as V8 prints it. *)
Definition nativeFunctionToString (name : string) : string :=
  "function " +:+ name +:+ "() { [native code] }".

Definition referenceHost : Host :=
  {| dateParse := isoDateParse;
     regexTest := literalRegexTest;
     dateToString := utcDateToString;
     functionToString := nativeFunctionToString |}.

(** * Specification vocabulary

    Declarative readings of the spec's wording, against which the program
    above is compared. *)

Definition substringOf (sub s : string) : Prop :=
  ∃ before after, s = before +:+ sub +:+ after.



Section FilterVocabulary.
Context `{Host}.









End FilterVocabulary.

(** Whether a callback that may throw keeps an element: it returns
    [true]. *)
Definition keeps {A} (callback : A → Result bool) (x : A) : bool :=
  match callback x with
  | Ok true => true
  | _ => false
  end.

(** The order the pipeline runs its steps in. *)
Definition byOrder (a b : ETLTransformation) : Prop := t_order a ≤ t_order b.

(** A sequence of steps applied strictly in order, in the words of the
    spec: no step gives the record set back; otherwise the first step is
    applied to the record set and the remaining steps, in order, to its
    output; a step that fails ends the run with its failure, and no
    later step is applied. [k] counts the steps applied so far and
    [next] is the first unused identity. *)
Inductive appliedInOrder `{Host} (clock : nat → nat → string)
  : nat → nat → list Item → list ETLTransformation → Result (list Item) → Prop :=
| applied_none k next data :
    appliedInOrder clock k next data [] (Ok data)
| applied_step k next data step rest output result :
    applyTransformation (clock k) next data step = Ok output →
    appliedInOrder clock (S k) (next + allocated data) output rest result →
    appliedInOrder clock k next data (step :: rest) result
| applied_failure k next data step rest e :
    applyTransformation (clock k) next data step = Throw e →
    appliedInOrder clock k next data (step :: rest) (Throw e).

(** What [===] and [Map] keys compare: the primitive itself, or the
    identity of the object. *)
Inductive Identity :=
| IUndefined
| INull
| IBool (b : bool)
| INum (n : Z)
| IStr (s : string)
| IObj (ref : nat)
| IArr (ref : nat)
| IDate (ref : nat)
| IFn (name : string)
| IObjectPrototype.

#[global] Instance Identity_eq_dec : EqDecision Identity.
Proof. solve_decision. Defined.

Definition identity (v : Js.Val) : Identity :=
  match v with
  | Js.Undefined => IUndefined
  | Js.Null => INull
  | Js.Bool b => IBool b
  | Js.Num n => INum n
  | Js.Str s => IStr s
  | Js.Obj ref _ => IObj ref
  | Js.Arr ref _ => IArr ref
  | Js.Date ref _ => IDate ref
  | Js.Fn name => IFn name
  | Js.ObjectPrototype => IObjectPrototype
  end.

(** The distinct values of a list, in order of first occurrence. *)
Fixpoint firstOccurrences (keys : list Js.Val) : list Js.Val :=
  match keys with
  | [] => []
  | k :: rest =>
      k :: List.filter (fun k' => negb (Js.sameValueZero k k')) (firstOccurrences rest)
  end.

Section AggregateVocabulary.
Context `{Host}.

(** The group keys of a record set: the values of the [groupBy] field, in
    order of first occurrence. *)
Definition groupKeys (groupBy : Js.Val) (data : list Item) : list Js.Val :=
  firstOccurrences (map (fun item => itemGet item groupBy) data).

(** The members of the group of [key], in their order in the record set. *)
Definition groupMembers (groupBy key : Js.Val) (data : list Item) : list Item :=
  List.filter (fun item => Js.sameValueZero key (itemGet item groupBy)) data.

(** The [Map] of [aggregateTransformation] as the partition of the record
    set: the group keys with their members; the array of the [i]-th group
    has identity [next + i]. *)
Definition groupsOf (groupBy : Js.Val) (next : nat) (data : list Item) : Groups :=
  imap (fun i key => (key, ((next + i)%nat, groupMembers groupBy key data)))
    (groupKeys groupBy data).

(** The summary record [{ [groupBy]: key, count, items }] of one group;
    [ref] and [itemsRef] are the identities of the record and of the
    array of members. *)
Definition summaryOf (groupBy includeItems : Js.Val) (ref itemsRef : nat)
    (key : Js.Val) (members : list Item) : Item :=
  {| item_ref := ref;
     item_props := Js.literal
       [ (Js.toString groupBy, key);
         ("count", Js.Num (Z.of_nat (length members)));
         ("items", if Js.truthy includeItems
                   then Js.Arr itemsRef (map itemVal members)
                   else Js.Undefined) ] |}.


End AggregateVocabulary.

Section LifecycleVocabulary.
Context `{Host}.

(** How the phase a run is waiting for settles in the world [w]. *)
Definition phaseSettlement (w : World) (awaiting : Pending) : Result unit :=
  match awaiting with
  | AwaitExtract filters =>
      _ ← extract (w_getStorageManager w) filters; Ok ()
  | AwaitTransform data transformations =>
      _ ← transform (w_clock w) (w_next w) (map requestItem data) transformations;
      Ok ()
  | AwaitLoad data destination =>
      snd (load (w_fetch w) (w_next w) data destination)
  end.

End LifecycleVocabulary.

(** The progress record a run starts with. *)
Definition initialProgress : ETLProgress :=
  {| totalRecords := 0; processedRecords := 0; successfulRecords := 0;
     failedRecords := 0; percentage := 0; currentPhase := "extract" |}.

(** The phase label that goes with each suspension point. *)
Definition phaseName (awaiting : Pending) : string :=
  match awaiting with
  | AwaitExtract _ => "extract"
  | AwaitTransform _ _ => "transform"
  | AwaitLoad _ _ => "load"
  end.

(** The number of resumptions a run needs at most before it settles. *)
Definition phasesLeft (awaiting : Pending) : nat :=
  match awaiting with
  | AwaitExtract _ => 3
  | AwaitTransform _ _ => 2
  | AwaitLoad _ _ => 1
  end.

(** The suspension point that follows another. *)
Definition follows (awaiting awaiting' : Pending) : Prop :=
  match awaiting, awaiting' with
  | AwaitExtract _, AwaitTransform _ _ => True
  | AwaitTransform _ _, AwaitLoad _ _ => True
  | _, _ => False
  end.

(** The job status that goes with a settlement of [executeJob]. *)
Definition settledStatus (outcome : Settled) : JobStatus :=
  match outcome with
  | Resolved => completed
  | Rejected _ => failed
  end.

(** Everything outside the job object [job] and the engine's entries for
    [jobId] is the same in [st] and [st']. *)
Definition othersUntouched (jobId : string) (job : loc) (st st' : State) : Prop :=
  (∀ other, other ≠ job → heap st' other = heap st other) ∧
  (∀ otherId, otherId ≠ jobId →
     jobs st' !! otherId = jobs st !! otherId ∧
     (otherId ∈ activeJobs st' ↔ otherId ∈ activeJobs st)).

(** The records the extract phase can see in a store: the first 1000 of
    the scoped endpoint, or the first 1000 of every endpoint. *)
Definition readable (configs : list WebhookConfig)
    (stored : string → list WebhookRequest) (filters : option ETLFilters)
  : list WebhookRequest :=
  if truthyStr (filters ≫= f_webhookId)
  then take 1000 (stored (default EmptyString (filters ≫= f_webhookId)))
  else concat (map (fun config => take 1000 (stored (cfg_id config))) configs).

(** What can happen to a started run: the phase it awaits settles and the
    run resumes, or a [cancelJob] call for its job arrives. *)
Inductive Event :=
| Resumes (w : World)
| Cancels (now : string).

Section Observations.
Context `{Host}.

Definition step (jobId : string) (event : Event) (at_ : State * (Run + Settled))
  : State * (Run + Settled) :=
  match event, at_ with
  | Resumes w, (st, inl run) => resume w run st
  | Resumes _, (_, inr _) => at_
  | Cancels now, (st, progress) => (fst (cancelJob now jobId st), progress)
  end.

(** The job record as a reader finds it at every point where the run is
    suspended or settled. *)
Fixpoint observations (jobId : string) (job : loc) (events : list Event)
    (at_ : State * (Run + Settled)) : list ETLJob :=
  heap (fst at_) job ::
  match events with
  | [] => []
  | event :: rest => observations jobId job rest (step jobId event at_)
  end.

End Observations.

Definition phaseOf (j : ETLJob) : option string := currentPhase <$> job_progress j.

Definition percentageOf (j : ETLJob) : option Z := percentage <$> job_progress j.

(** Status and phase label agree: a running job is in one of the three
    phases, and the label [completed] goes with the status [completed]. *)
Definition consistent (j : ETLJob) : Prop :=
  (job_status j = running →
     phaseOf j ∈ [Some "extract"; Some "transform"; Some "load"]) ∧
  (job_status j = completed ↔ phaseOf j = Some "completed").

(** [percentage] never decreases along the observations (and is always
    defined). *)
Definition nonDecreasing (percentages : list (option Z)) : Prop :=
  StronglySorted (fun a b => ∃ x y, a = Some x ∧ b = Some y ∧ x ≤ y) percentages.

(** What holds of a started run of the job [job], registered as [jobId],
    at each of its suspension points and once it has settled. *)
Definition runInvariant (jobId : string) (job : loc)
    (at_ : State * (Run + Settled)) : Prop :=
  let j := heap (fst at_) job in
  jobs (fst at_) !! jobId = Some job ∧
  ∃ p, job_progress j = Some p ∧
    match snd at_ with
    | inl run =>
        run_jobId run = jobId ∧ run_job run = job ∧
        currentPhase p = phaseName (run_pending run) ∧
        percentage p = 0 ∧
        (job_status j = running ∨ job_status j = cancelled)
    | inr _ =>
        (jobId ∉ activeJobs (fst at_)) ∧
        ((job_status j = completed ∧ currentPhase p = "completed" ∧
          percentage p = 100) ∨
         (job_status j = failed ∧
          currentPhase p ∈ ["extract"; "transform"; "load"] ∧
          percentage p = 0))
    end.

(** What can happen to the engine while any number of runs are in
    flight: [executeJob] is called for a job, a suspended run resumes,
    or [cancelJob] is called for an id. *)
Inductive Call :=
| ExecuteJob (now : string) (job : loc)
| Resume (w : World) (run : Run)
| CancelJob (now : string) (jobId : string).

Section Calls.
Context `{Host}.

Definition perform (call : Call) (st : State) : State :=
  match call with
  | ExecuteJob now job => fst (executeJob now job st)
  | Resume w run => fst (resume w run st)
  | CancelJob now jobId => fst (cancelJob now jobId st)
  end.

(** The engine states a sequence of calls goes through. *)
Fixpoint history (calls : list Call) (st : State) : list State :=
  st ::
  match calls with
  | [] => []
  | call :: rest => history rest (perform call st)
  end.

End Calls.

(** A running job is in one of the three phases. *)
Definition runningInPhase (j : ETLJob) : Prop :=
  job_status j = running →
  phaseOf j ∈ [Some "extract"; Some "transform"; Some "load"].

(** The part of a job record that defines the job, as opposed to the
    part that reports on its runs. *)
Definition sameDefinition (j j' : ETLJob) : Prop :=
  job_id j' = job_id j ∧ job_name j' = job_name j ∧
  job_filters j' = job_filters j ∧
  job_transformations j' = job_transformations j ∧
  job_destination j' = job_destination j ∧
  job_createdAt j' = job_createdAt j.

Section Histories.
Context `{Host}.

(** The point a started run has reached after a sequence of events. *)
Definition runEvents (jobId : string) (events : list Event)
    (at_ : State * (Run + Settled)) : State * (Run + Settled) :=
  foldl (fun at_ event => step jobId event at_) at_ events.

End Histories.

(** A property list as a real object has it: every key once. *)
Definition wellFormed (props : list (string * Js.Val)) : Prop := NoDup (map fst props).

(** The fields the validators of the DTO mapper look at, with the
    [typeof] each must have. *)
Definition requestFieldTypes : list (string * string) :=
  [ ("id", "string"); ("webhookId", "string"); ("method", "string");
    ("path", "string"); ("headers", "object"); ("body", "string");
    ("queryParams", "object"); ("timestamp", "string"); ("bodySize", "number") ].

Definition configFieldTypes : list (string * string) :=
  [ ("id", "string"); ("url", "string"); ("createdAt", "string");
    ("requestCount", "number"); ("isActive", "boolean") ].

Definition fieldsTyped (dto : Js.Val) (fields : list (string * string)) : Prop :=
  ∀ k type, (k, type) ∈ fields → ∃ v, Js.member dto k = Ok v ∧ typeOf v = type.

(** The entry of [results] that a target ends with, given how its
    processing went. *)
Definition resultOf (targetId : string) (outcome : Result bool)
  : AdminDispatcher.BulkResult :=
  match outcome with
  | Ok success =>
      {| AdminDispatcher.result_id := targetId;
         AdminDispatcher.result_success := success;
         AdminDispatcher.result_error := None |}
  | Throw err =>
      {| AdminDispatcher.result_id := targetId;
         AdminDispatcher.result_success := false;
         AdminDispatcher.result_error := Some (errorMessage err) |}
  end.

(** The number of successful entries of a list of results. *)
Definition successes (results : list AdminDispatcher.BulkResult) : Z :=
  Z.of_nat (length (List.filter AdminDispatcher.result_success results)).

Definition failures (results : list AdminDispatcher.BulkResult) : Z :=
  Z.of_nat (length (List.filter (fun r => negb (AdminDispatcher.result_success r))
                      results)).

(** * Sample data for the closed examples *)



(** A stored request with the given identity, method and capture time. *)
Definition sampleRequest (ref : nat) (method : string) (time : Z) : WebhookRequest :=
  {| req_ref := ref; req_id := "r" +:+ pretty ref; req_webhookId := "hook01";
     req_method := method; req_path := "/hook01"; req_extraPath := None;
     req_headers := {| sm_ref := ref + 1; sm_entries := [("content-type", "text/plain")] |};
     req_body := "ping";
     req_queryParams := {| sm_ref := ref + 2; sm_entries := [] |};
     req_timestamp := {| date_ref := ref + 3; date_time := Some time |};
     req_ip := Some "10.0.0.1"; req_userAgent := Some "curl/8.0";
     req_contentType := Some "text/plain"; req_bodySize := 4 |}.

(** A stored request that was captured under the endpoint with two more
    path segments. *)
Definition nestedRequest (ref : nat) (method : string) (time : Z) : WebhookRequest :=
  {| req_ref := ref; req_id := "r" +:+ pretty ref; req_webhookId := "hook01";
     req_method := method; req_path := "/hook01/orders/7";
     req_extraPath := Some {| arr_ref := ref + 4; arr_elems := ["orders"; "7"] |};
     req_headers := {| sm_ref := ref + 1; sm_entries := [("content-type", "text/plain")] |};
     req_body := "ping";
     req_queryParams := {| sm_ref := ref + 2; sm_entries := [] |};
     req_timestamp := {| date_ref := ref + 3; date_time := Some time |};
     req_ip := Some "10.0.0.1"; req_userAgent := Some "curl/8.0";
     req_contentType := Some "text/plain"; req_bodySize := 4 |}.

(** A date range whose start does not parse and whose end is 100 ms after
    the epoch. *)
Definition halfOpenRange : ETLFilters :=
  {| f_webhookId := None;
     f_dateRange := Some {| dr_start := "invalid";
                            dr_end := "1970-01-01T00:00:00.100Z" |};
     f_methods := None; f_contentTypes := None; f_ipAddresses := None;
     f_userAgents := None; f_bodyContains := None; f_headerConditions := None |}.

(** Three steps given in the order 2, 1, 3, the last one disabled. *)
Definition sampleStep (id type : string) (enabled : bool) (order : Z)
  : ETLTransformation :=
  {| t_id := id; t_type := type; t_config := Js.Obj 0 [];
     t_enabled := enabled; t_order := order |}.

Definition sampleSteps : list ETLTransformation :=
  [ sampleStep "second" "validate" true 2;
    sampleStep "first" "filter" true 1;
    sampleStep "third" "bogus" false 3 ].

(** Three steps given in the order 2, 1, 3 whose effect shows in the
    result: a [map] step that renames [method] to [verb], a [filter]
    step that keeps the GET records, and a disabled step of a type the
    pipeline does not know. *)
Definition renameMethod : ETLTransformation :=
  {| t_id := "rename"; t_type := "map";
     t_config := Js.Obj 0 [("fieldMappings", Js.Obj 0 [("method", Js.Str "verb")])];
     t_enabled := true; t_order := 2 |}.

Definition keepGetMethods : ETLTransformation :=
  {| t_id := "gets"; t_type := "filter";
     t_config := Js.Obj 0 [("field", Js.Str "method"); ("value", Js.Str "GET")];
     t_enabled := true; t_order := 1 |}.

Definition orderedSteps : list ETLTransformation :=
  [ renameMethod; keepGetMethods; sampleStep "third" "bogus" false 3 ].

(** A record with only an [id]. *)
Definition idRecord (ref : nat) (id : string) : Item :=
  {| item_ref := ref; item_props := [("id", Js.Str id)] |}.

(** A clock that advances by one millisecond from one reading to the
    next, starting at the epoch. *)
Definition tickingClock (i : nat) : string := utcISOString (Z.of_nat i).

(** The record set of the aggregation example. *)
Definition methodRecord (ref : nat) (method : string) : Item :=
  {| item_ref := ref; item_props := [("method", Js.Str method)] |}.

Definition threeRequests : list Item :=
  [methodRecord 1 "GET"; methodRecord 2 "GET"; methodRecord 3 "POST"].

Definition groupByMethod : Js.Val := Js.Obj 0 [("groupBy", Js.Str "method")].

(** A filter step asking for the records whose body is empty
    ([bodySize] 0), and two records, one with an empty body. *)
Definition sizeRecord (ref : nat) (bodySize : Z) : Item :=
  {| item_ref := ref; item_props := [("bodySize", Js.Num bodySize)] |}.



(** Destinations of a reserved and of a supported type. *)
Definition databaseDestination : ETLDestination :=
  {| d_type := "database"; d_config := Js.Obj 0 [] |}.

Definition fileDestination : ETLDestination :=
  {| d_type := "file"; d_config := Js.Obj 0 [("filename", Js.Str "out.json")] |}.

(** A pending job without filters, steps or destination, and an engine
    that knows it as ["job1"]. *)
Definition sampleJob (destination : option ETLDestination) : ETLJob :=
  {| job_id := "job1"; job_name := "nightly export"; job_status := pending;
     job_filters := None; job_transformations := None;
     job_destination := destination;
     job_createdAt := "2024-01-01T00:00:00.000Z";
     job_startedAt := None; job_completedAt := None;
     job_progress := None; job_error := None |}.

Definition sampleState (destination : option ETLDestination) : State :=
  {| heap := fun _ => sampleJob destination;
     jobs := {[ "job1" := 0%nat ]};
     activeJobs := ∅ |}.

(** A store with one endpoint holding two requests. *)
Definition sampleStorage : StorageManager :=
  storageOver [{| cfg_id := "hook01" |}]
    (fun _ => [sampleRequest 10 "POST" 1000; sampleRequest 20 "GET" 2000]).

Definition sampleWorld (now : string) : World :=
  {| w_now := now; w_clock := fun _ _ => now; w_next := 1000;
     w_getStorageManager := Ok sampleStorage;
     w_fetch := fun _ => Ok () |}.

(** A world in which the storage layer is unavailable. *)
Definition brokenWorld (now : string) : World :=
  {| w_now := now; w_clock := fun _ _ => now; w_next := 1000;
     w_getStorageManager := Throw (ThrownError "storage unavailable");
     w_fetch := fun _ => Ok () |}.

Definition sampleRun : Run :=
  {| run_jobId := "job1"; run_job := 0%nat; run_pending := AwaitExtract None |}.

(** A world whose store holds 1001 requests for its only endpoint. *)
Definition crowdedWorld (now : string) : World :=
  {| w_now := now; w_clock := fun _ _ => now; w_next := 5000;
     w_getStorageManager :=
       Ok (storageOver [{| cfg_id := "hook01" |}]
             (fun _ => replicate 1001 (sampleRequest 10 "POST" 1000)));
     w_fetch := fun _ => Ok () |}.

(** The sample engine once ["job1"] has started. *)
Definition startedState : State :=
  {| heap := fun _ =>
       withProgress initialProgress (withStatus running (sampleJob None));
     jobs := {[ "job1" := 0%nat ]};
     activeJobs := {[ "job1" ]} |}.

(** The scenario of the spec: a job that keeps POST requests, with a
    filter step on the method and a file destination, over a store of
    three POST and two GET requests. *)
Definition scenarioJob : ETLJob :=
  {| job_id := "job1"; job_name := "posts to file"; job_status := pending;
     job_filters := Some
       {| f_webhookId := None; f_dateRange := None; f_methods := Some ["POST"];
          f_contentTypes := None; f_ipAddresses := None; f_userAgents := None;
          f_bodyContains := None; f_headerConditions := None |};
     job_transformations := Some
       [ {| t_id := "t1"; t_type := "filter";
            t_config := Js.Obj 0 [("field", Js.Str "method");
                                  ("value", Js.Str "POST")];
            t_enabled := true; t_order := 1 |} ];
     job_destination := Some fileDestination;
     job_createdAt := "2024-01-01T00:00:00.000Z";
     job_startedAt := None; job_completedAt := None;
     job_progress := None; job_error := None |}.

Definition scenarioState : State :=
  {| heap := fun _ => scenarioJob;
     jobs := {[ "job1" := 0%nat ]};
     activeJobs := ∅ |}.

Definition scenarioWorld (now : string) : World :=
  {| w_now := now; w_clock := fun _ _ => now; w_next := 1000;
     w_getStorageManager :=
       Ok (storageOver [{| cfg_id := "hook01" |}]
             (fun _ => [ sampleRequest 10 "POST" 1000; sampleRequest 20 "GET" 2000;
                         sampleRequest 30 "POST" 3000; sampleRequest 40 "GET" 4000;
                         sampleRequest 50 "POST" 5000 ]));
     w_fetch := fun _ => Ok () |}.

(** A filter step that keeps the GET records, and a step of a type the
    pipeline does not know. *)
Definition keepGets : ETLTransformation :=
  {| t_id := "gets"; t_type := "filter";
     t_config := Js.Obj 0 [("field", Js.Str "method"); ("value", Js.Str "GET")];
     t_enabled := true; t_order := 1 |}.

Definition bogusStep : ETLTransformation := sampleStep "fourth" "bogus" true 4.



(** A request DTO with a credential and an ordinary header. *)
Definition credentialHeaders : list (string * Js.Val) :=
  [("authorization", Js.Str "Bearer abc"); ("accept", Js.Str "*/*")].

Definition credentialDTO : list (string * Js.Val) :=
  [("id", Js.Str "r1"); ("headers", Js.Obj 7 credentialHeaders)].

(** The body of a PATCH request that starts the sample job. *)
Definition startBody : Js.Val :=
  Js.Obj 0 [("jobId", Js.Str "job1"); ("action", Js.Str "start")].

(** A dispatcher without operations, and a storage manager whose every
    call rejects. *)
Definition emptyDispatcher : AdminDispatcher.Dispatcher :=
  {| AdminDispatcher.operations := fun _ =>
       {| AdminDispatcher.op_id := EmptyString;
          AdminDispatcher.op_type := EmptyString;
          AdminDispatcher.op_targets := [];
          AdminDispatcher.op_parameters := Js.Undefined;
          AdminDispatcher.op_status := AdminDispatcher.pending;
          AdminDispatcher.op_progress :=
            {| AdminDispatcher.progress_total := 0;
               AdminDispatcher.progress_completed := 0;
               AdminDispatcher.progress_failed := 0 |};
          AdminDispatcher.op_createdAt := EmptyString;
          AdminDispatcher.op_completedAt := None;
          AdminDispatcher.op_results := None |};
     AdminDispatcher.bulkOperations := ∅ |}.

Definition deadStorage (k : nat) : AdminDispatcher.AdminStorage :=
  {| AdminDispatcher.deleteWebhookConfig := fun _ => Throw (ThrownError "storage down");
     AdminDispatcher.deleteRequest := fun _ _ => Throw (ThrownError "storage down");
     AdminDispatcher.getWebhookConfig := fun _ => Throw (ThrownError "storage down");
     AdminDispatcher.saveWebhookConfig := fun _ => Throw (ThrownError "storage down") |}.

(** * Part II: properties *)

(** ** Strings *)

Lemma append_cons a s t : String a s +:+ t = String a (s +:+ t).
Proof. reflexivity. Qed.

Lemma startsWith_spec s p :
  Js.startsWith s p = true ↔ ∃ after, s = p +:+ after.
Proof.
  revert s. induction p as [|a p IH]; intros s.
  - split; [intros _; by exists s | by destruct s].
  - destruct s as [|b s]; simpl.
    + split; [done | intros [after Heq]; rewrite append_cons in Heq; discriminate].
    + destruct (Ascii.eqb_spec a b) as [->|Hne].
      * rewrite IH. split; intros [after Heq]; exists after;
          rewrite ?append_cons in *; congruence.
      * split; [done | intros [after Heq]; rewrite append_cons in Heq; congruence].
Qed.

Lemma includes_nil sub : Js.includes EmptyString sub = Js.startsWith EmptyString sub || false.
Proof. reflexivity. Qed.

Lemma includes_cons c s sub :
  Js.includes (String c s) sub = Js.startsWith (String c s) sub || Js.includes s sub.
Proof. reflexivity. Qed.

Lemma includes_spec s sub : Js.includes s sub = true ↔ substringOf sub s.
Proof.
  unfold substringOf. induction s as [|c s IH].
  - rewrite includes_nil, orb_false_r, startsWith_spec. split.
    + intros [after ->]. by exists EmptyString, after.
    + intros [before [after Heq]].
      destruct before; [by exists after | rewrite append_cons in Heq; discriminate].
  - rewrite includes_cons, orb_true_iff, startsWith_spec, IH. split.
    + intros [[after ->] | [before [after ->]]].
      * by exists EmptyString, after.
      * by exists (String c before), after.
    + intros [before [after Heq]]. destruct before as [|b before].
      * left. by exists after.
      * right. exists before, after. rewrite append_cons in Heq. congruence.
Qed.

Lemma includes_empty s : Js.includes s EmptyString = true.
Proof. apply includes_spec. by exists EmptyString, s. Qed.



Lemma nonEmpty_spec {A} (xs : option (list A)) :
  nonEmpty xs = true ↔ ∃ l, xs = Some l ∧ l ≠ [].
Proof.
  destruct xs as [[|x l]|]; simpl; split; try done.
  - intros [l [[= <-] Hne]]. done.
  - intros _. by exists (x :: l).
  - intros [l [? _]]. done.
Qed.

(** ** Filter evaluator: conjunction semantics *)

Section FilterSemantics.
Context `{Host}.











(** An inherited member is a function or [Object.prototype] itself. *)
Lemma inherited_cases k :
  Js.inherited k = Js.Undefined ∨ Js.inherited k = Js.ObjectPrototype ∨
  ∃ name, Js.inherited k = Js.Fn name.
Proof. unfold Js.inherited. repeat case_match; eauto. Qed.






End FilterSemantics.

(** ** [filter] with a callback that may throw *)

Lemma filterRequests_returns {A} (callback : A → Result bool) xs :
  Forall (fun x => ∃ keep, callback x = Ok keep) xs →
  filterRequests callback xs = Ok (List.filter (keeps callback) xs).
Proof.
  induction 1 as [|x xs [keep Hx] _ IH]; [done|].
  simpl. unfold keeps at 1. rewrite Hx, IH. simpl. by destruct keep.
Qed.

Lemma filterRequests_Ok {A} (callback : A → Result bool) xs kept :
  filterRequests callback xs = Ok kept →
  Forall (fun x => ∃ keep, callback x = Ok keep) xs ∧
  kept = List.filter (keeps callback) xs.
Proof.
  revert kept. induction xs as [|x xs IH]; intros kept; simpl.
  - intros [= <-]. by split.
  - unfold keeps at 1. destruct (callback x) as [keep|e] eqn:Hx; [|done]. simpl.
    destruct (filterRequests callback xs) as [rest|e]; [|done]. simpl.
    intros [= <-]. destruct (IH rest eq_refl) as [Hall ->].
    split; [constructor; eauto | by destruct keep].
Qed.

Lemma filterRequests_Throw {A} (callback : A → Result bool) xs e :
  filterRequests callback xs = Throw e ↔
  ∃ before x after, xs = before ++ x :: after ∧
    Forall (fun y => ∃ keep, callback y = Ok keep) before ∧ callback x = Throw e.
Proof.
  induction xs as [|x xs IH]; simpl.
  - split; [done | intros (before & ? & ? & Heq & _); by destruct before].
  - destruct (callback x) as [keep|e'] eqn:Hx; simpl.
    + destruct (filterRequests callback xs) as [rest|e'] eqn:Hrest; simpl.
      * split; [done|]. intros (before & y & after & Heq & Hbefore & Hy).
        destruct before as [|b before]; simplify_eq/=; [congruence|].
        assert (Ok rest = Throw e) by
          (apply IH; exists before, y, after; by inversion Hbefore).
        done.
      * split.
        -- intros [= ->]. destruct (proj1 IH eq_refl) as (before & y & after & -> & ? & ?).
           exists (x :: before), y, after. split_and!; [done| |done].
           constructor; eauto.
        -- intros (before & y & after & Heq & Hbefore & Hy).
           destruct before as [|b before]; simplify_eq/=; [congruence|].
           apply IH. exists before, y, after. by inversion Hbefore.
    + split.
      * intros [= ->]. exists [], x, xs. by split_and!.
      * intros (before & y & after & Heq & Hbefore & Hy).
        destruct before as [|b before]; simplify_eq/=; [congruence|].
        inversion Hbefore as [|? ? [keep Hb] _]. congruence.
Qed.

Lemma applyFilters_Ok `{Host} requests filters kept :
  applyFilters requests filters = Ok kept →
  kept = match filters with
         | Some filters => List.filter (keeps (keepsRequest filters)) requests
         | None => requests
         end.
Proof.
  destruct filters as [filters|]; simpl; [|by intros [= <-]].
  intros Hkept. by destruct (filterRequests_Ok _ _ _ Hkept).
Qed.




(** ** Date range *)

(** C6, as stated, fails: with a start bound that does not parse and an
    end bound that does, a record captured after the end is excluded; the
    malformed bound does not make the predicate match everything. *)
Lemma dateRange_malformed_start_still_excludes :
  @dateParse referenceHost "invalid" = None ∧
  @rejectsDateRange referenceHost halfOpenRange (sampleRequest 1 "GET" 200) = true ∧
  @applyFilters referenceHost [sampleRequest 1 "GET" 200] (Some halfOpenRange) = Ok [].
Proof. vm_compute. done. Qed.

(** C6, amended. For a FilterSpec with a date range: the guard is a total
    boolean (it never raises); a record with a valid timestamp [t] passes
    it iff [start ≤ t ≤ end] when both bounds parse; a bound that does not
    parse switches off its own side of the range only, so the other bound
    is still enforced; when neither bound parses every record passes; and
    so does a record whose own timestamp is invalid. *)
Theorem dateRange_inclusive_or_open `{Host} (filters : ETLFilters)
    (range : DateRange) (r : WebhookRequest) :
  f_dateRange filters = Some range →
  (∀ t s e, date_time (req_timestamp r) = Some t →
     dateParse (dr_start range) = Some s → dateParse (dr_end range) = Some e →
     (rejectsDateRange filters r = false ↔ s ≤ t ≤ e)) ∧
  (∀ t e, date_time (req_timestamp r) = Some t →
     dateParse (dr_start range) = None → dateParse (dr_end range) = Some e →
     (rejectsDateRange filters r = false ↔ t ≤ e)) ∧
  (∀ t s, date_time (req_timestamp r) = Some t →
     dateParse (dr_start range) = Some s → dateParse (dr_end range) = None →
     (rejectsDateRange filters r = false ↔ s ≤ t)) ∧
  (dateParse (dr_start range) = None → dateParse (dr_end range) = None →
     rejectsDateRange filters r = false) ∧
  (date_time (req_timestamp r) = None → rejectsDateRange filters r = false).
Proof.
  intros Hrange. unfold rejectsDateRange. rewrite Hrange.
  split_and!.
  - intros t s e -> -> ->. simpl. rewrite orb_false_iff, !Z.ltb_ge. done.
  - intros t e -> -> ->. simpl. by rewrite Z.ltb_ge.
  - intros t s -> -> ->. simpl. by rewrite orb_false_r, Z.ltb_ge.
  - intros -> ->. by destruct (date_time (req_timestamp r)).
  - intros ->. simpl. by destruct (dateParse (dr_end range)).
Qed.

Lemma dateRange_inclusive_or_open_witness :
  @rejectsDateRange referenceHost halfOpenRange (sampleRequest 1 "GET" 100) = false ↔
  100 ≤ 100.
Proof.
  refine (proj1 (proj2 (dateRange_inclusive_or_open (H := referenceHost)
            halfOpenRange _ (sampleRequest 1 "GET" 100) eq_refl)) 100 100 _ _ _);
    reflexivity.
Defined.

(** ** Transformation pipeline: order of the steps *)

Lemma insertByOrder_perm t sorted : insertByOrder t sorted ≡ₚ t :: sorted.
Proof.
  induction sorted as [|u rest IH]; simpl; [done|].
  destruct (Z.leb (t_order t - t_order u) 0); [done|].
  rewrite IH. apply Permutation_swap.
Qed.

Lemma sortByOrder_perm ts : sortByOrder ts ≡ₚ ts.
Proof.
  induction ts as [|t ts IH]; simpl; [done|].
  rewrite insertByOrder_perm. by constructor.
Qed.

Lemma insertByOrder_sorted t sorted :
  StronglySorted byOrder sorted → StronglySorted byOrder (insertByOrder t sorted).
Proof.
  induction 1 as [|u rest Hrest IH Hall]; simpl.
  - repeat constructor.
  - destruct (Z.leb_spec (t_order t - t_order u) 0) as [Hle|Hgt].
    + constructor; [by constructor|].
      constructor; [unfold byOrder; lia|].
      eapply Forall_impl; [exact Hall|]. unfold byOrder. intros v Hv. lia.
    + constructor; [done|].
      rewrite insertByOrder_perm. constructor; [unfold byOrder; lia | done].
Qed.

Lemma sortByOrder_sorted ts : StronglySorted byOrder (sortByOrder ts).
Proof.
  induction ts as [|t ts IH]; simpl; [constructor|].
  by apply insertByOrder_sorted.
Qed.

(** Stability: among the steps of any one [order] value, insertion keeps
    the new step in front. *)
Lemma insertByOrder_stable k t sorted :
  List.filter (fun u => Z.eqb (t_order u) k) (insertByOrder t sorted) =
  List.filter (fun u => Z.eqb (t_order u) k) (t :: sorted).
Proof.
  induction sorted as [|u rest IH]; [done|].
  simpl insertByOrder.
  destruct (Z.leb_spec (t_order t - t_order u) 0) as [Hle|Hgt]; [done|].
  change (List.filter ?f (u :: ?l))
    with (if f u then u :: List.filter f l else List.filter f l).
  rewrite IH. simpl.
  destruct (Z.eqb_spec (t_order u) k), (Z.eqb_spec (t_order t) k); try done.
  lia.
Qed.

Lemma sortByOrder_stable k ts :
  List.filter (fun u => Z.eqb (t_order u) k) (sortByOrder ts) =
  List.filter (fun u => Z.eqb (t_order u) k) ts.
Proof.
  induction ts as [|t ts IH]; [done|].
  simpl sortByOrder. rewrite insertByOrder_stable. simpl. by rewrite IH.
Qed.

Lemma filter_enabled_idemp ts :
  List.filter t_enabled (List.filter t_enabled ts) = List.filter t_enabled ts.
Proof.
  induction ts as [|t ts IH]; [done|]. simpl.
  destruct (t_enabled t) eqn:He; simpl; rewrite ?He, IH; done.
Qed.

Lemma appliedInOrder_applyAll `{Host} clock k next data steps result :
  appliedInOrder clock k next data steps result ↔
  result = applyAll clock k next data steps.
Proof.
  split.
  - induction 1 as [|? ? ? ? ? ? ? Hstep _ IH|? ? ? ? ? ? Hstep]; simpl;
      [done|by rewrite Hstep|by rewrite Hstep].
  - intros ->. revert k next data.
    induction steps as [|step rest IH]; intros k next data; simpl.
    + constructor.
    + destruct (applyTransformation (clock k) next data step) as [output|e] eqn:Hstep.
      * eapply applied_step; [done | apply IH].
      * by apply applied_failure.
Qed.

(** C3. The run of the pipeline is the run of the sequence
    [sortedTransformations] applied strictly in order: every step of
    the sequence is applied, the first one to the input and each later
    one to the output of the step before it, until a step fails; and
    nothing else is the result of that. The sequence consists of exactly
    the enabled steps, in ascending [order], steps of equal [order] in
    their original relative position. Disabled steps have no effect at
    all. Whatever three steps are given in the order 2, 1, 3 with the
    third disabled, the run is the order-1 step followed by the order-2
    step on its output. For the renaming step, the GET filter and a
    disabled step of unknown type, given in that order, the run keeps
    the two GET records and renames their field, whereas renaming first
    would leave the filter nothing to keep. *)
Theorem transform_runs_enabled_steps_in_order `{Host} (clock : nat → nat → string)
    (next : nat) (data : list Item) (transformations : list ETLTransformation) :
  (∀ result,
     appliedInOrder clock 0 next data (sortedTransformations transformations) result ↔
     result = transform clock next data (Some transformations)) ∧
  transform clock next data (Some transformations) =
    applyAll clock 0 next data (sortedTransformations transformations) ∧
  sortedTransformations transformations ≡ₚ List.filter t_enabled transformations ∧
  StronglySorted byOrder (sortedTransformations transformations) ∧
  (∀ k, List.filter (fun t => Z.eqb (t_order t) k) (sortedTransformations transformations)
        = List.filter (fun t => Z.eqb (t_order t) k)
            (List.filter t_enabled transformations)) ∧
  transform clock next data (Some transformations) =
    transform clock next data (Some (List.filter t_enabled transformations)) ∧
  (∀ first second third,
     t_enabled first = true → t_enabled second = true → t_enabled third = false →
     t_order first < t_order second →
     transform clock next data (Some [second; first; third]) =
       (output ← applyTransformation (clock 0%nat) next data first;
        applyTransformation (clock 1%nat) (next + allocated data) output second)) ∧
  map t_id (sortedTransformations sampleSteps) = ["first"; "second"] ∧
  transform clock next data (Some sampleSteps) =
    (filtered ← applyTransformation (clock 0%nat) next data
                  (sampleStep "first" "filter" true 1);
     applyTransformation (clock 1%nat) (next + allocated data) filtered
       (sampleStep "second" "validate" true 2)) ∧
  transform clock 100 threeRequests (Some orderedSteps) =
    Ok [ {| item_ref := 106; item_props := [("verb", Js.Str "GET")] |};
         {| item_ref := 107; item_props := [("verb", Js.Str "GET")] |} ] ∧
  (output ← applyTransformation (clock 0%nat) 100 threeRequests renameMethod;
   applyTransformation (clock 1%nat) 106 output keepGetMethods) = Ok [].
Proof.
  assert (transform clock next data (Some transformations) =
          applyAll clock 0 next data (sortedTransformations transformations)) as Hrun
    by (by destruct transformations).
  split_and!.
  - intros result. rewrite Hrun. apply appliedInOrder_applyAll.
  - exact Hrun.
  - apply sortByOrder_perm.
  - apply sortByOrder_sorted.
  - intros k. apply sortByOrder_stable.
  - rewrite Hrun. unfold transform, sortedTransformations.
    rewrite filter_enabled_idemp.
    by destruct (List.filter t_enabled transformations).
  - intros first second third Hfirst Hsecond Hthird Horder.
    unfold transform, sortedTransformations. simpl.
    rewrite Hfirst, Hsecond, Hthird. simpl.
    destruct (Z.leb_spec (t_order second - t_order first) 0) as [?|_]; [lia|].
    simpl.
    destruct (applyTransformation (clock 0%nat) next data first) as [output|e]; [|done].
    simpl. by destruct (applyTransformation (clock 1%nat) _ output second).
  - reflexivity.
  - unfold transform, sampleSteps.
    change (sortedTransformations _)
      with [sampleStep "first" "filter" true 1; sampleStep "second" "validate" true 2].
    simpl applyAll.
    destruct (applyTransformation (clock 0%nat) next data _) as [filtered|e]; [|done].
    simpl. by destruct (applyTransformation (clock 1%nat) _ filtered _).
  - reflexivity.
  - reflexivity.
Qed.

Lemma transform_runs_enabled_steps_in_order_witness :
  @transform referenceHost (fun _ _ => "2024-01-01T00:00:00.000Z") 100 threeRequests
    (Some orderedSteps) =
  (output ← @applyTransformation referenceHost (fun _ => "2024-01-01T00:00:00.000Z")
              100 threeRequests keepGetMethods;
   @applyTransformation referenceHost (fun _ => "2024-01-01T00:00:00.000Z")
     (100 + allocated threeRequests) output renameMethod).
Proof.
  exact (proj1 (proj2 (proj2 (proj2 (proj2 (proj2 (proj2
           (transform_runs_enabled_steps_in_order (H := referenceHost)
              (fun _ _ => "2024-01-01T00:00:00.000Z") 100 threeRequests [])))))))
           keepGetMethods renameMethod (sampleStep "third" "bogus" false 3)
           eq_refl eq_refl eq_refl eq_refl).
Defined.

(** ** Equality of values *)

Lemma strictEq_identity a b : Js.strictEq a b = true ↔ identity a = identity b.
Proof.
  destruct a, b; simpl; try (split; [discriminate | congruence]); try done.
  - destruct b, b0; simpl; split; congruence.
  - rewrite Z.eqb_eq. split; congruence.
  - rewrite String.eqb_eq. split; congruence.
  - rewrite Nat.eqb_eq. split; congruence.
  - rewrite Nat.eqb_eq. split; congruence.
  - rewrite Nat.eqb_eq. split; congruence.
  - rewrite String.eqb_eq. split; congruence.
Qed.

Lemma sameValueZero_decide a b :
  Js.sameValueZero a b = bool_decide (identity a = identity b).
Proof.
  unfold Js.sameValueZero. apply eq_true_iff_eq.
  rewrite strictEq_identity, bool_decide_eq_true. reflexivity.
Qed.

Lemma sameValueZero_true a b :
  Js.sameValueZero a b = true ↔ identity a = identity b.
Proof. apply strictEq_identity. Qed.

Lemma sameValueZero_false a b :
  Js.sameValueZero a b = false ↔ identity a ≠ identity b.
Proof. rewrite <- sameValueZero_true. by destruct (Js.sameValueZero a b). Qed.

Lemma sameValueZero_refl a : Js.sameValueZero a a = true.
Proof. by apply sameValueZero_true. Qed.

(** ** Grouping *)

Lemma existsb_same_spec x l :
  existsb (fun k => Js.sameValueZero k x) l = true ↔
  ∃ k, k ∈ l ∧ identity k = identity x.
Proof.
  rewrite existsb_exists. split; intros [k [Hin Hk]]; exists k.
  - by rewrite list_elem_of_In, <- sameValueZero_true.
  - by rewrite <- list_elem_of_In, sameValueZero_true.
Qed.

Lemma existsb_same_false x l :
  existsb (fun k => Js.sameValueZero k x) l = false ↔
  ∀ k, k ∈ l → identity k ≠ identity x.
Proof.
  rewrite <- not_true_iff_false, existsb_same_spec. split.
  - intros Hno k Hin Heq. apply Hno. by exists k.
  - intros Hall [k [Hin Heq]]. by apply (Hall k).
Qed.

Lemma elem_of_firstOccurrences_filter k k' l :
  k' ∈ List.filter (fun k' => negb (Js.sameValueZero k k')) l ↔
  k' ∈ l ∧ identity k ≠ identity k'.
Proof.
  rewrite !list_elem_of_In, filter_In, negb_true_iff, sameValueZero_false.
  reflexivity.
Qed.

Lemma firstOccurrences_subset l k : k ∈ firstOccurrences l → k ∈ l.
Proof.
  revert k. induction l as [|a l IH]; intros k; simpl; [done|].
  rewrite !elem_of_cons, elem_of_firstOccurrences_filter. naive_solver.
Qed.

Lemma firstOccurrences_covers l x :
  x ∈ l → ∃ k, k ∈ firstOccurrences l ∧ identity k = identity x.
Proof.
  induction l as [|a l IH]; simpl; [by intros ?%elem_of_nil|].
  intros [->|Hin]%elem_of_cons.
  - exists a. split; [left | done].
  - destruct (IH Hin) as [k [Hk Heq]].
    destruct (decide (identity a = identity k)) as [Ha|Ha].
    + exists a. split; [left | congruence].
    + exists k. split; [|done]. right.
      by apply elem_of_firstOccurrences_filter.
Qed.

Lemma firstOccurrences_NoDup l : NoDup (map identity (firstOccurrences l)).
Proof.
  induction l as [|a l IH]; simpl; [constructor|].
  constructor.
  - intros [k [Heq Hin]]%list_elem_of_fmap.
    apply elem_of_firstOccurrences_filter in Hin. naive_solver.
  - revert IH. generalize (firstOccurrences l). intros ks.
    induction ks as [|k ks IHks]; simpl; [done|].
    intros [Hk Hks]%NoDup_cons.
    destruct (negb (Js.sameValueZero a k)); simpl; [|by apply IHks].
    constructor; [|by apply IHks].
    intros [k' [Heq Hin]]%list_elem_of_fmap. apply Hk.
    apply list_elem_of_fmap. exists k'. split; [done|].
    apply list_elem_of_In in Hin. apply filter_In in Hin.
    apply list_elem_of_In. tauto.
Qed.

Lemma firstOccurrences_snoc l x :
  firstOccurrences (l ++ [x]) =
  if existsb (fun k => Js.sameValueZero k x) (firstOccurrences l)
  then firstOccurrences l else firstOccurrences l ++ [x].
Proof.
  induction l as [|a l IH]; [done|].
  change (firstOccurrences ((a :: l) ++ [x]))
    with (a :: List.filter (fun k' => negb (Js.sameValueZero a k'))
                 (firstOccurrences (l ++ [x]))).
  change (firstOccurrences (a :: l))
    with (a :: List.filter (fun k' => negb (Js.sameValueZero a k'))
                 (firstOccurrences l)).
  rewrite IH.
  change (existsb ?f (a :: ?ks)) with (f a || existsb f ks).
  destruct (Js.sameValueZero a x) eqn:Hax.
  - rewrite orb_true_l.
    destruct (existsb _ (firstOccurrences l)); [done|].
    rewrite List.filter_app. simpl. rewrite Hax. simpl. by rewrite app_nil_r.
  - rewrite orb_false_l.
    assert (existsb (fun k => Js.sameValueZero k x)
              (List.filter (fun k' => negb (Js.sameValueZero a k')) (firstOccurrences l))
            = existsb (fun k => Js.sameValueZero k x) (firstOccurrences l)) as ->.
    { apply eq_true_iff_eq. rewrite !existsb_same_spec.
      apply sameValueZero_false in Hax.
      split; intros [k [Hin Hk]]; exists k; (split; [|done]).
      - apply elem_of_firstOccurrences_filter in Hin. tauto.
      - apply elem_of_firstOccurrences_filter. split; [done | congruence]. }
    destruct (existsb _ (firstOccurrences l)); [done|].
    rewrite List.filter_app. simpl. by rewrite Hax.
Qed.

Section Aggregate.
Context `{Host}.

Lemma groupsHas_imap key (f : nat → Js.Val → nat * list Item) keys :
  groupsHas key (imap (fun i k => (k, f i k)) keys) =
  existsb (fun k => Js.sameValueZero k key) keys.
Proof.
  unfold groupsHas. revert f. induction keys as [|k keys IH]; intros f; [done|].
  rewrite imap_cons. simpl. f_equal. apply (IH (f ∘ S)).
Qed.

Lemma groupsPush_new key item (groups : Groups) ref items :
  existsb (fun g => Js.sameValueZero (fst g) key) groups = false →
  groupsPush key item (groups ++ [(key, (ref, items))]) =
  groups ++ [(key, (ref, items ++ [item]))].
Proof.
  induction groups as [|[k [r ms]] groups IH]; simpl.
  - by rewrite sameValueZero_refl.
  - intros [Hk Hrest]%orb_false_iff. rewrite Hk. by rewrite IH.
Qed.

Lemma groupsPush_existing key item (ref : nat → nat) (members : Js.Val → list Item) keys :
  NoDup (map identity keys) →
  groupsPush key item (imap (fun i k => (k, (ref i, members k))) keys) =
  imap (fun i k => (k, (ref i, members k ++
                          if Js.sameValueZero k key then [item] else []))) keys.
Proof.
  revert ref. induction keys as [|k keys IH]; intros ref; [done|].
  rewrite !imap_cons, fmap_cons. intros [Hk Hkeys]%NoDup_cons. simpl.
  destruct (Js.sameValueZero k key) eqn:Hsame.
  - f_equal. apply imap_ext. intros i k' Hk'. simpl.
    assert (Js.sameValueZero k' key = false) as ->; [|by rewrite app_nil_r].
    apply sameValueZero_false. intros Heq. apply Hk.
    apply sameValueZero_true in Hsame. rewrite Hsame, <- Heq.
    apply list_elem_of_fmap. exists k'. split; [done|].
    by eapply list_elem_of_lookup_2.
  - rewrite app_nil_r. f_equal. apply (IH (ref ∘ S) Hkeys).
Qed.

Lemma groupMembers_snoc groupBy key data item :
  groupMembers groupBy key (data ++ [item]) =
  groupMembers groupBy key data ++
    if Js.sameValueZero key (itemGet item groupBy) then [item] else [].
Proof. unfold groupMembers. by rewrite List.filter_app. Qed.

Lemma groupKeys_snoc groupBy data item :
  groupKeys groupBy (data ++ [item]) =
  if existsb (fun k => Js.sameValueZero k (itemGet item groupBy)) (groupKeys groupBy data)
  then groupKeys groupBy data
  else groupKeys groupBy data ++ [itemGet item groupBy].
Proof. unfold groupKeys. rewrite map_app. simpl. by rewrite firstOccurrences_snoc. Qed.

(** A key that is no group key has no members. *)
Lemma groupMembers_unknown groupBy key data :
  existsb (fun k => Js.sameValueZero k key) (groupKeys groupBy data) = false →
  groupMembers groupBy key data = [].
Proof.
  rewrite existsb_same_false. intros Hnone.
  assert (∀ item, item ∈ data →
            Js.sameValueZero key (itemGet item groupBy) = false) as Hall.
  { intros item Hin. apply sameValueZero_false. intros Heq.
    destruct (firstOccurrences_covers
                (map (fun item => itemGet item groupBy) data)
                (itemGet item groupBy)) as [k [Hk Hkeq]].
    { apply list_elem_of_fmap. by exists item. }
    apply (Hnone k Hk). congruence. }
  unfold groupMembers. clear Hnone. induction data as [|item data IH]; [done|].
  simpl. rewrite (Hall item) by left. apply IH.
  intros item' Hin. apply Hall. by right.
Qed.

Lemma foldl_addToGroups groupBy next data :
  foldl (addToGroups groupBy) ([], next) data =
  (groupsOf groupBy next data, (next + length (groupKeys groupBy data))%nat).
Proof.
  induction data as [|item data IH] using rev_ind.
  - simpl. by rewrite Nat.add_0_r.
  - rewrite foldl_snoc, IH. unfold addToGroups, groupsOf.
    rewrite groupsHas_imap, groupKeys_snoc.
    set (key := itemGet item groupBy).
    destruct (existsb (fun k => Js.sameValueZero k key) (groupKeys groupBy data))
      eqn:Hknown; simpl.
    + f_equal.
      rewrite (groupsPush_existing key item (fun i => (next + i)%nat)
                 (fun k => groupMembers groupBy k data))
        by apply firstOccurrences_NoDup.
      apply imap_ext. intros i k _. simpl. by rewrite groupMembers_snoc.
    + rewrite length_app. simpl. f_equal; [|lia].
      rewrite groupsPush_new.
      2:{ change (groupsHas key
                    (imap (fun i k => (k, ((next + i)%nat, groupMembers groupBy k data)))
                       (groupKeys groupBy data)) = false).
          by rewrite groupsHas_imap. }
      rewrite imap_app. simpl. f_equal.
      * apply imap_ext. intros i k Hk. simpl. rewrite groupMembers_snoc.
        fold key.
        assert (Js.sameValueZero k key = false) as ->; [|by rewrite app_nil_r].
        apply sameValueZero_false.
        rewrite existsb_same_false in Hknown. apply Hknown.
        by eapply list_elem_of_lookup_2.
      * rewrite groupMembers_snoc. fold key. rewrite sameValueZero_refl.
        rewrite (groupMembers_unknown _ _ _ Hknown). simpl.
        by rewrite Nat.add_0_r.
Qed.

End Aggregate.

Lemma member_defined config k v k' :
  Js.member config k = Ok v → ∃ v', Js.member config k' = Ok v'.
Proof.
  destruct config; simpl; try discriminate; intros _; eauto.
  - destruct (String.eqb k' "length"); eauto.
  - destruct (String.eqb k' "length"); eauto.
Qed.

Lemma imap_imap {A B C} (f : nat → A → B) (g : nat → B → C) (l : list A) :
  imap g (imap f l) = imap (fun i x => g i (f i x)) l.
Proof.
  revert f g. induction l as [|x l IH]; intros f g; [done|].
  rewrite !imap_cons. f_equal. apply IH.
Qed.

Section AggregateSummaries.
Context `{Host}.

Lemma summarize_groups config groupBy includeItems next (groups : Groups) :
  Js.member config "groupBy" = Ok groupBy →
  Js.member config "includeItems" = Ok includeItems →
  summarize config next groups =
  Ok (imap (fun i entry =>
              summaryOf groupBy includeItems (next + i) (fst (snd entry))
                (fst entry) (snd (snd entry))) groups).
Proof.
  intros Hg Hi. revert next.
  induction groups as [|[key [itemsRef items]] groups IH]; intros next; [done|].
  simpl summarize. unfold groupSummary. rewrite Hg, Hi. simpl.
  rewrite IH. simpl. rewrite Nat.add_0_r. do 2 f_equal.
  apply imap_ext. intros i entry _. simpl. f_equal. lia.
Qed.

Lemma summaryOf_reads groupBy includeItems ref itemsRef key members :
  let summary := item_props (summaryOf groupBy includeItems ref itemsRef key members) in
  Js.getProp "count" summary = Js.Num (Z.of_nat (length members)) ∧
  Js.getProp "items" summary =
    (if Js.truthy includeItems then Js.Arr itemsRef (map itemVal members)
     else Js.Undefined) ∧
  (Js.toString groupBy ≠ "count" → Js.toString groupBy ≠ "items" →
   Js.getProp (Js.toString groupBy) summary = key).
Proof.
  unfold summaryOf, Js.literal, Js.assignProps, Js.getProp. simpl.
  generalize (Js.toString groupBy). intros name.
  destruct (String.eqb_spec name "count") as [->|Hc]; simpl.
  - split_and!; done.
  - destruct (String.eqb_spec name "items") as [->|Hi]; simpl.
    + split_and!; done.
    + destruct (String.eqb_spec name "count"); [done|].
      destruct (String.eqb_spec name "items"); [done|]. simpl.
      rewrite String.eqb_refl. done.
Qed.

End AggregateSummaries.



(** ** Filter step *)







(** ** Destination loader *)

(** C5. Without a destination, [load] issues no outbound call and
    succeeds. With a destination whose type is none of [webhook], [file],
    [email], [api] (the reserved [database] among them) it issues no call
    and throws the error "Unsupported destination type: <type>", whatever
    the records and whatever the network does. *)
Theorem load_no_destination_or_unsupported (fetch : FetchCall → Result unit)
    (next : nat) (data : list Item) :
  load fetch next data None = ([], Ok ()) ∧
  (∀ destination,
     d_type destination ∉ ["webhook"; "file"; "email"; "api"] →
     load fetch next data (Some destination) =
       ([], Throw (ThrownError
                     ("Unsupported destination type: " +:+ d_type destination)))) ∧
  load fetch next data (Some databaseDestination) =
    ([], Throw (ThrownError "Unsupported destination type: database")).
Proof.
  split_and!; [done| |done].
  intros destination Hother. unfold load.
  repeat match goal with
  | |- context [String.eqb ?a ?b] =>
      destruct (String.eqb_spec a b) as [Heq|?];
        [exfalso; apply Hother; rewrite Heq; set_solver|]
  end.
  done.
Qed.

Lemma load_no_destination_or_unsupported_witness :
  load (fun _ => Ok ()) 0 [sizeRecord 1 0] (Some databaseDestination) =
    ([], Throw (ThrownError "Unsupported destination type: database")).
Proof.
  apply (proj1 (proj2 (load_no_destination_or_unsupported
                         (fun _ => Ok ()) 0 [sizeRecord 1 0])) databaseDestination).
  simpl. intros Hin.
  repeat (apply elem_of_cons in Hin as [Heq|Hin]; [discriminate Heq|]).
  by apply elem_of_nil in Hin.
Defined.

(** ** Engine state *)

Lemma heap_update_same job f st : heap (update job f st) job = f (heap st job).
Proof. unfold update. simpl. apply fn_lookup_alter. Qed.

Lemma heap_update_other job f st other :
  other ≠ job → heap (update job f st) other = heap st other.
Proof. intros Hne. unfold update. simpl. by apply fn_lookup_alter_ne. Qed.

Lemma othersUntouched_refl jobId job st : othersUntouched jobId job st st.
Proof. split; intros; done. Qed.

Lemma othersUntouched_trans jobId job st1 st2 st3 :
  othersUntouched jobId job st1 st2 → othersUntouched jobId job st2 st3 →
  othersUntouched jobId job st1 st3.
Proof.
  intros [Hh1 Hj1] [Hh2 Hj2]. split.
  - intros other Hne. by rewrite Hh2, Hh1.
  - intros otherId Hne.
    destruct (Hj1 otherId Hne) as [Hjobs1 Hact1].
    destruct (Hj2 otherId Hne) as [Hjobs2 Hact2].
    split; [congruence | tauto].
Qed.

Lemma othersUntouched_update jobId job f st :
  othersUntouched jobId job st (update job f st).
Proof. split; [intros; by apply heap_update_other | done]. Qed.

Lemma othersUntouched_jobsSet jobId job st :
  othersUntouched jobId job st (jobsSet jobId job st).
Proof.
  split; [done|]. intros otherId Hne. simpl. by rewrite lookup_insert_ne.
Qed.

Lemma othersUntouched_activeDelete jobId job st :
  othersUntouched jobId job st (activeDelete jobId st).
Proof. split; [done|]. intros otherId Hne. simpl. set_solver. Qed.

Lemma othersUntouched_activeAdd jobId job st :
  othersUntouched jobId job st (activeAdd jobId st).
Proof. split; [done|]. intros otherId Hne. simpl. set_solver. Qed.

Lemma othersUntouched_catchBlock now jobId job e st :
  othersUntouched jobId job st (catchBlock now job e st).
Proof.
  unfold catchBlock.
  repeat (eapply othersUntouched_trans; [|apply othersUntouched_update]).
  apply othersUntouched_refl.
Qed.

Lemma othersUntouched_finallyBlock jobId job st :
  othersUntouched jobId job st (finallyBlock jobId job st).
Proof.
  unfold finallyBlock.
  eapply othersUntouched_trans;
    [apply othersUntouched_activeDelete | apply othersUntouched_jobsSet].
Qed.

(** What the [catch] and [finally] blocks leave behind. *)
Lemma failure_recorded now jobId job e st st' :
  st' = finallyBlock jobId job (catchBlock now job e st) →
  job_status (heap st' job) = failed ∧
  job_error (heap st' job) = Some (errorMessage e) ∧
  job_completedAt (heap st' job) = Some now ∧
  job_progress (heap st' job) = job_progress (heap st job) ∧
  (jobId ∉ activeJobs st') ∧
  jobs st' !! jobId = Some job ∧
  othersUntouched jobId job st st'.
Proof.
  intros ->.
  assert (heap (finallyBlock jobId job (catchBlock now job e st)) job =
          withCompletedAt now (withError (errorMessage e)
            (withStatus failed (heap st job)))) as Hjob.
  { unfold finallyBlock, catchBlock, jobsSet, activeDelete. cbn [heap].
    by rewrite !heap_update_same. }
  rewrite Hjob. split_and!; try done.
  - unfold finallyBlock, jobsSet, activeDelete. cbn [activeJobs]. set_solver.
  - unfold finallyBlock, jobsSet. cbn [jobs]. by rewrite lookup_insert_eq.
  - eapply othersUntouched_trans;
      [apply othersUntouched_catchBlock | apply othersUntouched_finallyBlock].
Qed.

Lemma heap_jobsSet jobId job st : heap (jobsSet jobId job st) = heap st.
Proof. reflexivity. Qed.

Lemma heap_activeAdd jobId st : heap (activeAdd jobId st) = heap st.
Proof. reflexivity. Qed.

Lemma heap_activeDelete jobId st : heap (activeDelete jobId st) = heap st.
Proof. reflexivity. Qed.

Lemma jobs_update job f st : jobs (update job f st) = jobs st.
Proof. reflexivity. Qed.

Lemma activeJobs_update job f st : activeJobs (update job f st) = activeJobs st.
Proof. reflexivity. Qed.

Create Rewrite HintDb engine.
#[local] Hint Rewrite heap_update_same heap_jobsSet heap_activeAdd heap_activeDelete
  jobs_update activeJobs_update : engine.

(** ** One resumption of a run *)

Section Resume.
Context `{Host}.

Ltac unfold_eff :=
  unfold resume, guarded, continue, settle, modify, reads, writeProgress,
    mbind, mret, Eff_bind, Eff_ret;
  cbn [run_pending run_job run_jobId].

(** A phase that rejects sends the run through [catch] and [finally]. *)
Lemma resume_phase_rejects w run st e :
  phaseSettlement w (run_pending run) = Throw e →
  resume w run st =
    (finallyBlock (run_jobId run) (run_job run)
       (catchBlock (w_now w) (run_job run) e st),
     inr (Rejected e)).
Proof.
  destruct run as [jobId job awaiting]. simpl.
  destruct awaiting as [filters | data ts | data destination]; simpl; intros Hphase.
  - unfold_eff.
    destruct (extract (w_getStorageManager w) filters) as [extracted|e'];
      simpl in *; [done|]. by inversion Hphase.
  - unfold_eff.
    destruct (transform (w_clock w) (w_next w) (map requestItem data) ts)
      as [transformed|e']; simpl in *; [done|]. by inversion Hphase.
  - unfold_eff. rewrite Hphase. done.
Qed.


Lemma writeProgress_defined job field f st p :
  job_progress (heap st job) = Some p →
  writeProgress job field f st = (update job (withProgress (f p)) st, Ok ()).
Proof. intros Hp. unfold writeProgress. by rewrite Hp. Qed.

Lemma writeProgress_undefined job field f st :
  job_progress (heap st job) = None →
  ∃ msg, writeProgress job field f st = (st, Throw (ThrownError msg)).
Proof. intros Hp. unfold writeProgress. rewrite Hp. by eexists. Qed.

Lemma progress_after_write job p st :
  job_progress (heap (update job (withProgress p) st) job) = Some p.
Proof. by rewrite heap_update_same. Qed.

(** The body of the [try] block between two suspension points, when the
    awaited phase fulfils and [job.progress] is defined. *)
Lemma continue_after_extract w job filters st extractedData p :
  extract (w_getStorageManager w) filters = Ok extractedData →
  job_progress (heap st job) = Some p →
  continue w job (AwaitExtract filters) st =
    (update job
       (withProgress (setCurrentPhase "transform"
          (setTotalRecords (Z.of_nat (length extractedData)) p))) 
       (update job
          (withProgress (setTotalRecords (Z.of_nat (length extractedData)) p)) st),
     Ok (Some (AwaitTransform extractedData (job_transformations (heap st job))))).
Proof.
  intros Hphase Hp.
  unfold continue, settle, reads, mbind, mret, Eff_bind, Eff_ret. rewrite Hphase.
  rewrite (writeProgress_defined _ _ _ _ _ Hp).
  rewrite (writeProgress_defined _ _ _ _ _ (progress_after_write _ _ _)).
  by rewrite !heap_update_same.
Qed.

Lemma continue_after_transform w job data transformations st transformedData p :
  transform (w_clock w) (w_next w) (map requestItem data) transformations
    = Ok transformedData →
  job_progress (heap st job) = Some p →
  continue w job (AwaitTransform data transformations) st =
    (update job
       (withProgress (setCurrentPhase "load"
          (setProcessedRecords (Z.of_nat (length transformedData)) p)))
       (update job
          (withProgress (setProcessedRecords (Z.of_nat (length transformedData)) p))
          st),
     Ok (Some (AwaitLoad transformedData (job_destination (heap st job))))).
Proof.
  intros Hphase Hp.
  unfold continue, settle, reads, mbind, mret, Eff_bind, Eff_ret. rewrite Hphase.
  rewrite (writeProgress_defined _ _ _ _ _ Hp).
  rewrite (writeProgress_defined _ _ _ _ _ (progress_after_write _ _ _)).
  by rewrite !heap_update_same.
Qed.

Lemma continue_after_load w job data destination st p :
  snd (load (w_fetch w) (w_next w) data destination) = Ok () →
  job_progress (heap st job) = Some p →
  ∃ st',
    continue w job (AwaitLoad data destination) st = (st', Ok None) ∧
    heap st' job =
      withProgress
        (setCurrentPhase "completed"
           (setPercentage 100
              (setSuccessfulRecords (Z.of_nat (length data)) p)))
        (withCompletedAt (w_now w) (withStatus completed (heap st job))) ∧
    jobs st' = jobs st ∧ activeJobs st' = activeJobs st ∧
    (∀ other, other ≠ job → heap st' other = heap st other).
Proof.
  intros Hphase Hp.
  unfold continue, settle, reads, modify, mbind, mret, Eff_bind, Eff_ret.
  rewrite Hphase.
  rewrite (writeProgress_defined _ _ _ _ _ Hp).
  rewrite (writeProgress_defined _ _ _ _ _ (progress_after_write _ _ _)).
  erewrite writeProgress_defined by (by rewrite !heap_update_same).
  eexists. split; [reflexivity|].
  split_and!; try done.
  - by rewrite !heap_update_same.
  - intros other Hne. by rewrite !heap_update_other.
Qed.


(** Every way the body of the [try] block can go from a suspension
    point: it throws before changing anything, it reaches the next
    suspension point having only advanced the progress record, or (from
    the load phase) it runs to the end and marks the job completed. *)
Lemma continue_cases w job awaiting st :
  (∃ e, continue w job awaiting st = (st, Throw e)) ∨
  (∃ st' awaiting' p p',
     continue w job awaiting st = (st', Ok (Some awaiting')) ∧
     follows awaiting awaiting' ∧
     job_progress (heap st job) = Some p ∧
     heap st' job = withProgress p' (heap st job) ∧
     percentage p' = percentage p ∧
     currentPhase p' = phaseName awaiting' ∧
     jobs st' = jobs st ∧ activeJobs st' = activeJobs st ∧
     (∀ other, other ≠ job → heap st' other = heap st other)) ∨
  (∃ st' p p',
     continue w job awaiting st = (st', Ok None) ∧
     job_progress (heap st job) = Some p ∧
     heap st' job =
       withProgress p' (withCompletedAt (w_now w) (withStatus completed (heap st job))) ∧
     percentage p' = 100 ∧
     currentPhase p' = "completed" ∧
     jobs st' = jobs st ∧ activeJobs st' = activeJobs st ∧
     (∀ other, other ≠ job → heap st' other = heap st other)).
Proof.
  destruct (job_progress (heap st job)) as [p|] eqn:Hp.
  - destruct awaiting as [filters | data ts | data destination].
    + destruct (extract (w_getStorageManager w) filters) as [extracted|e] eqn:Hphase.
      * right. left. rewrite (continue_after_extract _ _ _ _ _ _ Hphase Hp).
        eexists _, _, p, (setCurrentPhase "transform"
                            (setTotalRecords (Z.of_nat (length extracted)) p)).
        split; [reflexivity|].
        split_and!; try done;
          [by rewrite !heap_update_same
          |intros other Hne; by rewrite !heap_update_other].
      * left. exists e.
        unfold continue, settle, mbind, Eff_bind. by rewrite Hphase.
    + destruct (transform (w_clock w) (w_next w) (map requestItem data) ts)
        as [transformed|e] eqn:Hphase.
      * right. left. rewrite (continue_after_transform _ _ _ _ _ _ _ Hphase Hp).
        eexists _, _, p, (setCurrentPhase "load"
                            (setProcessedRecords (Z.of_nat (length transformed)) p)).
        split; [reflexivity|].
        split_and!; try done;
          [by rewrite !heap_update_same
          |intros other Hne; by rewrite !heap_update_other].
      * left. exists e.
        unfold continue, settle, mbind, Eff_bind. by rewrite Hphase.
    + destruct (snd (load (w_fetch w) (w_next w) data destination))
        as [[]|e] eqn:Hphase.
      * right. right.
        destruct (continue_after_load _ job _ _ st _ Hphase Hp)
          as [st' [Hrun [Hjob [Hjobs [Hactive Hothers]]]]].
        exists st', p, (setCurrentPhase "completed"
                          (setPercentage 100
                             (setSuccessfulRecords (Z.of_nat (length data)) p))).
        split_and!; done.
      * left. exists e.
        unfold continue, settle, mbind, Eff_bind. by rewrite Hphase.
  - left.
    destruct awaiting as [filters | data ts | data destination];
      unfold continue, settle, mbind, Eff_bind.
    + destruct (extract (w_getStorageManager w) filters); [|by eexists].
      destruct (writeProgress_undefined job "totalRecords"
                  (setTotalRecords (Z.of_nat (length a))) st Hp) as [msg ->].
      by eexists.
    + destruct (transform (w_clock w) (w_next w) (map requestItem data) ts);
        [|by eexists].
      destruct (writeProgress_undefined job "processedRecords"
                  (setProcessedRecords (Z.of_nat (length a))) st Hp) as [msg ->].
      by eexists.
    + destruct (snd (load (w_fetch w) (w_next w) data destination)); [|by eexists].
      destruct (writeProgress_undefined job "successfulRecords"
                  (setSuccessfulRecords (Z.of_nat (length data))) st Hp) as [msg ->].
      by eexists.
Qed.


(** A resumption that suspends again has advanced the phase and touched
    nothing but the progress record of its job. *)
Lemma resume_suspends w run st st' run' :
  resume w run st = (st', inl run') →
  run_jobId run' = run_jobId run ∧ run_job run' = run_job run ∧
  follows (run_pending run) (run_pending run') ∧
  ∃ p p',
    job_progress (heap st (run_job run)) = Some p ∧
    heap st' (run_job run) = withProgress p' (heap st (run_job run)) ∧
    percentage p' = percentage p ∧
    currentPhase p' = phaseName (run_pending run') ∧
    jobs st' = jobs st ∧ activeJobs st' = activeJobs st ∧
    (∀ other, other ≠ run_job run → heap st' other = heap st other).
Proof.
  unfold resume, guarded.
  destruct (continue_cases w (run_job run) (run_pending run) st)
    as [[e Hrun] | [(st1 & awaiting' & p & p' & Hrun & Hrest) | (st1 & p & p' & Hrun & _)]];
    rewrite Hrun; [done| |done].
  intros [= <- <-]. simpl. split_and!; try done; [tauto|].
  exists p, p'. tauto.
Qed.

(** A resumption that settles the run has written the terminal status
    and a fresh [completedAt], and released the job. *)
Lemma resume_settles w run st st' outcome :
  resume w run st = (st', inr outcome) →
  job_status (heap st' (run_job run)) = settledStatus outcome ∧
  job_completedAt (heap st' (run_job run)) = Some (w_now w) ∧
  (run_jobId run ∉ activeJobs st') ∧
  jobs st' !! run_jobId run = Some (run_job run) ∧
  othersUntouched (run_jobId run) (run_job run) st st' ∧
  match outcome with
  | Resolved =>
      ∃ p p', job_progress (heap st (run_job run)) = Some p ∧
              job_progress (heap st' (run_job run)) = Some p' ∧
              percentage p' = 100 ∧ currentPhase p' = "completed"
  | Rejected e =>
      job_progress (heap st' (run_job run)) = job_progress (heap st (run_job run)) ∧
      job_error (heap st' (run_job run)) = Some (errorMessage e)
  end.
Proof.
  unfold resume, guarded.
  destruct (continue_cases w (run_job run) (run_pending run) st)
    as [[e Hrun] | [(st1 & awaiting' & p & p' & Hrun & _)
                   | (st1 & p & p' & Hrun & Hp & Hjob & Hpct & Hphase & Hjobs & Hactive & Hothers)]];
    rewrite Hrun; [|done|].
  - intros [= <- <-].
    destruct (failure_recorded (w_now w) (run_jobId run) (run_job run) e st _ eq_refl)
      as (? & ? & ? & ? & ? & ? & ?).
    done.
  - intros [= <- <-]. unfold finallyBlock, jobsSet, activeDelete.
    cbn [heap jobs activeJobs settledStatus]. rewrite Hjob.
    split_and!; try done.
    + set_solver.
    + by rewrite lookup_insert_eq.
    + split; [done|]. intros otherId Hne. cbn [jobs activeJobs].
      rewrite lookup_insert_ne, Hjobs, Hactive by done. set_solver.
    + by exists p, p'.
Qed.


(** The start of a run: the guard against a second concurrent run, then
    the reset of the job record. *)
Lemma executeJob_already_running now job st :
  job_id (heap st job) ∈ activeJobs st →
  executeJob now job st =
    (st, inr (Rejected (ThrownError
                ("Job " +:+ job_id (heap st job) +:+ " is already running")))).
Proof. intros Hactive. unfold executeJob. by rewrite decide_True. Qed.

Lemma executeJob_starts now job st :
  job_id (heap st job) ∉ activeJobs st →
  ∃ st',
    executeJob now job st =
      (st', inl {| run_jobId := job_id (heap st job); run_job := job;
                   run_pending := AwaitExtract (job_filters (heap st job)) |}) ∧
    heap st' job =
      withProgress initialProgress
        (withStartedAt now (withStatus running (heap st job))) ∧
    jobs st' = <[job_id (heap st job) := job]> (jobs st) ∧
    activeJobs st' = {[job_id (heap st job)]} ∪ activeJobs st ∧
    (∀ other, other ≠ job → heap st' other = heap st other).
Proof.
  intros Hidle. unfold executeJob. rewrite decide_False by done.
  unfold guarded, modify, reads, mbind, mret, Eff_bind, Eff_ret.
  erewrite writeProgress_defined by (autorewrite with engine; reflexivity).
  eexists. split.
  - do 3 f_equal. by autorewrite with engine.
  - split_and!.
    + by autorewrite with engine.
    + done.
    + done.
    + intros other Hne. rewrite heap_update_other, heap_jobsSet by done.
      by rewrite !heap_update_other.
Qed.


Lemma othersUntouched_suspended w run st st' run' :
  resume w run st = (st', inl run') →
  othersUntouched (run_jobId run) (run_job run) st st'.
Proof.
  intros (_ & _ & _ & p & p' & _ & _ & _ & _ & Hjobs & Hactive & Hothers)%resume_suspends.
  split; [done|]. intros otherId _. by rewrite Hjobs, Hactive.
Qed.

Lemma follows_phasesLeft awaiting awaiting' :
  follows awaiting awaiting' → phasesLeft awaiting = S (phasesLeft awaiting').
Proof. by destruct awaiting, awaiting'. Qed.

(** ** Runs driven to their end *)

(** A run that settles does so in one of the given worlds, from a state
    that differs from the initial one in its own job only. *)
Lemma resumeAll_settled worlds run st st' outcome :
  resumeAll worlds (st, inl run) = (st', inr outcome) →
  ∃ w run0 st0,
    w ∈ worlds ∧
    resume w run0 st0 = (st', inr outcome) ∧
    run_jobId run0 = run_jobId run ∧ run_job run0 = run_job run ∧
    othersUntouched (run_jobId run) (run_job run) st st0 ∧
    job_status (heap st0 (run_job run)) = job_status (heap st (run_job run)).
Proof.
  revert run st. induction worlds as [|w worlds IH]; intros run st; [done|].
  simpl. destruct (resume w run st) as [st1 [run1|outcome1]] eqn:Hstep.
  - intros Hrest.
    destruct (resume_suspends _ _ _ _ _ Hstep)
      as (HjobId & Hjob & _ & p & p' & _ & Hheap & _).
    destruct (IH run1 st1 Hrest)
      as (w0 & run0 & st0 & Hw0 & Hsettle & HjobId0 & Hjob0 & Hothers0 & Hstatus0).
    exists w0, run0, st0. rewrite HjobId, Hjob in *.
    split_and!; try done; try congruence.
    + by right.
    + eapply othersUntouched_trans; [|exact Hothers0].
      by eapply othersUntouched_suspended.
    + rewrite Hstatus0, Hheap. done.
  - assert (resumeAll worlds (st1, inr outcome1) = (st1, inr outcome1)) as ->
      by (by destruct worlds).
    intros [= <- <-]. exists w, run, st.
    split_and!; [by left | done | done | done | apply othersUntouched_refl | done].
Qed.

(** Every run settles: within as many resumptions as it has phases left. *)
Lemma resumeAll_settles worlds run st :
  (phasesLeft (run_pending run) ≤ length worlds)%nat →
  ∃ st' outcome, resumeAll worlds (st, inl run) = (st', inr outcome).
Proof.
  revert run st. induction worlds as [|w worlds IH]; intros run st Hlen.
  { destruct (run_pending run); simpl in Hlen; lia. }
  simpl. destruct (resume w run st) as [st1 [run1|outcome1]] eqn:Hstep.
  - apply IH.
    destruct (resume_suspends _ _ _ _ _ Hstep) as (_ & _ & Hfollows & _).
    apply follows_phasesLeft in Hfollows. simpl in Hlen. lia.
  - exists st1, outcome1. by destruct worlds.
Qed.

End Resume.

(** ** Failure of a phase *)

(** C2. When the phase a run of [executeJob] is waiting for (extract,
    transform or load) raises an error, the run sets the job's status to
    [failed], records the error message on the job, stamps [completedAt],
    removes the job id from the active-job set (and leaves the job
    registered under its id), and rejects with the very same error; the
    objects of other jobs, the engine's entries for other job ids and
    their active flags are left as they were. *)
Theorem executeJob_phase_error `{Host} (w : World) (run : Run) (st : State)
    (e : Thrown) :
  phaseSettlement w (run_pending run) = Throw e →
  ∃ st',
    resume w run st = (st', inr (Rejected e)) ∧
    job_status (heap st' (run_job run)) = failed ∧
    job_error (heap st' (run_job run)) = Some (errorMessage e) ∧
    job_completedAt (heap st' (run_job run)) = Some (w_now w) ∧
    (run_jobId run ∉ activeJobs st') ∧
    jobs st' !! run_jobId run = Some (run_job run) ∧
    othersUntouched (run_jobId run) (run_job run) st st'.
Proof.
  intros Hphase. eexists. split; [by apply resume_phase_rejects|].
  destruct (failure_recorded (w_now w) (run_jobId run) (run_job run) e st _ eq_refl)
    as (? & ? & ? & ? & ? & ? & ?).
  done.
Qed.

Lemma executeJob_phase_error_witness :
  ∃ st',
    @resume referenceHost (brokenWorld "2024-01-02T00:00:00.000Z") sampleRun
      (sampleState None)
      = (st', inr (Rejected (ThrownError "storage unavailable"))) ∧
    job_status (heap st' 0%nat) = failed ∧
    job_error (heap st' 0%nat) = Some "storage unavailable" ∧
    job_completedAt (heap st' 0%nat) = Some "2024-01-02T00:00:00.000Z" ∧
    ("job1" ∉ activeJobs st') ∧
    jobs st' !! "job1" = Some 0%nat ∧
    othersUntouched "job1" 0%nat (sampleState None) st'.
Proof.
  apply (executeJob_phase_error (H := referenceHost)
           (brokenWorld "2024-01-02T00:00:00.000Z") sampleRun (sampleState None)
           (ThrownError "storage unavailable")).
  reflexivity.
Defined.

(** The same for a whole run that nothing interferes with: however it
    comes to be rejected, the job is left failed with the message of the
    error it is rejected with, inactive, and nothing else has changed. *)
Corollary executeJobToEnd_rejected `{Host} now w1 w2 w3 job st st' e :
  job_id (heap st job) ∉ activeJobs st →
  executeJobToEnd now w1 w2 w3 job st = (st', inr (Rejected e)) →
  job_status (heap st' job) = failed ∧
  job_error (heap st' job) = Some (errorMessage e) ∧
  (∃ w, w ∈ [w1; w2; w3] ∧ job_completedAt (heap st' job) = Some (w_now w)) ∧
  (job_id (heap st job) ∉ activeJobs st') ∧
  othersUntouched (job_id (heap st job)) job st st'.
Proof.
  intros Hidle. unfold executeJobToEnd.
  destruct (executeJob_starts now job st Hidle)
    as (st0 & -> & Hjob0 & Hjobs0 & Hactive0 & Hothers0).
  intros (w & run1 & st1 & Hw & Hsettle & HjobId & Hjob & Hothers & _)%resumeAll_settled.
  simpl in HjobId, Hjob, Hothers.
  destruct (resume_settles _ _ _ _ _ Hsettle)
    as (Hstatus & Hat & Hactive & _ & Hothers' & _ & Herror).
  rewrite HjobId, Hjob in *.
  split_and!; try done.
  - by exists w.
  - eapply othersUntouched_trans; [|eapply othersUntouched_trans; [exact Hothers|exact Hothers']].
    split; [done|]. intros otherId Hne.
    rewrite Hjobs0, Hactive0, lookup_insert_ne by done. set_solver.
Qed.

(** ** Cancellation *)

Lemma cancelJob_active now jobId job st :
  jobs st !! jobId = Some job →
  jobId ∈ activeJobs st →
  ∃ st',
    cancelJob now jobId st = (st', true) ∧
    heap st' job = withCompletedAt now (withStatus cancelled (heap st job)) ∧
    jobs st' !! jobId = Some job ∧
    (jobId ∉ activeJobs st') ∧
    othersUntouched jobId job st st'.
Proof.
  intros Hjob Hactive. unfold cancelJob. rewrite Hjob, decide_True by done.
  eexists. split; [reflexivity|]. split_and!.
  - by autorewrite with engine.
  - cbn [jobsSet jobs]. by rewrite lookup_insert_eq.
  - cbn [jobsSet activeDelete activeJobs]. set_solver.
  - eapply othersUntouched_trans; [|apply othersUntouched_jobsSet].
    eapply othersUntouched_trans; [|apply othersUntouched_activeDelete].
    eapply othersUntouched_trans; apply othersUntouched_update.
Qed.

Lemma cancelJob_inactive now jobId st :
  jobId ∉ activeJobs st → cancelJob now jobId st = (st, false).
Proof.
  intros Hidle. unfold cancelJob.
  destruct (jobs st !! jobId); [|done]. by rewrite decide_False.
Qed.

(** C9. [cancelled] is not a terminal status. If [cancelJob(jobId)]
    succeeds while the run of that job is suspended, the job reads
    [cancelled] with the cancellation time; the run nevertheless resumes
    when its phase settles, runs to its end, and there overwrites the
    status with [completed] (when it resolves) or [failed] (when it
    rejects) and [completedAt] with the time of that moment, so that
    neither the status [cancelled] nor its timestamp survive. *)
Theorem cancelled_run_overwrites_status `{Host} (now : string) (run : Run)
    (st : State) (worlds : list World) :
  jobs st !! run_jobId run = Some (run_job run) →
  run_jobId run ∈ activeJobs st →
  (phasesLeft (run_pending run) ≤ length worlds)%nat →
  ∃ st1 st2 outcome w,
    cancelJob now (run_jobId run) st = (st1, true) ∧
    job_status (heap st1 (run_job run)) = cancelled ∧
    job_completedAt (heap st1 (run_job run)) = Some now ∧
    resumeAll worlds (st1, inl run) = (st2, inr outcome) ∧
    w ∈ worlds ∧
    job_status (heap st2 (run_job run)) = settledStatus outcome ∧
    job_status (heap st2 (run_job run)) ≠ cancelled ∧
    job_completedAt (heap st2 (run_job run)) = Some (w_now w) ∧
    jobs st2 !! run_jobId run = Some (run_job run).
Proof.
  intros Hjob Hactive Hlen.
  destruct (cancelJob_active now _ _ _ Hjob Hactive)
    as (st1 & Hcancel & Hheap1 & _).
  destruct (resumeAll_settles worlds run st1 Hlen) as (st2 & outcome & Hrun).
  destruct (resumeAll_settled _ _ _ _ _ Hrun)
    as (w & run0 & st0 & Hw & Hsettle & HjobId & Hjob0 & _).
  destruct (resume_settles _ _ _ _ _ Hsettle) as (Hstatus & Hat & _ & Hjobs & _).
  rewrite HjobId, Hjob0 in *.
  exists st1, st2, outcome, w. rewrite Hheap1.
  split_and!; try done.
  rewrite Hstatus. by destruct outcome.
Qed.

Lemma cancelled_run_overwrites_status_witness :
  ∃ st1 st2 outcome w,
    cancelJob "2024-01-02T00:00:00.000Z" "job1"
      (activeAdd "job1" (sampleState None)) = (st1, true) ∧
    job_status (heap st1 0%nat) = cancelled ∧
    job_completedAt (heap st1 0%nat) = Some "2024-01-02T00:00:00.000Z" ∧
    @resumeAll referenceHost
      [sampleWorld "2024-01-03T00:00:00.000Z";
       sampleWorld "2024-01-03T00:00:01.000Z";
       sampleWorld "2024-01-03T00:00:02.000Z"] (st1, inl sampleRun)
      = (st2, inr outcome) ∧
    w ∈ [sampleWorld "2024-01-03T00:00:00.000Z";
         sampleWorld "2024-01-03T00:00:01.000Z";
         sampleWorld "2024-01-03T00:00:02.000Z"] ∧
    job_status (heap st2 0%nat) = settledStatus outcome ∧
    job_status (heap st2 0%nat) ≠ cancelled ∧
    job_completedAt (heap st2 0%nat) = Some (w_now w) ∧
    jobs st2 !! "job1" = Some 0%nat.
Proof.
  apply (cancelled_run_overwrites_status (H := referenceHost)
           "2024-01-02T00:00:00.000Z" sampleRun
           (activeAdd "job1" (sampleState None))).
  - reflexivity.
  - cbn [activeAdd activeJobs]. apply elem_of_union_l, elem_of_singleton. reflexivity.
  - simpl. lia.
Defined.

(** ** Extract phase: the read limit *)

Section ExtractLimit.
Context `{Host}.

Lemma extractAll_storageOver configs stored cs acc :
  extractAll (storageOver configs stored) cs acc =
  Ok (acc ++ concat (map (fun config => take 1000 (stored (cfg_id config))) cs)).
Proof.
  revert acc. induction cs as [|c cs IH]; intros acc; simpl.
  - by rewrite app_nil_r.
  - rewrite IH. by rewrite <- app_assoc.
Qed.

Lemma extract_storageOver configs stored filters :
  extract (Ok (storageOver configs stored)) filters =
  applyFilters (readable configs stored filters) filters.
Proof.
  unfold extract, readable. simpl.
  destruct (truthyStr (filters ≫= f_webhookId)); simpl; [done|].
  by rewrite extractAll_storageOver.
Qed.

(** [extract] asks the storage layer for nothing but the configurations
    and reads with limit 1000. *)
Lemma extractAll_limit sm sm' cs acc :
  (∀ webhookId, getRequests sm webhookId 1000 = getRequests sm' webhookId 1000) →
  extractAll sm cs acc = extractAll sm' cs acc.
Proof.
  intros Hsame. revert acc. induction cs as [|c cs IH]; intros acc; simpl; [done|].
  rewrite Hsame. destruct (getRequests sm' (cfg_id c) 1000); simpl; [apply IH | done].
Qed.

Lemma extract_limit sm sm' filters :
  (∀ webhookId, getRequests sm webhookId 1000 = getRequests sm' webhookId 1000) →
  getAllWebhookConfigs sm = getAllWebhookConfigs sm' →
  extract (Ok sm) filters = extract (Ok sm') filters.
Proof.
  intros Hsame Hconfigs. unfold extract. simpl.
  destruct (truthyStr (filters ≫= f_webhookId)).
  - by rewrite Hsame.
  - rewrite Hconfigs. destruct (getAllWebhookConfigs sm'); simpl; [|done].
    by rewrite (extractAll_limit sm sm').
Qed.

Lemma readable_length configs stored filters :
  (length (readable configs stored filters) ≤ 1000 * max 1 (length configs))%nat.
Proof.
  unfold readable. destruct (truthyStr (filters ≫= f_webhookId)).
  - rewrite length_take. lia.
  - transitivity (1000 * length configs)%nat; [|lia].
    induction configs as [|c configs IH]; simpl; [lia|].
    rewrite length_app, length_take. lia.
Qed.

Lemma readable_within_limit configs stored filters r :
  r ∈ readable configs stored filters →
  ∃ endpoint, r ∈ take 1000 (stored endpoint).
Proof.
  unfold readable. destruct (truthyStr (filters ≫= f_webhookId)).
  - intros Hin. by eexists.
  - induction configs as [|c configs IH]; simpl.
    + by intros ?%elem_of_nil.
    + intros [Hin|Hin]%elem_of_app; [by exists (cfg_id c) | by apply IH].
Qed.

End ExtractLimit.

(** A storage manager honours the limit over the store [stored] when a
    read returns the first [limit] records stored for the endpoint. *)
Lemma extract_over_store `{Host} sm configs stored filters :
  getAllWebhookConfigs sm = Ok configs →
  (∀ webhookId limit,
     getRequests sm webhookId limit = Ok (take limit (stored webhookId))) →
  extract (Ok sm) filters =
  applyFilters (readable configs stored filters) filters.
Proof.
  intros Hconfigs Hreads.
  rewrite <- (extract_storageOver configs stored filters).
  apply extract_limit; [|done]. intros webhookId. by rewrite Hreads.
Qed.

(** C10. The extract phase reads at most 1000 stored records per
    endpoint: its result depends on the storage layer only through the
    list of endpoints and reads with limit 1000 (for the scoped endpoint,
    or for each endpoint when unscoped). So over a storage layer that
    returns the first [limit] records of an endpoint, the phase sees the
    first 1000 records of each endpoint it reads and nothing beyond them,
    filters those, and, when the filter evaluation returns,
    [progress.totalRecords] is the number of records that remain; when
    it throws, so does the phase. *)
Theorem extract_reads_first_1000_per_endpoint `{Host} (w : World)
    (jobId : string) (job : loc) (filters : option ETLFilters) (st : State)
    (p : ETLProgress) (sm : StorageManager) (configs : list WebhookConfig)
    (stored : string → list WebhookRequest) :
  w_getStorageManager w = Ok sm →
  getAllWebhookConfigs sm = Ok configs →
  (∀ webhookId limit,
     getRequests sm webhookId limit = Ok (take limit (stored webhookId))) →
  job_progress (heap st job) = Some p →
  (∀ extracted,
     applyFilters (readable configs stored filters) filters = Ok extracted →
     (∃ st' transformations,
        resume w {| run_jobId := jobId; run_job := job;
                    run_pending := AwaitExtract filters |} st =
          (st', inl {| run_jobId := jobId; run_job := job;
                       run_pending := AwaitTransform extracted transformations |}) ∧
        totalRecords <$> job_progress (heap st' job) =
          Some (Z.of_nat (length extracted))) ∧
     (length extracted ≤ length (readable configs stored filters))%nat) ∧
  extract (w_getStorageManager w) filters =
    applyFilters (readable configs stored filters) filters ∧
  (length (readable configs stored filters) ≤ 1000 * max 1 (length configs))%nat ∧
  (∀ r, r ∈ readable configs stored filters →
        ∃ endpoint, r ∈ take 1000 (stored endpoint)) ∧
  (∀ sm',
     (∀ webhookId, getRequests sm webhookId 1000 = getRequests sm' webhookId 1000) →
     getAllWebhookConfigs sm = getAllWebhookConfigs sm' →
     extract (Ok sm) filters = extract (Ok sm') filters).
Proof.
  intros Hstorage Hconfigs Hreads Hp. split_and!.
  - intros extracted Hextracted. split.
    + unfold resume, guarded. cbn [run_job run_jobId run_pending].
      erewrite continue_after_extract;
        [|rewrite Hstorage, <- Hextracted; by apply extract_over_store|exact Hp].
      do 2 eexists. split; [reflexivity|].
      by rewrite !heap_update_same.
    + apply applyFilters_Ok in Hextracted as ->.
      destruct filters as [filters|]; [|done]. apply List.filter_length_le.
  - rewrite Hstorage. by apply extract_over_store.
  - apply readable_length.
  - apply readable_within_limit.
  - intros sm'. apply extract_limit.
Qed.

Lemma extract_reads_first_1000_per_endpoint_witness :
  ∃ st' transformations,
    @resume referenceHost (crowdedWorld "2024-01-02T00:00:00.000Z") sampleRun
      startedState =
      (st', inl {| run_jobId := "job1"; run_job := 0%nat;
                   run_pending :=
                     AwaitTransform
                       (replicate 1000 (sampleRequest 10 "POST" 1000))
                       transformations |}) ∧
    totalRecords <$> job_progress (heap st' 0%nat) = Some 1000.
Proof.
  exact (proj1 (proj1 (extract_reads_first_1000_per_endpoint (H := referenceHost)
           (crowdedWorld "2024-01-02T00:00:00.000Z") "job1" 0%nat None startedState
           initialProgress
           (storageOver [{| cfg_id := "hook01" |}]
              (fun _ => replicate 1001 (sampleRequest 10 "POST" 1000)))
           [{| cfg_id := "hook01" |}]
           (fun _ => replicate 1001 (sampleRequest 10 "POST" 1000))
           eq_refl eq_refl (fun _ _ => eq_refl) eq_refl)
           (replicate 1000 (sampleRequest 10 "POST" 1000)) eq_refl)).
Defined.

(** ** Status, phase and percentage along a run *)

Section RunInvariant.
Context `{Host}.

Lemma phaseName_cases awaiting :
  phaseName awaiting ∈ ["extract"; "transform"; "load"].
Proof. destruct awaiting; simpl; repeat constructor. Qed.

Lemma runInvariant_start now job st :
  job_id (heap st job) ∉ activeJobs st →
  runInvariant (job_id (heap st job)) job (executeJob now job st).
Proof.
  intros Hidle.
  destruct (executeJob_starts now job st Hidle)
    as (st0 & -> & Hjob0 & Hjobs0 & _).
  unfold runInvariant. cbn [fst snd]. rewrite Hjob0, Hjobs0.
  split; [by rewrite lookup_insert_eq|].
  exists initialProgress. simpl. split_and!; try done. by left.
Qed.

Lemma runInvariant_consistent jobId job at_ :
  runInvariant jobId job at_ →
  consistent (heap (fst at_) job) ∧
  ∃ x, percentageOf (heap (fst at_) job) = Some x ∧ (x = 0 ∨ x = 100) ∧
       (x = 100 → ∃ outcome, snd at_ = inr outcome).
Proof.
  destruct at_ as [st progress]. unfold runInvariant, consistent, phaseOf, percentageOf.
  cbn [fst snd]. intros (_ & p & -> & Hrest). simpl.
  destruct progress as [run|outcome].
  - destruct Hrest as (_ & _ & Hphase & Hpct & Hstatus). rewrite Hphase, Hpct.
    split_and!.
    + intros _. destruct (run_pending run); simpl; repeat constructor.
    + split.
      * intros Hcompleted. destruct Hstatus; congruence.
      * intros [= Hlabel]. by destruct (run_pending run).
    + exists 0. split_and!; [done | by left | done].
  - destruct Hrest as (_ & [(Hstatus & Hphase & Hpct) | (Hstatus & Hphase & Hpct)]);
      rewrite Hstatus, Hpct.
    + rewrite Hphase. split_and!; try done.
      exists 100. split_and!; [done | by right | by eexists].
    + split_and!; try done.
      * split; [done|]. intros [= Hlabel]. rewrite Hlabel in Hphase.
        repeat (apply elem_of_cons in Hphase as [Hphase|Hphase]; [discriminate|]).
        by apply elem_of_nil in Hphase.
      * exists 0. split_and!; [done | by left | done].
Qed.

Lemma runInvariant_step jobId job event at_ :
  runInvariant jobId job at_ → runInvariant jobId job (step jobId event at_).
Proof.
  destruct at_ as [st progress]. unfold runInvariant at 1. cbn [fst snd].
  intros (Hjobs & p & Hp & Hrest).
  destruct event as [w|now]; destruct progress as [run|outcome]; cbn [step].
  - (* the run resumes *)
    destruct Hrest as (<- & <- & Hphase & Hpct & Hstatus).
    destruct (resume w run st) as [st' [run'|outcome]] eqn:Hstep.
    + destruct (resume_suspends _ _ _ _ _ Hstep)
        as (HjobId & Hjob & _ & p0 & p' & Hp0 & Hheap & Hpct' & Hphase' & Hjobs' & _).
      unfold runInvariant. cbn [fst snd]. rewrite Hheap, Hjobs'.
      split; [done|]. exists p'. simpl.
      split_and!; try done. congruence.
    + destruct (resume_settles _ _ _ _ _ Hstep)
        as (Hstatus' & _ & Hactive & Hjobs' & _ & Hprogress).
      unfold runInvariant. cbn [fst snd]. split; [done|].
      destruct outcome as [|e]; simpl in Hstatus'.
      * destruct Hprogress as (p0 & p' & _ & Hp' & Hpct' & Hphase').
        exists p'. split_and!; try done. by left.
      * destruct Hprogress as (Hp' & _). exists p. rewrite Hp', Hp.
        split_and!; try done. right. rewrite Hphase.
        split_and!; [done | apply phaseName_cases | done].
  - (* resuming a settled run does nothing *)
    unfold runInvariant. cbn [fst snd]. split; [done|]. by exists p.
  - (* cancellation of the suspended run *)
    destruct Hrest as (<- & <- & Hphase & Hpct & Hstatus).
    destruct (decide (run_jobId run ∈ activeJobs st)) as [Hactive|Hidle].
    + destruct (cancelJob_active now _ _ _ Hjobs Hactive)
        as (st' & -> & Hheap & Hjobs' & _).
      unfold runInvariant. cbn [fst snd]. rewrite Hheap. split; [done|].
      exists p. simpl. split_and!; try done. by right.
    + rewrite (cancelJob_inactive _ _ _ Hidle).
      unfold runInvariant. cbn [fst snd]. split; [done|]. by exists p.
  - (* cancellation after the run has settled *)
    destruct Hrest as (Hidle & Hrest).
    rewrite (cancelJob_inactive _ _ _ Hidle).
    unfold runInvariant. cbn [fst snd]. split; [done|]. by exists p.
Qed.

(** A settled run stays as it is. *)
Lemma step_settled jobId event st outcome :
  jobId ∉ activeJobs st →
  step jobId event (st, inr outcome) = (st, inr outcome).
Proof.
  intros Hidle. destruct event as [w|now]; cbn [step]; [done|].
  by rewrite (cancelJob_inactive _ _ _ Hidle).
Qed.


Lemma percentage_step jobId job event at_ :
  runInvariant jobId job at_ →
  ∃ x y, percentageOf (heap (fst at_) job) = Some x ∧
         percentageOf (heap (fst (step jobId event at_)) job) = Some y ∧ x ≤ y.
Proof.
  intros Hinv.
  destruct (runInvariant_consistent _ _ _ Hinv) as (_ & x & Hx & Hcases & Hsettled).
  destruct (runInvariant_consistent _ _ _ (runInvariant_step _ _ event _ Hinv))
    as (_ & y & Hy & Hcases' & _).
  destruct Hcases as [-> | ->].
  - exists 0, y. split_and!; [done | done | lia].
  - destruct (Hsettled eq_refl) as [outcome Houtcome].
    destruct at_ as [st progress]. simpl in Houtcome. subst progress.
    destruct Hinv as (_ & p & _ & Hidle & _). cbn [fst snd] in Hidle.
    rewrite (step_settled _ _ _ _ Hidle). cbn [fst] in *.
    exists 100, 100. split_and!; [done | done | lia].
Qed.

Lemma observations_invariant jobId job events at_ :
  runInvariant jobId job at_ →
  Forall consistent (observations jobId job events at_) ∧
  nonDecreasing (map percentageOf (observations jobId job events at_)) ∧
  ∃ x, percentageOf (heap (fst at_) job) = Some x ∧
       Forall (fun j => ∃ y, percentageOf j = Some y ∧ x ≤ y)
         (observations jobId job events at_).
Proof.
  revert at_. induction events as [|event events IH]; intros at_ Hinv.
  - destruct (runInvariant_consistent _ _ _ Hinv) as (Hcons & x & Hx & _).
    simpl. split_and!.
    + by constructor.
    + repeat constructor.
    + exists x. split; [done|]. constructor; [|done]. exists x. split; [done | lia].
  - destruct (runInvariant_consistent _ _ _ Hinv) as (Hcons & _).
    destruct (percentage_step _ _ event _ Hinv) as (x & y & Hx & Hy & Hxy).
    destruct (IH _ (runInvariant_step _ _ event _ Hinv))
      as (Hall & Hsorted & y' & Hy' & Hbound).
    assert (y' = y) as -> by congruence.
    assert (Forall (fun j => ∃ z, percentageOf j = Some z ∧ x ≤ z)
              (observations jobId job events (step jobId event at_))) as Hbound'.
    { eapply Forall_impl; [exact Hbound|]. intros j (z & Hz & Hle).
      exists z. split; [done | lia]. }
    cbn [observations]. split_and!.
    + by constructor.
    + rewrite fmap_cons. constructor; [done|].
      apply Forall_fmap. eapply Forall_impl; [exact Hbound'|].
      intros j (z & Hz & Hle). exists x, z. done.
    + exists x. split; [done|]. constructor; [|done].
      exists x. split; [done | lia].
Qed.

End RunInvariant.

(** ** Runs that overlap *)

Section Overlap.
Context `{Host}.

Lemma phaseName_some awaiting :
  Some (phaseName awaiting) ∈ [Some "extract"; Some "transform"; Some "load"].
Proof. destruct awaiting; simpl; repeat constructor. Qed.

Lemma runningInPhase_perform job call st :
  runningInPhase (heap st job) → runningInPhase (heap (perform call st) job).
Proof.
  intros Hinv. destruct call as [now job'|w run|now jobId]; cbn [perform].
  - destruct (decide (job_id (heap st job') ∈ activeJobs st)) as [Hactive|Hidle].
    { unfold executeJob. by rewrite decide_True. }
    destruct (executeJob_starts now job' st Hidle) as (st' & -> & Hjob & _ & _ & Hothers).
    cbn [fst]. destruct (decide (job = job')) as [->|Hne].
    + rewrite Hjob. intros _. unfold phaseOf. simpl. repeat constructor.
    + by rewrite Hothers.
  - destruct (resume w run st) as [st' [run'|outcome]] eqn:Hresume; cbn [fst].
    + destruct (resume_suspends _ _ _ _ _ Hresume)
        as (_ & _ & _ & p & p' & _ & Hheap & _ & Hphase & _ & _ & Hothers).
      destruct (decide (job = run_job run)) as [->|Hne].
      * rewrite Hheap. intros _. unfold phaseOf. simpl. rewrite Hphase.
        apply phaseName_some.
      * by rewrite Hothers.
    + destruct (resume_settles _ _ _ _ _ Hresume) as (Hstatus & _ & _ & _ & [Hothers _] & _).
      destruct (decide (job = run_job run)) as [->|Hne].
      * intros Hrunning. rewrite Hstatus in Hrunning. by destruct outcome.
      * by rewrite Hothers.
  - destruct (jobs st !! jobId) as [job'|] eqn:Hjob.
    2:{ unfold cancelJob. by rewrite Hjob. }
    destruct (decide (jobId ∈ activeJobs st)) as [Hactive|Hidle].
    + destruct (cancelJob_active now _ _ _ Hjob Hactive)
        as (st' & -> & Hheap & _ & _ & [Hothers _]).
      cbn [fst]. destruct (decide (job = job')) as [->|Hne].
      * rewrite Hheap. by intros.
      * by rewrite Hothers.
    + by rewrite (cancelJob_inactive _ _ _ Hidle).
Qed.

Lemma runningInPhase_history job calls st :
  runningInPhase (heap st job) →
  Forall (fun st' => runningInPhase (heap st' job)) (history calls st).
Proof.
  revert st. induction calls as [|call calls IH]; intros st Hinv; simpl.
  - constructor; [done | constructor].
  - constructor; [done|]. by apply IH, runningInPhase_perform.
Qed.

End Overlap.

(** C8, as stated, fails when two runs of a job overlap. [executeJob]
    refuses a job whose id is active, and [cancelJob] makes the id
    inactive while the run goes on. So after a cancel a second
    [executeJob] for the job is accepted; when the first run completes
    and the second resumes, the job reads [completed] with the phase
    label [transform], and is not reported as running although a run is
    in flight. The first run's [finally] has freed the id, so that a
    third [executeJob] is accepted as well, and it resets the
    percentage from 100 to 0 while the second run is still
    executing. *)
Lemma second_run_after_cancel_breaks_consistency :
  let w := sampleWorld "2024-01-03T00:00:00.000Z" in
  let first := executeJob "2024-01-02T00:00:00.000Z" 0%nat (sampleState None) in
  let stopped := cancelJob "2024-01-02T00:00:01.000Z" "job1" (fst first) in
  let second := executeJob "2024-01-02T00:00:02.000Z" 0%nat (fst stopped) in
  let firstDone := @resumeAll referenceHost [w; w; w] (fst second, snd first) in
  let resumed := @step referenceHost "job1" (Resumes w) (fst firstDone, snd second) in
  let third := executeJob "2024-01-04T00:00:00.000Z" 0%nat (fst resumed) in
  snd stopped = true ∧
  (∃ run, snd second = inl run) ∧
  snd firstDone = inr Resolved ∧
  (∃ run, snd resumed = inl run) ∧
  job_status (heap (fst resumed) 0%nat) = completed ∧
  phaseOf (heap (fst resumed) 0%nat) = Some "transform" ∧
  ¬ consistent (heap (fst resumed) 0%nat) ∧
  isJobRunning "job1" (fst resumed) = false ∧
  percentageOf (heap (fst resumed) 0%nat) = Some 100 ∧
  (∃ run, snd third = inl run) ∧
  percentageOf (heap (fst third) 0%nat) = Some 0.
Proof.
  intros w first stopped second firstDone resumed third.
  assert (job_status (heap (fst resumed) 0%nat) = completed) as Hstatus by by vm_compute.
  assert (phaseOf (heap (fst resumed) 0%nat) = Some "transform") as Hphase by by vm_compute.
  split_and!; try done; try by vm_compute; eexists.
  intros [_ [Hlabel _]]. specialize (Hlabel Hstatus). congruence.
Qed.

(** C8, amended. Within one execution of a job during which
    [executeJob] is not called for the job again, at every point where
    the run is suspended or has settled, also when [cancelJob] calls for
    the job arrive in between, the job's status and
    [progress.currentPhase] are consistent: a [running] job is in one of
    the phases extract, transform, load, and the phase label [completed]
    goes with the status [completed] and with no other; and
    [progress.percentage] never decreases from one such point to a later
    one. Of this, only the part on [running] survives overlapping runs:
    whatever calls of [executeJob] and [cancelJob] and whatever
    resumptions of runs follow a start, in whatever order, a job that
    reads [running] is in one of the three phases. *)
Theorem status_phase_percentage_invariant `{Host} (now : string) (job : loc)
    (st : State) (events : list Event) :
  job_id (heap st job) ∉ activeJobs st →
  Forall consistent
    (observations (job_id (heap st job)) job events (executeJob now job st)) ∧
  nonDecreasing
    (map percentageOf
       (observations (job_id (heap st job)) job events (executeJob now job st))) ∧
  ∀ calls,
    Forall (fun st' => runningInPhase (heap st' job))
      (history calls (fst (executeJob now job st))).
Proof.
  intros Hidle.
  destruct (observations_invariant (job_id (heap st job)) job events
              (executeJob now job st) (runInvariant_start now job st Hidle))
    as (Hcons & Hsorted & _).
  split_and!; [done..|].
  intros calls. apply runningInPhase_history.
  destruct (executeJob_starts now job st Hidle) as (st' & -> & Hjob & _).
  cbn [fst]. rewrite Hjob. intros _. unfold phaseOf. simpl. repeat constructor.
Qed.

Lemma status_phase_percentage_invariant_witness :
  Forall consistent
    (@observations referenceHost "job1" 0%nat
       [Resumes (sampleWorld "2024-01-03T00:00:00.000Z");
        Cancels "2024-01-03T00:00:00.500Z";
        Resumes (sampleWorld "2024-01-03T00:00:01.000Z");
        Resumes (sampleWorld "2024-01-03T00:00:02.000Z")]
       (executeJob "2024-01-02T00:00:00.000Z" 0%nat (sampleState None))) ∧
  nonDecreasing
    (map percentageOf
       (@observations referenceHost "job1" 0%nat
          [Resumes (sampleWorld "2024-01-03T00:00:00.000Z");
           Cancels "2024-01-03T00:00:00.500Z";
           Resumes (sampleWorld "2024-01-03T00:00:01.000Z");
           Resumes (sampleWorld "2024-01-03T00:00:02.000Z")]
          (executeJob "2024-01-02T00:00:00.000Z" 0%nat (sampleState None)))) ∧
  ∀ calls,
    Forall (fun st' => runningInPhase (heap st' 0%nat))
      (@history referenceHost calls
         (fst (executeJob "2024-01-02T00:00:00.000Z" 0%nat (sampleState None)))).
Proof.
  apply (status_phase_percentage_invariant (H := referenceHost)
           "2024-01-02T00:00:00.000Z" 0%nat (sampleState None)).
  apply not_elem_of_empty.
Defined.


(** ** A complete run *)

(** The scenario of the spec, evaluated: extract yields 3 records,
    transform keeps 3, load succeeds, and the job ends [completed] with
    progress 3 / 3 / 3 at 100 percent. *)
Example scenario_posts_to_file :
  snd (@executeJobToEnd referenceHost "2024-01-02T00:00:00.000Z"
         (scenarioWorld "2024-01-02T00:00:01.000Z")
         (scenarioWorld "2024-01-02T00:00:02.000Z")
         (scenarioWorld "2024-01-02T00:00:03.000Z") 0%nat scenarioState)
    = inr Resolved ∧
  let job := heap (fst (@executeJobToEnd referenceHost "2024-01-02T00:00:00.000Z"
                          (scenarioWorld "2024-01-02T00:00:01.000Z")
                          (scenarioWorld "2024-01-02T00:00:02.000Z")
                          (scenarioWorld "2024-01-02T00:00:03.000Z") 0%nat
                          scenarioState)) 0%nat in
  job_status job = completed ∧
  job_completedAt job = Some "2024-01-02T00:00:03.000Z" ∧
  job_progress job =
    Some {| totalRecords := 3; processedRecords := 3; successfulRecords := 3;
            failedRecords := 0; percentage := 100; currentPhase := "completed" |}.
Proof. vm_compute. done. Qed.

(** * Part III: further properties of the engine *)

(** ** Starting, settling and restarting a job *)

Section Restart.
Context `{Host}.

Lemma resumeAll_done worlds st outcome :
  resumeAll worlds (st, inr outcome) = (st, inr outcome).
Proof. by destruct worlds. Qed.

Lemma resumeAll_suspended worlds run st st' run' :
  resumeAll worlds (st, inl run) = (st', inl run') →
  run_jobId run' = run_jobId run ∧ run_job run' = run_job run ∧
  jobs st' = jobs st ∧ activeJobs st' = activeJobs st ∧
  job_id (heap st' (run_job run)) = job_id (heap st (run_job run)).
Proof.
  revert run st. induction worlds as [|w worlds IH]; intros run st; simpl.
  - by intros [= <- <-].
  - destruct (resume w run st) as [st1 [run1|outcome]] eqn:Hresume.
    + destruct (resume_suspends _ _ _ _ _ Hresume)
        as (HjobId & Hjob & _ & p & p' & _ & Hheap & _ & _ & Hjobs & Hactive & _).
      intros (E1 & E2 & E3 & E4 & E5)%IH.
      rewrite E1, E2, E3, E4, HjobId, Hjobs, Hactive. split_and!; try done.
      rewrite Hjob in E5. by rewrite E5, Hheap.
    + by rewrite resumeAll_done.
Qed.

Lemma sameDefinition_refl j : sameDefinition j j.
Proof. by repeat split. Qed.

Lemma sameDefinition_trans j1 j2 j3 :
  sameDefinition j1 j2 → sameDefinition j2 j3 → sameDefinition j1 j3.
Proof.
  intros (?&?&?&?&?&?) (?&?&?&?&?&?). repeat split; congruence.
Qed.

Lemma sameDefinition_catchBlock now job e st :
  sameDefinition (heap st job) (heap (catchBlock now job e st) job).
Proof. unfold catchBlock. rewrite !heap_update_same. by repeat split. Qed.

(** One resumption changes nothing outside the job object of the run,
    and nothing of what defines the job. *)
Lemma resume_footprint w run st :
  othersUntouched (run_jobId run) (run_job run) st (fst (resume w run st)) ∧
  sameDefinition (heap st (run_job run)) (heap (fst (resume w run st)) (run_job run)).
Proof.
  destruct (resume w run st) as [st' [run'|outcome]] eqn:Hresume; simpl.
  - split; [by eapply othersUntouched_suspended|].
    destruct (resume_suspends _ _ _ _ _ Hresume)
      as (_ & _ & _ & p & p' & _ & -> & _).
    by repeat split.
  - split; [by destruct (resume_settles _ _ _ _ _ Hresume) as (_&_&_&_&?&_)|].
    revert Hresume. unfold resume, guarded.
    destruct (continue_cases w (run_job run) (run_pending run) st)
      as [(e & ->)|[(st1 & awaiting' & p & p' & -> & _)|
                    (st1 & p & p' & -> & _ & Hheap & _)]]; [|done|].
    + intros [= <- _]. unfold finallyBlock.
      rewrite heap_jobsSet, heap_activeDelete. apply sameDefinition_catchBlock.
    + intros [= <- _]. unfold finallyBlock.
      rewrite heap_jobsSet, heap_activeDelete, Hheap. by repeat split.
Qed.

Lemma cancelJob_footprint now jobId job st :
  jobs st !! jobId = Some job →
  othersUntouched jobId job st (fst (cancelJob now jobId st)) ∧
  sameDefinition (heap st job) (heap (fst (cancelJob now jobId st)) job).
Proof.
  intros Hjob. destruct (decide (jobId ∈ activeJobs st)) as [Hactive|Hidle].
  - destruct (cancelJob_active now _ _ _ Hjob Hactive)
      as (st' & Hcancel & Hheap & _ & _ & ?).
    rewrite Hcancel. simpl. rewrite Hheap. split; [done|]. by repeat split.
  - rewrite cancelJob_inactive by done.
    split; [apply othersUntouched_refl|apply sameDefinition_refl].
Qed.

Lemma step_footprint jobId job event at_ :
  runInvariant jobId job at_ →
  othersUntouched jobId job (fst at_) (fst (step jobId event at_)) ∧
  sameDefinition (heap (fst at_) job) (heap (fst (step jobId event at_)) job).
Proof.
  destruct at_ as [st [run|outcome]]; intros (Hjobs & p & Hp & Hrest);
    destruct event as [w|now]; simpl in *.
  - destruct Hrest as (<- & <- & _). apply resume_footprint.
  - by apply cancelJob_footprint.
  - split; [apply othersUntouched_refl|apply sameDefinition_refl].
  - by apply cancelJob_footprint.
Qed.

Lemma runEvents_footprint jobId job events at_ :
  runInvariant jobId job at_ →
  runInvariant jobId job (runEvents jobId events at_) ∧
  othersUntouched jobId job (fst at_) (fst (runEvents jobId events at_)) ∧
  sameDefinition (heap (fst at_) job) (heap (fst (runEvents jobId events at_)) job).
Proof.
  revert at_. induction events as [|event events IH]; intros at_ Hinv.
  - split_and!; [done|apply othersUntouched_refl|apply sameDefinition_refl].
  - destruct (step_footprint _ _ event _ Hinv) as (Hothers & Hsame).
    destruct (IH _ (runInvariant_step _ _ event _ Hinv)) as (? & Hothers' & Hsame').
    split_and!; [done| |].
    + eapply othersUntouched_trans; [exact Hothers|exact Hothers'].
    + eapply sameDefinition_trans; [exact Hsame|exact Hsame'].
Qed.

Lemma executeJob_footprint now job st :
  job_id (heap st job) ∉ activeJobs st →
  othersUntouched (job_id (heap st job)) job st (fst (executeJob now job st)) ∧
  sameDefinition (heap st job) (heap (fst (executeJob now job st)) job).
Proof.
  intros Hidle.
  destruct (executeJob_starts now job st Hidle)
    as (st0 & -> & Hjob0 & Hjobs0 & Hactive0 & Hothers0). simpl.
  split; [|rewrite Hjob0; by repeat split].
  split; [done|]. intros otherId Hne.
  rewrite Hjobs0, Hactive0, lookup_insert_ne by done. set_solver.
Qed.

End Restart.

(** X1. While a run of a job is suspended at one of its phases, a second
    [executeJob] call for the same job is rejected with the message
    [Job <id> is already running] and changes nothing in the engine: the
    job stays marked as running and the first run goes on from the same
    state. *)
Theorem executeJob_rejects_second_start `{Host} (now now' : string) (job : loc)
    (st : State) (worlds : list World) (run : Run) :
  job_id (heap st job) ∉ activeJobs st →
  snd (resumeAll worlds (executeJob now job st)) = inl run →
  let st' := fst (resumeAll worlds (executeJob now job st)) in
  executeJob now' job st' =
    (st', inr (Rejected (ThrownError
                 ("Job " +:+ job_id (heap st job) +:+ " is already running")))) ∧
  isJobRunning (job_id (heap st job)) st' = true.
Proof.
  intros Hidle.
  destruct (executeJob_starts now job st Hidle)
    as (st0 & -> & Hjob0 & Hjobs0 & Hactive0 & Hothers0).
  destruct (resumeAll worlds (st0, inl _)) as [st' r] eqn:Hrun. simpl.
  intros ->.
  destruct (resumeAll_suspended _ _ _ _ _ Hrun) as (_ & _ & _ & Hactive & Hid).
  simpl in Hid. rewrite Hjob0 in Hid. simpl in Hid.
  assert (job_id (heap st' job) ∈ activeJobs st') as Hrunning.
  { rewrite Hid, Hactive, Hactive0. set_solver. }
  split.
  - rewrite executeJob_already_running by done. by rewrite Hid.
  - unfold isJobRunning. rewrite <- Hid. by apply bool_decide_eq_true.
Qed.

Lemma executeJob_rejects_second_start_witness :
  let st' := fst (@resumeAll referenceHost [sampleWorld "2024-01-02T00:00:01.000Z"]
                    (executeJob "2024-01-02T00:00:00.000Z" 0%nat (sampleState None))) in
  executeJob "2024-01-02T00:00:05.000Z" 0%nat st' =
    (st', inr (Rejected (ThrownError "Job job1 is already running"))) ∧
  isJobRunning "job1" st' = true.
Proof.
  apply (executeJob_rejects_second_start (H := referenceHost)
           "2024-01-02T00:00:00.000Z" "2024-01-02T00:00:05.000Z" 0%nat
           (sampleState None) [sampleWorld "2024-01-02T00:00:01.000Z"]
           {| run_jobId := "job1"; run_job := 0%nat;
              run_pending := AwaitTransform
                [sampleRequest 10 "POST" 1000; sampleRequest 20 "GET" 2000] None |}).
  - apply not_elem_of_empty.
  - reflexivity.
Defined.

(** ** Properties of objects *)

Lemma lookupProp_setProp k k' v props :
  Js.lookupProp k (Js.setProp k' v props) =
  if String.eqb k' k then Some v else Js.lookupProp k props.
Proof.
  induction props as [|[k0 v0] props IH]; simpl.
  - done.
  - destruct (String.eqb k0 k') eqn:E0; simpl.
    + apply String.eqb_eq in E0 as ->. by destruct (String.eqb k' k).
    + rewrite IH. destruct (String.eqb k0 k) eqn:E1; [|done].
      apply String.eqb_eq in E1 as ->. by rewrite String.eqb_sym, E0.
Qed.


Lemma lookupProp_snoc k k' v props :
  Js.lookupProp k (props ++ [(k', v)]) =
  match Js.lookupProp k props with
  | Some v0 => Some v0
  | None => if String.eqb k' k then Some v else None
  end.
Proof.
  induction props as [|[k0 v0] props IH]; simpl; [done|].
  by destruct (String.eqb k0 k).
Qed.

(** The last binding of a key in a spread sequence is the one that
    counts. *)
Lemma getProp_assignProps k base extra :
  Js.getProp k (Js.assignProps base extra) =
  match Js.lookupProp k (rev extra) with
  | Some v => v
  | None => Js.getProp k base
  end.
Proof.
  unfold Js.assignProps, Js.getProp. revert base.
  induction extra as [|[k' v'] extra IH]; intros base; simpl; [done|].
  rewrite IH, lookupProp_snoc, lookupProp_setProp.
  destruct (Js.lookupProp k (rev extra)); [done|].
  by destruct (String.eqb k' k).
Qed.



(** ** Record counts through the pipeline *)

Lemma filterItems_sublist callback data out :
  filterItems callback data = Ok out → out `sublist_of` data.
Proof.
  revert out. induction data as [|item data IH]; intros out; simpl.
  - intros [= <-]. constructor.
  - unfold mbind, Result_bind.
    destruct (callback item) as [keep|]; [|done].
    destruct (filterItems callback data) as [kept|]; [|done].
    intros [= <-]. destruct keep; constructor; by apply IH.
Qed.

Lemma filterItems_nil callback : filterItems callback [] = Ok [].
Proof. done. Qed.

Lemma mapItems_length callback next data out :
  mapItems callback next data = Ok out → length out = length data.
Proof.
  revert next out. induction data as [|item data IH]; intros next out; simpl.
  - by intros [= <-].
  - unfold mbind, Result_bind.
    destruct (callback next item) as [mapped|]; [|done].
    destruct (mapItems callback (S next) data) as [others|] eqn:E; [|done].
    intros [= <-]. simpl. f_equal. by eapply IH.
Qed.

Lemma firstOccurrences_length keys :
  (length (firstOccurrences keys) ≤ length keys)%nat.
Proof.
  induction keys as [|k keys IH]; simpl; [done|].
  pose proof (List.filter_length_le
    (fun k' => negb (Js.sameValueZero k k')) (firstOccurrences keys)). lia.
Qed.

Section Counts.
Context `{Host}.

Lemma summarize_length config next groups out :
  summarize config next groups = Ok out → length out = length groups.
Proof.
  revert next out. induction groups as [|entry groups IH]; intros next out; simpl.
  - by intros [= <-].
  - unfold mbind, Result_bind.
    destruct (groupSummary config next entry) as [summary|]; [|done].
    destruct (summarize config (S next) groups) as [others|] eqn:E; [|done].
    intros [= <-]. simpl. f_equal. by eapply IH.
Qed.

Lemma groupKeys_length groupBy data :
  (length (groupKeys groupBy data) ≤ length data)%nat.
Proof.
  unfold groupKeys.
  etrans; [apply firstOccurrences_length|]. by rewrite length_map.
Qed.

Lemma aggregateTransformation_length next data config out :
  aggregateTransformation next data config = Ok out →
  (length out ≤ length data)%nat.
Proof.
  unfold aggregateTransformation, mbind, Result_bind.
  destruct (Js.member config "groupBy") as [groupBy|]; [|done].
  destruct (Js.truthy groupBy); [|by intros [= <-]].
  rewrite foldl_addToGroups.
  intros ->%summarize_length. unfold groupsOf.
  rewrite length_imap. apply groupKeys_length.
Qed.

Lemma applyTransformation_length now next data t out :
  applyTransformation now next data t = Ok out → (length out ≤ length data)%nat.
Proof.
  unfold applyTransformation.
  repeat case_match; try done.
  - intros ?%filterItems_sublist. by apply sublist_length.
  - intros ->%mapItems_length. done.
  - apply aggregateTransformation_length.
  - intros ->%mapItems_length. done.
  - intros ?%filterItems_sublist. by apply sublist_length.
Qed.

Lemma applyAll_length clock k next data steps out :
  applyAll clock k next data steps = Ok out → (length out ≤ length data)%nat.
Proof.
  revert k next data out.
  induction steps as [|t steps IH]; intros k next data out; simpl.
  - by intros [= <-].
  - unfold mbind, Result_bind.
    destruct (applyTransformation (clock k) next data t) as [data'|] eqn:E; [|done].
    intros ?%IH. apply applyTransformation_length in E. lia.
Qed.

Lemma transform_length clock next data transformations out :
  transform clock next data transformations = Ok out →
  (length out ≤ length data)%nat.
Proof.
  destruct transformations as [[|t ts]|]; simpl; try by intros [= <-].
  apply applyAll_length.
Qed.

(** A step that throws on every record set makes the whole loop throw. *)
Lemma applyAll_throws clock k next data steps t :
  t ∈ steps →
  (∀ now next data, ∃ e, applyTransformation now next data t = Throw e) →
  ∃ e, applyAll clock k next data steps = Throw e.
Proof.
  intros Hin Hthrows. revert k next data.
  induction steps as [|u steps IH]; intros k next data; [by apply elem_of_nil in Hin|].
  simpl. unfold mbind, Result_bind.
  destruct (applyTransformation (clock k) next data u) as [data'|e] eqn:E;
    [|by exists e].
  apply elem_of_cons in Hin as [<-|Hin].
  - destruct (Hthrows (clock k) next data) as (e & He). congruence.
  - by apply IH.
Qed.

End Counts.

(** ** Whole runs *)

(** X2. A run whose three phases succeed resolves and leaves the job
    [completed], no longer active and registered under its id, with
    [startedAt] and [completedAt] stamped and the progress record
    [totalRecords] = number of extracted records, [processedRecords] =
    [successfulRecords] = number of transformed records, [failedRecords]
    0, [percentage] 100, phase [completed]; every other field, the
    [error] of an earlier run included, is as it was. The processed
    count never exceeds the total. *)
Theorem executeJobToEnd_resolved `{Host} (now : string) (w1 w2 w3 : World)
    (job : loc) (st : State) (extracted : list WebhookRequest)
    (transformed : list Item) :
  job_id (heap st job) ∉ activeJobs st →
  extract (w_getStorageManager w1) (job_filters (heap st job)) = Ok extracted →
  transform (w_clock w2) (w_next w2) (map requestItem extracted)
    (job_transformations (heap st job)) = Ok transformed →
  snd (load (w_fetch w3) (w_next w3) transformed (job_destination (heap st job)))
    = Ok () →
  ∃ st',
    executeJobToEnd now w1 w2 w3 job st = (st', inr Resolved) ∧
    heap st' job =
      withProgress
        {| totalRecords := Z.of_nat (length extracted);
           processedRecords := Z.of_nat (length transformed);
           successfulRecords := Z.of_nat (length transformed);
           failedRecords := 0; percentage := 100; currentPhase := "completed" |}
        (withCompletedAt (w_now w3)
           (withStartedAt now (withStatus completed (heap st job)))) ∧
    job_error (heap st' job) = job_error (heap st job) ∧
    (job_id (heap st job) ∉ activeJobs st') ∧
    jobs st' !! job_id (heap st job) = Some job ∧
    (length transformed ≤ length extracted)%nat.
Proof.
  intros Hidle Hextract Htransform Hload. unfold executeJobToEnd.
  destruct (executeJob_starts now job st Hidle)
    as (st0 & -> & Hjob0 & Hjobs0 & Hactive0 & _).
  cbn [resumeAll]. unfold resume, guarded. cbn [run_job run_jobId run_pending].
  erewrite continue_after_extract;
    [|exact Hextract|rewrite Hjob0; reflexivity].
  cbn [resumeAll]. unfold resume, guarded. cbn [run_job run_jobId run_pending].
  erewrite continue_after_transform; cycle 1.
  { rewrite Hjob0. exact Htransform. }
  { rewrite !heap_update_same. reflexivity. }
  cbn [resumeAll]. unfold resume, guarded. cbn [run_job run_jobId run_pending].
  edestruct continue_after_load as (st3 & -> & Hheap3 & Hjobs3 & Hactive3 & _);
    [rewrite !heap_update_same, Hjob0; exact Hload
    |rewrite !heap_update_same; reflexivity|].
  eexists. split; [reflexivity|].
  unfold finallyBlock. rewrite heap_jobsSet, heap_activeDelete.
  cbn [jobs jobsSet activeJobs activeDelete].
  rewrite Hheap3, !heap_update_same, Hjob0. rewrite Hactive3.
  split_and!; try done.
  - set_solver.
  - by rewrite lookup_insert_eq.
  - apply transform_length in Htransform. by rewrite length_map in Htransform.
Qed.

Lemma executeJobToEnd_resolved_witness :
  ∃ st',
    @executeJobToEnd referenceHost "2024-01-02T00:00:00.000Z"
      (scenarioWorld "2024-01-02T00:00:01.000Z")
      (scenarioWorld "2024-01-02T00:00:02.000Z")
      (scenarioWorld "2024-01-02T00:00:03.000Z") 0%nat scenarioState
      = (st', inr Resolved) ∧
    heap st' 0%nat =
      withProgress
        {| totalRecords := 3; processedRecords := 3; successfulRecords := 3;
           failedRecords := 0; percentage := 100; currentPhase := "completed" |}
        (withCompletedAt "2024-01-02T00:00:03.000Z"
           (withStartedAt "2024-01-02T00:00:00.000Z"
              (withStatus completed scenarioJob))) ∧
    job_error (heap st' 0%nat) = None ∧
    ("job1" ∉ activeJobs st') ∧
    jobs st' !! "job1" = Some 0%nat ∧
    (3 ≤ 3)%nat.
Proof.
  apply (executeJobToEnd_resolved (H := referenceHost)
           "2024-01-02T00:00:00.000Z"
           (scenarioWorld "2024-01-02T00:00:01.000Z")
           (scenarioWorld "2024-01-02T00:00:02.000Z")
           (scenarioWorld "2024-01-02T00:00:03.000Z") 0%nat scenarioState
           [sampleRequest 10 "POST" 1000; sampleRequest 30 "POST" 3000;
            sampleRequest 50 "POST" 5000]
           (map requestItem
              [sampleRequest 10 "POST" 1000; sampleRequest 30 "POST" 3000;
               sampleRequest 50 "POST" 5000])).
  - apply not_elem_of_empty.
  - reflexivity.
  - reflexivity.
  - reflexivity.
Defined.

(** X3. Whatever happens to a started run (resumptions in any
    surroundings, [cancelJob] calls for its job in between), the engine
    changes nothing but the run report of that one job: the objects of
    other jobs, the registrations and active flags of other ids stay as
    they were, and so does the definition of the job itself (id, name,
    filters, transformations, destination, creation time). *)
Theorem run_touches_only_its_job `{Host} (now : string) (job : loc) (st : State)
    (events : list Event) :
  job_id (heap st job) ∉ activeJobs st →
  let st' :=
    fst (runEvents (job_id (heap st job)) events (executeJob now job st)) in
  othersUntouched (job_id (heap st job)) job st st' ∧
  sameDefinition (heap st job) (heap st' job).
Proof.
  intros Hidle st'.
  destruct (executeJob_footprint now job st Hidle) as (Hothers & Hsame).
  destruct (runEvents_footprint _ _ events _ (runInvariant_start now job st Hidle))
    as (_ & Hothers' & Hsame').
  split.
  - eapply othersUntouched_trans; [exact Hothers|exact Hothers'].
  - eapply sameDefinition_trans; [exact Hsame|exact Hsame'].
Qed.

Lemma run_touches_only_its_job_witness :
  othersUntouched "job1" 0%nat (sampleState None)
    (fst (@runEvents referenceHost "job1"
            [Resumes (sampleWorld "2024-01-03T00:00:00.000Z");
             Cancels "2024-01-03T00:00:00.500Z";
             Resumes (brokenWorld "2024-01-03T00:00:01.000Z")]
            (executeJob "2024-01-02T00:00:00.000Z" 0%nat (sampleState None)))) ∧
  sameDefinition (sampleJob None)
    (heap (fst (@runEvents referenceHost "job1"
                  [Resumes (sampleWorld "2024-01-03T00:00:00.000Z");
                   Cancels "2024-01-03T00:00:00.500Z";
                   Resumes (brokenWorld "2024-01-03T00:00:01.000Z")]
                  (executeJob "2024-01-02T00:00:00.000Z" 0%nat (sampleState None))))
       0%nat).
Proof.
  apply (run_touches_only_its_job (H := referenceHost)
           "2024-01-02T00:00:00.000Z" 0%nat (sampleState None)
           [Resumes (sampleWorld "2024-01-03T00:00:00.000Z");
            Cancels "2024-01-03T00:00:00.500Z";
            Resumes (brokenWorld "2024-01-03T00:00:01.000Z")]).
  apply not_elem_of_empty.
Defined.

(** X4. The engine puts no condition on the status of the job it is
    asked to run: once a run has settled, resolved or rejected, a new
    [executeJob] for the same job is accepted. The job is [running]
    again with a fresh progress record and a new [startedAt], while
    [completedAt] (and [error], after a failure) still carry what the
    previous run left. *)
Theorem settled_job_can_be_started_again `{Host} (w : World) (run : Run)
    (st : State) (now' : string) (outcome : Settled) :
  job_id (heap st (run_job run)) = run_jobId run →
  snd (resume w run st) = inr outcome →
  ∃ st'',
    executeJob now' (run_job run) (fst (resume w run st)) =
      (st'', inl {| run_jobId := run_jobId run; run_job := run_job run;
                    run_pending :=
                      AwaitExtract (job_filters (heap st (run_job run))) |}) ∧
    job_status (heap st'' (run_job run)) = running ∧
    job_startedAt (heap st'' (run_job run)) = Some now' ∧
    job_progress (heap st'' (run_job run)) = Some initialProgress ∧
    job_completedAt (heap st'' (run_job run)) = Some (w_now w) ∧
    (∀ e, outcome = Rejected e →
          job_error (heap st'' (run_job run)) = Some (errorMessage e)).
Proof.
  intros Hid Houtcome.
  destruct (resume_footprint w run st) as (_ & HjobId & _ & Hfilters & _).
  destruct (resume w run st) as [st' r] eqn:Hresume. simpl in *. subst r.
  destruct (resume_settles _ _ _ _ _ Hresume)
    as (_ & Hat & Hidle & _ & _ & Herror).
  rewrite <- Hid, <- HjobId in Hidle.
  destruct (executeJob_starts now' _ _ Hidle) as (st'' & Hstart & Hheap & _).
  exists st''. rewrite Hstart, HjobId, Hid, Hfilters, Hheap.
  split_and!; try done.
  intros e ->. simpl. by destruct Herror as (_ & ->).
Qed.

Lemma settled_job_can_be_started_again_witness :
  ∃ st'',
    executeJob "2024-01-04T00:00:00.000Z" 0%nat
      (fst (@resume referenceHost (brokenWorld "2024-01-03T00:00:00.000Z")
              sampleRun startedState)) =
      (st'', inl sampleRun) ∧
    job_status (heap st'' 0%nat) = running ∧
    job_startedAt (heap st'' 0%nat) = Some "2024-01-04T00:00:00.000Z" ∧
    job_progress (heap st'' 0%nat) = Some initialProgress ∧
    job_completedAt (heap st'' 0%nat) = Some "2024-01-03T00:00:00.000Z" ∧
    (∀ e, Rejected (ThrownError "storage unavailable") = Rejected e →
          job_error (heap st'' 0%nat) = Some (errorMessage e)).
Proof.
  apply (settled_job_can_be_started_again (H := referenceHost)
           (brokenWorld "2024-01-03T00:00:00.000Z") sampleRun startedState
           "2024-01-04T00:00:00.000Z" (Rejected (ThrownError "storage unavailable"))).
  - reflexivity.
  - reflexivity.
Defined.

(** ** Cancelling *)

(** X5. [cancelJob] returns [true] exactly when the id is registered and
    marked active; otherwise it returns [false] and changes nothing. A
    repeated cancel always returns [false] and changes nothing, so a run
    can be cancelled at most once. *)
Theorem cancelJob_only_stops_active_registered_jobs (now now' : string)
    (jobId : string) (st : State) :
  (snd (cancelJob now jobId st) = true ↔
     is_Some (getJob jobId st) ∧ isJobRunning jobId st = true) ∧
  (snd (cancelJob now jobId st) = false → fst (cancelJob now jobId st) = st) ∧
  (snd (cancelJob now jobId st) = true →
     isJobRunning jobId (fst (cancelJob now jobId st)) = false) ∧
  cancelJob now' jobId (fst (cancelJob now jobId st)) =
    (fst (cancelJob now jobId st), false).
Proof.
  unfold getJob, isJobRunning.
  destruct (jobs st !! jobId) as [job|] eqn:Hjob.
  - destruct (decide (jobId ∈ activeJobs st)) as [Hactive|Hidle].
    + destruct (cancelJob_active now _ _ _ Hjob Hactive)
        as (st' & -> & _ & _ & Hidle' & _). cbn [fst snd].
      split_and!; try done.
      * split; [|done]. intros _. split; [done|]. by apply bool_decide_eq_true.
      * intros _. by apply bool_decide_eq_false.
      * by apply cancelJob_inactive.
    + rewrite !cancelJob_inactive by done. cbn [fst snd].
      split_and!; try done.
      split; [done|]. by intros (_ & ?%bool_decide_eq_true).
  - unfold cancelJob. rewrite Hjob. cbn [fst snd]. rewrite Hjob.
    split_and!; try done.
    split; [done|]. by intros ([? [=]] & _).
Qed.

(** X6. The guard against double starts is released by [cancelJob], not
    by the end of the run: once an active job has been cancelled, a new
    [executeJob] for it is accepted although the cancelled run is still
    suspended, and both runs then work on the same job object. When the
    older run settles it takes the job out of the active set, while the
    newer run is still under way. *)
Theorem cancelled_job_can_be_started_beside_its_old_run `{Host}
    (now now' : string) (run : Run) (st : State) (worlds : list World) :
  jobs st !! run_jobId run = Some (run_job run) →
  job_id (heap st (run_job run)) = run_jobId run →
  run_jobId run ∈ activeJobs st →
  (phasesLeft (run_pending run) ≤ length worlds)%nat →
  ∃ st1 st2 run2 st3 outcome,
    cancelJob now (run_jobId run) st = (st1, true) ∧
    executeJob now' (run_job run) st1 = (st2, inl run2) ∧
    run_job run2 = run_job run ∧
    job_status (heap st2 (run_job run)) = running ∧
    job_progress (heap st2 (run_job run)) = Some initialProgress ∧
    isJobRunning (run_jobId run) st2 = true ∧
    resumeAll worlds (st2, inl run) = (st3, inr outcome) ∧
    job_status (heap st3 (run_job run)) = settledStatus outcome ∧
    isJobRunning (run_jobId run) st3 = false.
Proof.
  intros Hjob Hid Hactive Hlen.
  destruct (cancelJob_active now _ _ _ Hjob Hactive)
    as (st1 & Hcancel & Hheap1 & _ & Hidle1 & _).
  assert (job_id (heap st1 (run_job run)) = run_jobId run) as Hid1
    by by rewrite Hheap1.
  rewrite <- Hid1 in Hidle1.
  destruct (executeJob_starts now' _ _ Hidle1)
    as (st2 & Hstart & Hheap2 & _ & Hactive2 & _).
  destruct (resumeAll_settles worlds run st2 Hlen) as (st3 & outcome & Hrun).
  destruct (resumeAll_settled _ _ _ _ _ Hrun)
    as (w & run0 & st0 & _ & Hsettle & HjobId & Hjob0 & _).
  destruct (resume_settles _ _ _ _ _ Hsettle) as (Hstatus & _ & Hidle3 & _).
  rewrite HjobId, Hjob0 in *.
  eexists st1, st2, _, st3, outcome.
  split_and!; [done|exact Hstart|done| | | |done|done|].
  - by rewrite Hheap2.
  - by rewrite Hheap2.
  - apply bool_decide_eq_true. rewrite Hactive2, Hid1. set_solver.
  - by apply bool_decide_eq_false.
Qed.

Lemma cancelled_job_can_be_started_beside_its_old_run_witness :
  ∃ st1 st2 run2 st3 outcome,
    cancelJob "2024-01-02T00:00:00.000Z" "job1" startedState = (st1, true) ∧
    executeJob "2024-01-02T00:00:01.000Z" 0%nat st1 = (st2, inl run2) ∧
    run_job run2 = 0%nat ∧
    job_status (heap st2 0%nat) = running ∧
    job_progress (heap st2 0%nat) = Some initialProgress ∧
    isJobRunning "job1" st2 = true ∧
    @resumeAll referenceHost
      [sampleWorld "2024-01-03T00:00:00.000Z";
       sampleWorld "2024-01-03T00:00:01.000Z";
       sampleWorld "2024-01-03T00:00:02.000Z"] (st2, inl sampleRun)
      = (st3, inr outcome) ∧
    job_status (heap st3 0%nat) = settledStatus outcome ∧
    isJobRunning "job1" st3 = false.
Proof.
  apply (cancelled_job_can_be_started_beside_its_old_run (H := referenceHost)
           "2024-01-02T00:00:00.000Z" "2024-01-02T00:00:01.000Z" sampleRun
           startedState
           [sampleWorld "2024-01-03T00:00:00.000Z";
            sampleWorld "2024-01-03T00:00:01.000Z";
            sampleWorld "2024-01-03T00:00:02.000Z"]).
  - reflexivity.
  - reflexivity.
  - change ("job1" ∈ ({[ "job1" ]} : gset string)).
    apply elem_of_singleton. reflexivity.
  - simpl. lia.
Defined.

(** ** Steps of the pipeline *)

(** X7. The transform phase never adds records: whatever the steps and
    their configs, a successful pipeline returns at most as many records
    as it was given (so [processedRecords] never exceeds
    [totalRecords]). *)
Theorem transform_never_adds_records `{Host} (clock : nat → nat → string) (next : nat)
    (data out : list Item) (transformations : option (list ETLTransformation)) :
  transform clock next data transformations = Ok out →
  (length out ≤ length data)%nat.
Proof. apply transform_length. Qed.

Lemma transform_never_adds_records_witness :
  (length [methodRecord 1 "GET"; methodRecord 2 "GET"] ≤ length threeRequests)%nat.
Proof.
  apply (transform_never_adds_records (H := referenceHost)
           (fun _ _ => "2024-01-02T00:00:00.000Z") 100 threeRequests
           [methodRecord 1 "GET"; methodRecord 2 "GET"] (Some [keepGets])).
  reflexivity.
Defined.

(** X8. A pipeline that contains an enabled step of a type other than
    filter, map, aggregate, enrich and validate never succeeds, whatever
    the records and wherever the step stands in the order: the transform
    phase throws. *)
Theorem transform_fails_on_unknown_step_type `{Host} (clock : nat → nat → string)
    (next : nat) (data : list Item) (transformations : list ETLTransformation)
    (t : ETLTransformation) :
  t ∈ transformations →
  t_enabled t = true →
  t_type t ∉ ["filter"; "map"; "aggregate"; "enrich"; "validate"] →
  (∀ now next data,
     applyTransformation now next data t =
       Throw (ThrownError ("Unknown transformation type: " +:+ t_type t))) ∧
  ∃ e, transform clock next data (Some transformations) = Throw e.
Proof.
  intros Hin Henabled Htype.
  assert (∀ now next data,
            applyTransformation now next data t =
              Throw (ThrownError ("Unknown transformation type: " +:+ t_type t)))
    as Hthrows.
  { intros now' next' data'. unfold applyTransformation.
    repeat case_match; try done;
      match goal with E : String.eqb _ _ = true |- _ =>
        apply String.eqb_eq in E; exfalso; apply Htype; rewrite E
      end; repeat constructor. }
  split; [done|].
  unfold transform. destruct transformations as [|u ts]; [by apply elem_of_nil in Hin|].
  apply applyAll_throws with t; [|by eauto].
  unfold sortedTransformations.
  apply (elem_of_Permutation_proper _ _ _ (sortByOrder_perm _)).
  apply list_elem_of_In, List.filter_In. by rewrite <- list_elem_of_In.
Qed.

Lemma transform_fails_on_unknown_step_type_witness :
  (∀ now next data,
     @applyTransformation referenceHost now next data bogusStep =
       Throw (ThrownError "Unknown transformation type: bogus")) ∧
  ∃ e, @transform referenceHost (fun _ _ => "2024-01-02T00:00:00.000Z") 100
         threeRequests (Some [bogusStep; keepGets]) = Throw e.
Proof.
  apply (transform_fails_on_unknown_step_type (H := referenceHost)
           (fun _ _ => "2024-01-02T00:00:00.000Z") 100 threeRequests
           [bogusStep; keepGets] bogusStep).
  - constructor.
  - reflexivity.
  - intros Hin. repeat (apply elem_of_cons in Hin as [Hin|Hin]; [discriminate|]).
    by apply elem_of_nil in Hin.
Defined.

Lemma mapItems_pure (callback : nat → Item → Result Item) (f : nat → Item → Item)
    next data :
  (∀ ref item, callback ref item = Ok (f ref item)) →
  mapItems callback next data = Ok (imap (fun i item => f (next + i)%nat item) data).
Proof.
  intros Hpure. revert next.
  induction data as [|item data IH]; intros next; simpl; [done|].
  rewrite Hpure, IH. unfold mbind, Result_bind. rewrite Nat.add_0_r.
  do 2 f_equal. apply imap_ext. intros i x _. simpl. f_equal. lia.
Qed.

Lemma mapItems_throws (callback : nat → Item → Result Item) e next data :
  (∀ ref item, callback ref item = Throw e) → data ≠ [] →
  mapItems callback next data = Throw e.
Proof. intros Hthrows. destruct data; [done|]. simpl. by rewrite Hthrows. Qed.

Lemma filterItems_throws (callback : Item → Result bool) e data :
  (∀ item, callback item = Throw e) → data ≠ [] →
  filterItems callback data = Throw e.
Proof. intros Hthrows. destruct data; [done|]. simpl. by rewrite Hthrows. Qed.


Lemma member_nullish config k :
  config ∈ [Js.Undefined; Js.Null] → ∃ msg, Js.member config k = Throw (ThrownError msg).
Proof.
  intros Hin. repeat (apply elem_of_cons in Hin as [->|Hin]); [by eexists..|].
  by apply elem_of_nil in Hin.
Qed.

Lemma lookupProp_cons k k' v props :
  Js.lookupProp k ((k', v) :: props) =
  if String.eqb k' k then Some v else Js.lookupProp k props.
Proof. done. Qed.

Section Steps.
Context `{Host}.

Lemma mapTransformation_mapped next data config fieldMappings :
  Js.member config "fieldMappings" = Ok fieldMappings →
  mapTransformation next data config =
  Ok (imap (fun i item =>
              {| item_ref := (next + i)%nat;
                 item_props :=
                   if Js.truthy fieldMappings
                   then foldl renameField (item_props item) (Js.ownEntries fieldMappings)
                   else item_props item |}) data).
Proof.
  intros Hmember. unfold mapTransformation.
  apply (mapItems_pure _ (fun ref item => {| item_ref := ref; item_props := _ |})).
  intros ref item. by rewrite Hmember.
Qed.

Lemma enrichTransformation_enriched now next data config additionalFields :
  Js.member config "additionalFields" = Ok additionalFields →
  enrichTransformation now next data config =
  Ok (imap (fun i item =>
              {| item_ref := (next + i)%nat;
                 item_props :=
                   Js.assignProps (item_props item)
                     (Js.ownEntries additionalFields ++
                      [("enrichedAt", Js.Str (now i))]) |})
        data).
Proof.
  intros Hmember. unfold enrichTransformation.
  rewrite (mapItems_pure _
             (fun ref item =>
                {| item_ref := ref;
                   item_props :=
                     Js.assignProps (item_props item)
                       (Js.ownEntries additionalFields ++
                        [("enrichedAt", Js.Str (now (ref - next)%nat))]) |})).
  - f_equal. apply imap_ext. intros i item _. simpl.
    by replace (next + i - next)%nat with i by lia.
  - intros ref item. by rewrite Hmember.
Qed.

Lemma mapItems_refs (callback : nat → Item → Result Item) next data out :
  (∀ ref item mapped, callback ref item = Ok mapped → item_ref mapped = ref) →
  mapItems callback next data = Ok out →
  map item_ref out = seq next (length data).
Proof.
  intros Hrefs. revert next out.
  induction data as [|item data IH]; intros next out; simpl.
  - by intros [= <-].
  - unfold mbind, Result_bind.
    destruct (callback next item) as [mapped|] eqn:E; [|done].
    destruct (mapItems callback (S next) data) as [others|] eqn:E'; [|done].
    intros [= <-]. simpl. f_equal; [by eapply Hrefs|by apply IH].
Qed.

End Steps.

(** X9. A filter step and a validate step only ever remove records:
    their output is the input with some records left out, the others
    being the same objects in the same order. *)
Theorem filter_and_validate_only_remove_records `{Host} (now : nat → string)
    (next : nat) (data out : list Item) (t : ETLTransformation) :
  t_type t ∈ ["filter"; "validate"] →
  applyTransformation now next data t = Ok out →
  out `sublist_of` data.
Proof.
  intros Htype. unfold applyTransformation.
  repeat (apply elem_of_cons in Htype as [->|Htype]); [| |by apply elem_of_nil in Htype];
    simpl; apply filterItems_sublist.
Qed.

Lemma filter_and_validate_only_remove_records_witness :
  [methodRecord 1 "GET"; methodRecord 2 "GET"] `sublist_of` threeRequests.
Proof.
  apply (filter_and_validate_only_remove_records (H := referenceHost)
           (fun _ => "2024-01-02T00:00:00.000Z") 100 threeRequests
           [methodRecord 1 "GET"; methodRecord 2 "GET"] keepGets).
  - constructor.
  - reflexivity.
Defined.

(** X10. A map step returns one new object per input record, in the
    same order; when the config has no (or a falsy) [fieldMappings], the
    new objects carry exactly the properties of the records they
    copy. *)
Theorem map_step_copies_every_record `{Host} (next : nat) (data out : list Item)
    (config : Js.Val) :
  mapTransformation next data config = Ok out →
  length out = length data ∧
  map item_ref out = seq next (length data) ∧
  (∀ fieldMappings,
     Js.member config "fieldMappings" = Ok fieldMappings →
     Js.truthy fieldMappings = false →
     map item_props out = map item_props data).
Proof.
  intros Hmap. split_and!.
  - by eapply mapItems_length.
  - eapply mapItems_refs; [|exact Hmap]. intros ref item mapped. simpl.
    unfold mbind, Result_bind. destruct (Js.member config "fieldMappings"); [|done].
    by intros [= <-].
  - intros fieldMappings Hmember Hfalsy.
    rewrite (mapTransformation_mapped _ _ _ _ Hmember), Hfalsy in Hmap.
    injection Hmap as <-. clear. generalize next.
    induction data as [|item data IH]; intros n; simpl; [done|].
    f_equal. specialize (IH (S n)). etrans; [|exact IH].
    f_equal. apply imap_ext. intros i x _. simpl. f_equal. lia.
Qed.

Lemma map_step_copies_every_record_witness :
  length [ {| item_ref := 100; item_props := [("method", Js.Str "GET")] |};
           {| item_ref := 101; item_props := [("method", Js.Str "GET")] |};
           {| item_ref := 102; item_props := [("method", Js.Str "POST")] |} ]
    = length threeRequests ∧
  map item_ref
    [ {| item_ref := 100; item_props := [("method", Js.Str "GET")] |};
      {| item_ref := 101; item_props := [("method", Js.Str "GET")] |};
      {| item_ref := 102; item_props := [("method", Js.Str "POST")] |} ]
    = seq 100 (length threeRequests) ∧
  (∀ fieldMappings,
     Js.member (Js.Obj 0 []) "fieldMappings" = Ok fieldMappings →
     Js.truthy fieldMappings = false →
     map item_props
       [ {| item_ref := 100; item_props := [("method", Js.Str "GET")] |};
         {| item_ref := 101; item_props := [("method", Js.Str "GET")] |};
         {| item_ref := 102; item_props := [("method", Js.Str "POST")] |} ]
       = map item_props threeRequests).
Proof.
  apply (map_step_copies_every_record (H := referenceHost) 100 threeRequests
           [ {| item_ref := 100; item_props := [("method", Js.Str "GET")] |};
             {| item_ref := 101; item_props := [("method", Js.Str "GET")] |};
             {| item_ref := 102; item_props := [("method", Js.Str "POST")] |} ]
           (Js.Obj 0 [])).
  reflexivity.
Defined.




(** The mapping [toString -> id] on a record with an [id]: the inherited
    function takes the place of the [id], and [toString] still reads as
    the inherited function. The mapping [method -> verb] moves the
    value. *)
Example map_step_on_inherited_and_own_names :
  @mapTransformation referenceHost 100 [idRecord 1 "r1"]
    (Js.Obj 0 [("fieldMappings", Js.Obj 1 [("toString", Js.Str "id")])])
    = Ok [ {| item_ref := 100; item_props := [("id", Js.Fn "toString")] |} ] ∧
  Js.getProp "toString" [("id", Js.Fn "toString")] = Js.Fn "toString" ∧
  @mapTransformation referenceHost 100 [methodRecord 1 "GET"]
    (Js.Obj 0 [("fieldMappings", Js.Obj 1 [("method", Js.Str "verb")])])
    = Ok [ {| item_ref := 100; item_props := [("verb", Js.Str "GET")] |} ].
Proof. by vm_compute. Qed.

(** X12. An enrich step returns one new object per input record, in the
    same order. The callback reads the clock itself, once per record:
    the [enrichedAt] of the [i]-th output record is the reading taken
    for that record, whatever the record or [additionalFields] said
    about [enrichedAt], so that two records of one step carry different
    stamps when the clock moves between them; every other property is
    the one [additionalFields] gives it if it gives one, and the
    record's own otherwise. *)
Theorem enrich_step_stamps_every_record (now : nat → string) (next : nat)
    (data : list Item) (config additionalFields : Js.Val) :
  Js.member config "additionalFields" = Ok additionalFields →
  ∃ out,
    enrichTransformation now next data config = Ok out ∧
    length out = length data ∧
    ∀ i item, data !! i = Some item →
      ∃ enriched,
        out !! i = Some enriched ∧
        item_ref enriched = (next + i)%nat ∧
        Js.getProp "enrichedAt" (item_props enriched) = Js.Str (now i) ∧
        ∀ k, k ≠ "enrichedAt" →
          Js.getProp k (item_props enriched) =
            match Js.lookupProp k (rev (Js.ownEntries additionalFields)) with
            | Some v => v
            | None => Js.getProp k (item_props item)
            end.
Proof.
  intros Hmember. eexists. split; [by apply enrichTransformation_enriched|].
  split; [by rewrite length_imap|].
  intros i item Hi. eexists. split; [by rewrite list_lookup_imap, Hi|]. simpl.
  split_and!.
  - done.
  - by rewrite getProp_assignProps, rev_unit.
  - intros k Hk. rewrite getProp_assignProps, rev_unit, lookupProp_cons.
    apply not_eq_sym, String.eqb_neq in Hk. by rewrite Hk.
Qed.

Lemma enrich_step_stamps_every_record_witness :
  ∃ out,
    enrichTransformation tickingClock 100
      [methodRecord 1 "GET"; methodRecord 2 "POST"]
      (Js.Obj 0 [("additionalFields", Js.Obj 1 [("source", Js.Str "nightly")])])
      = Ok out ∧
    length out = length [methodRecord 1 "GET"; methodRecord 2 "POST"] ∧
    ∀ i item, [methodRecord 1 "GET"; methodRecord 2 "POST"] !! i = Some item →
      ∃ enriched,
        out !! i = Some enriched ∧
        item_ref enriched = (100 + i)%nat ∧
        Js.getProp "enrichedAt" (item_props enriched) = Js.Str (tickingClock i) ∧
        ∀ k, k ≠ "enrichedAt" →
          Js.getProp k (item_props enriched) =
            match Js.lookupProp k (rev (Js.ownEntries (Js.Obj 1 [("source", Js.Str "nightly")]))) with
            | Some v => v
            | None => Js.getProp k (item_props item)
            end.
Proof.
  apply (enrich_step_stamps_every_record tickingClock 100
           [methodRecord 1 "GET"; methodRecord 2 "POST"]
           (Js.Obj 0 [("additionalFields", Js.Obj 1 [("source", Js.Str "nightly")])])
           (Js.Obj 1 [("source", Js.Str "nightly")])).
  reflexivity.
Defined.

(** Two records enriched by one step while the clock moves by a
    millisecond: the stamps differ. *)
Example enrich_step_reads_the_clock_per_record :
  enrichTransformation tickingClock 100
    [methodRecord 1 "GET"; methodRecord 2 "POST"] (Js.Obj 0 [])
  = Ok [ {| item_ref := 100;
            item_props := [("method", Js.Str "GET");
                           ("enrichedAt", Js.Str "1970-01-01T00:00:00.000Z")] |};
         {| item_ref := 101;
            item_props := [("method", Js.Str "POST");
                           ("enrichedAt", Js.Str "1970-01-01T00:00:00.001Z")] |} ].
Proof. by vm_compute. Qed.

Lemma filter_sublist {A} (p : A → bool) (l : list A) : List.filter p l `sublist_of` l.
Proof.
  induction l as [|x l IH]; simpl; [constructor|].
  destruct (p x); by constructor.
Qed.

(** X13. The per-record steps (filter, map, enrich, validate) read their
    config once per record: on an empty record set they succeed with an
    empty result whatever the config is, a missing one included. With a
    config that is [undefined] or [null] they throw a TypeError as soon
    as there is a record, and an aggregate step throws it even on an
    empty record set. *)
Theorem steps_read_config_per_record `{Host} (now : nat → string) (next : nat)
    (t : ETLTransformation) :
  (t_type t ∈ ["filter"; "map"; "enrich"; "validate"] →
   applyTransformation now next [] t = Ok []) ∧
  (t_config t ∈ [Js.Undefined; Js.Null] →
   t_type t ∈ ["filter"; "map"; "aggregate"; "enrich"; "validate"] →
   ∀ data, data ≠ [] ∨ t_type t = "aggregate" →
     ∃ msg, applyTransformation now next data t = Throw (ThrownError msg)).
Proof.
  unfold applyTransformation. split.
  - intros Htype.
    repeat (apply elem_of_cons in Htype as [->|Htype]); [done..|].
    by apply elem_of_nil in Htype.
  - intros Hconfig Htype data.
    assert (∀ k, ∃ msg, Js.member (t_config t) k = Throw (ThrownError msg))
      as Hmember by (intros k; by apply member_nullish).
    repeat (apply elem_of_cons in Htype as [->|Htype]);
      [| | | | |by apply elem_of_nil in Htype]; simpl; intros Hdata.
    + destruct Hdata as [Hdata|[=]]. destruct (Hmember "field") as (msg & Hmsg).
      exists msg. unfold filterTransformation.
      apply filterItems_throws; [|done]. intros item. by rewrite Hmsg.
    + destruct Hdata as [Hdata|[=]]. destruct (Hmember "fieldMappings") as (msg & Hmsg).
      exists msg. unfold mapTransformation.
      apply mapItems_throws; [|done]. intros ref item. by rewrite Hmsg.
    + destruct (Hmember "groupBy") as (msg & Hmsg). exists msg.
      unfold aggregateTransformation. by rewrite Hmsg.
    + destruct Hdata as [Hdata|[=]]. destruct (Hmember "additionalFields") as (msg & Hmsg).
      exists msg. unfold enrichTransformation.
      apply mapItems_throws; [|done]. intros ref item. by rewrite Hmsg.
    + destruct Hdata as [Hdata|[=]]. destruct (Hmember "requiredFields") as (msg & Hmsg).
      exists msg. unfold validateTransformation.
      apply filterItems_throws; [|done]. intros item. by rewrite Hmsg.
Qed.



(** Requiring [toString], which every record inherits, keeps every
    record; requiring [method] keeps the record that has one. *)
Example validate_step_on_inherited_and_own_names :
  @validateTransformation referenceHost [methodRecord 1 "GET"; sizeRecord 2 5]
    (Js.Obj 0 [("requiredFields", Js.Arr 1 [Js.Str "toString"])])
    = Ok [methodRecord 1 "GET"; sizeRecord 2 5] ∧
  @validateTransformation referenceHost [methodRecord 1 "GET"; sizeRecord 2 5]
    (Js.Obj 0 [("requiredFields", Js.Arr 1 [Js.Str "method"])])
    = Ok [methodRecord 1 "GET"].
Proof. by vm_compute. Qed.

(** ** Aggregation: the counts *)

Lemma count_same_key keys v :
  NoDup (map identity keys) →
  (∃ k, k ∈ keys ∧ identity k = identity v) →
  sum_list (map (fun k => if Js.sameValueZero k v then 1%nat else 0%nat) keys) = 1%nat.
Proof.
  induction keys as [|k keys IH]; intros Hnodup (k' & Hin & Hid).
  - by apply elem_of_nil in Hin.
  - apply NoDup_cons in Hnodup as [Hnotin Hnodup]. simpl.
    destruct (Js.sameValueZero k v) eqn:Hk.
    + apply sameValueZero_true in Hk.
      assert (sum_list (map (fun k => if Js.sameValueZero k v then 1%nat else 0%nat) keys)
              = 0%nat) as ->; [|done].
      clear IH Hin. induction keys as [|k0 keys IH]; [done|]. simpl.
      apply NoDup_cons in Hnodup as [_ Hnodup].
      rewrite IH; [|set_solver|done].
      destruct (Js.sameValueZero k0 v) eqn:Hk0; [|done].
      apply sameValueZero_true in Hk0. exfalso. apply Hnotin.
      rewrite Hk, <- Hk0. set_solver.
    + apply sameValueZero_false in Hk.
      apply elem_of_cons in Hin as [->|Hin]; [done|].
      rewrite IH; [done|done|by exists k'].
Qed.

Lemma partition_sizes {A} (f : A → Js.Val) keys (data : list A) :
  NoDup (map identity keys) →
  (∀ x, x ∈ data → ∃ k, k ∈ keys ∧ identity k = identity (f x)) →
  sum_list (map (fun k => length (List.filter (fun x => Js.sameValueZero k (f x)) data))
              keys) = length data.
Proof.
  intros Hnodup. induction data as [|x data IH]; intros Hcovers.
  - simpl. clear. by induction keys.
  - assert (sum_list (map (fun k => length (List.filter
                             (fun x => Js.sameValueZero k (f x)) (x :: data))) keys)
            = (sum_list (map (fun k => if Js.sameValueZero k (f x) then 1%nat else 0%nat)
                           keys)
               + sum_list (map (fun k => length (List.filter
                             (fun x => Js.sameValueZero k (f x)) data)) keys))%nat)
      as ->.
    { clear. induction keys as [|k keys IHk]; [done|]. simpl in *.
      destruct (Js.sameValueZero k (f x)); simpl; lia. }
    rewrite count_same_key, IH; [done| |done|].
    + intros y Hy. apply Hcovers. by right.
    + apply Hcovers. by left.
Qed.

Lemma Forall2_imap_map {A B C} (P : B → C → Prop) (f : nat → A → B) (g : A → C)
    (l : list A) :
  (∀ i x, x ∈ l → P (f i x) (g x)) → Forall2 P (imap f l) (map g l).
Proof.
  revert f. induction l as [|x l IH]; intros f Hall; simpl; constructor.
  - apply Hall. by left.
  - apply IH. intros i y Hy. apply Hall. by right.
Qed.

(** X15. An aggregate step with a [groupBy] counts every record exactly
    once: each summary it returns has a [count] of at least one, the
    counts add up to the number of input records, and there are at most
    as many summaries as records. *)
Theorem aggregate_counts_add_up `{Host} (next : nat) (data out : list Item)
    (config groupBy : Js.Val) :
  Js.member config "groupBy" = Ok groupBy →
  Js.truthy groupBy = true →
  aggregateTransformation next data config = Ok out →
  ∃ counts : list nat,
    Forall2 (fun summary count =>
               Js.getProp "count" (item_props summary) = Js.Num (Z.of_nat count) ∧
               (0 < count)%nat) out counts ∧
    sum_list counts = length data ∧
    (length out ≤ length data)%nat.
Proof.
  intros Hmember Htruthy Hout.
  pose proof (aggregateTransformation_length _ _ _ _ Hout) as Hlen.
  revert Hout. unfold aggregateTransformation. rewrite Hmember. simpl.
  rewrite Htruthy, foldl_addToGroups.
  destruct (member_defined _ _ _ "includeItems" Hmember) as (includeItems & Hinclude).
  rewrite (summarize_groups _ _ _ _ _ Hmember Hinclude). intros [= <-].
  exists (map (fun key => length (groupMembers groupBy key data)) (groupKeys groupBy data)).
  split_and!; [|apply partition_sizes|done].
  - unfold groupsOf. rewrite imap_imap. simpl.
    assert (∀ key, key ∈ groupKeys groupBy data →
                   (0 < length (groupMembers groupBy key data))%nat) as Hpos.
    { intros key (item & -> & Hitem)%firstOccurrences_subset%list_elem_of_fmap.
      assert (item ∈ groupMembers groupBy (itemGet item groupBy) data) as Hmem.
      { apply list_elem_of_In, List.filter_In. rewrite <- list_elem_of_In.
        split; [done|apply sameValueZero_refl]. }
      destruct (groupMembers _ _ _); [by apply elem_of_nil in Hmem|simpl; lia]. }
    apply Forall2_imap_map. intros i key Hkey.
    split; [apply summaryOf_reads|by apply Hpos].
  - apply firstOccurrences_NoDup.
  - intros item Hitem. apply firstOccurrences_covers.
    apply list_elem_of_fmap. by exists item.
Qed.

Lemma aggregate_counts_add_up_witness :
  ∃ counts : list nat,
    Forall2 (fun summary count =>
               Js.getProp "count" (item_props summary) = Js.Num (Z.of_nat count) ∧
               (0 < count)%nat)
      [ {| item_ref := 102;
           item_props := [("method", Js.Str "GET"); ("count", Js.Num 2);
                          ("items", Js.Undefined)] |};
        {| item_ref := 103;
           item_props := [("method", Js.Str "POST"); ("count", Js.Num 1);
                          ("items", Js.Undefined)] |} ] counts ∧
    sum_list counts = length threeRequests ∧
    (2 ≤ length threeRequests)%nat.
Proof.
  apply (aggregate_counts_add_up (H := referenceHost) 100 threeRequests
           [ {| item_ref := 102;
                item_props := [("method", Js.Str "GET"); ("count", Js.Num 2);
                               ("items", Js.Undefined)] |};
             {| item_ref := 103;
                item_props := [("method", Js.Str "POST"); ("count", Js.Num 1);
                               ("items", Js.Undefined)] |} ]
           groupByMethod (Js.Str "method")).
  - reflexivity.
  - reflexivity.
  - reflexivity.
Defined.

(** ** Outbound calls of the loader *)

Section Calls.
Variable fetch : FetchCall → Result unit.





End Calls.







(** ** Extract phase: what is read and what a failure leaves *)

Section ExtractOutcome.
Context `{Host}.

Lemma extractAll_reads sm configs reads acc :
  Forall2 (fun config requests => getRequests sm (cfg_id config) 1000 = Ok requests)
    configs reads →
  extractAll sm configs acc = Ok (acc ++ concat reads).
Proof.
  intros Hreads. revert acc.
  induction Hreads as [|config requests configs reads Hread _ IH]; intros acc; simpl.
  - by rewrite app_nil_r.
  - rewrite Hread. simpl. by rewrite IH, app_assoc.
Qed.

Lemma extractAll_fails sm read config rest e acc :
  (∀ c, c ∈ read → ∃ requests, getRequests sm (cfg_id c) 1000 = Ok requests) →
  getRequests sm (cfg_id config) 1000 = Throw e →
  extractAll sm (read ++ config :: rest) acc = Throw e.
Proof.
  intros Hread Hfails. revert acc.
  induction read as [|c read IH]; intros acc; simpl.
  - by rewrite Hfails.
  - destruct (Hread c) as (requests & ->); [by left|]. simpl.
    apply IH. intros c' Hc'. apply Hread. by right.
Qed.

End ExtractOutcome.

(** X19. Extraction is all or nothing. When the storage manager cannot
    be obtained, when the list of endpoints cannot be read, or when the
    read of one endpoint fails (of the scoped endpoint, or of any
    endpoint of the list after others were read successfully), [extract]
    fails with that very error and returns none of the records it had
    already read. *)
Theorem extract_fails_with_the_storage_error `{Host} (filters : option ETLFilters)
    (e : Thrown) :
  extract (Throw e) filters = Throw e ∧
  (∀ sm,
     truthyStr (filters ≫= f_webhookId) = true →
     getRequests sm (default EmptyString (filters ≫= f_webhookId)) 1000 = Throw e →
     extract (Ok sm) filters = Throw e) ∧
  (∀ sm,
     truthyStr (filters ≫= f_webhookId) = false →
     getAllWebhookConfigs sm = Throw e →
     extract (Ok sm) filters = Throw e) ∧
  (∀ sm read config rest,
     truthyStr (filters ≫= f_webhookId) = false →
     getAllWebhookConfigs sm = Ok (read ++ config :: rest) →
     (∀ c, c ∈ read → ∃ requests, getRequests sm (cfg_id c) 1000 = Ok requests) →
     getRequests sm (cfg_id config) 1000 = Throw e →
     extract (Ok sm) filters = Throw e).
Proof.
  unfold extract. split_and!.
  - done.
  - intros sm -> Hfails. simpl. by rewrite Hfails.
  - intros sm -> Hfails. simpl. by rewrite Hfails.
  - intros sm read config rest -> Hconfigs Hread Hfails. simpl.
    rewrite Hconfigs. simpl. by rewrite (extractAll_fails _ _ _ _ e).
Qed.

Lemma filterRequests_app {A} (callback : A → Result bool) xs ys :
  filterRequests callback (xs ++ ys) =
  (kept ← filterRequests callback xs;
   rest ← filterRequests callback ys;
   Ok (kept ++ rest)).
Proof.
  induction xs as [|x xs IH]; simpl.
  - by destruct (filterRequests callback ys).
  - destruct (callback x) as [keep|]; simpl; [|done]. rewrite IH.
    destruct (filterRequests callback xs); simpl; [|done].
    destruct (filterRequests callback ys); simpl; [|done].
    by destruct keep.
Qed.

Lemma applyFilters_app `{Host} requests more filters :
  applyFilters (requests ++ more) filters =
  (kept ← applyFilters requests filters;
   rest ← applyFilters more filters;
   Ok (kept ++ rest)).
Proof. destruct filters; simpl; [apply filterRequests_app | done]. Qed.

Lemma filter_twice {A} (p : A → bool) (l : list A) :
  List.filter p (List.filter p l) = List.filter p l.
Proof.
  induction l as [|x l IH]; [done|]. simpl.
  destruct (p x) eqn:E; simpl; rewrite ?E, IH; done.
Qed.

(** X20. What a successful extraction returns. With a (non-empty)
    [webhookId] in the filters, the outcome of the filter evaluation
    over the one read [getRequests(webhookId, 1000)]: the list of
    endpoints is not consulted. Without one, the outcome of the filter
    evaluation over the records read from the endpoints of
    [getAllWebhookConfigs()], concatenated in the order of that list; so
    records come out grouped by endpoint, in the order storage returned
    them: what the evaluation returns is the concatenation of what it
    returns for the reads one by one. When the filter evaluation throws,
    so does the extraction. *)
Theorem extract_returns_filtered_reads `{Host} (sm : StorageManager)
    (filters : option ETLFilters) :
  (∀ requests,
     truthyStr (filters ≫= f_webhookId) = true →
     getRequests sm (default EmptyString (filters ≫= f_webhookId)) 1000 = Ok requests →
     extract (Ok sm) filters = applyFilters requests filters) ∧
  (∀ configs reads,
     truthyStr (filters ≫= f_webhookId) = false →
     getAllWebhookConfigs sm = Ok configs →
     Forall2 (fun config requests => getRequests sm (cfg_id config) 1000 = Ok requests)
       configs reads →
     extract (Ok sm) filters = applyFilters (concat reads) filters ∧
     (∀ kept, applyFilters (concat reads) filters = Ok kept →
        ∃ parts,
          Forall2 (fun requests part => applyFilters requests filters = Ok part)
            reads parts ∧
          kept = concat parts) ∧
     (∀ parts,
        Forall2 (fun requests part => applyFilters requests filters = Ok part)
          reads parts →
        applyFilters (concat reads) filters = Ok (concat parts))).
Proof.
  unfold extract. split.
  - intros requests -> Hread. simpl. by rewrite Hread.
  - intros configs reads -> Hconfigs Hreads. simpl.
    rewrite Hconfigs. simpl. rewrite (extractAll_reads _ _ reads) by done. simpl.
    split; [done|]. clear. split.
    + induction reads as [|requests reads IH]; intros kept; simpl.
      * intros Hkept. exists []. split; [constructor|].
        destruct filters; simpl in Hkept; by injection Hkept as <-.
      * rewrite applyFilters_app.
        destruct (applyFilters requests filters) as [part|] eqn:Hpart; [|done]. simpl.
        destruct (applyFilters (concat reads) filters) as [rest|]; [|done]. simpl.
        intros [= <-]. destruct (IH rest eq_refl) as (parts & Hparts & ->).
        exists (part :: parts). split; [by constructor | done].
    + intros parts Hparts.
      induction Hparts as [|requests part reads parts Hpart _ IH]; simpl.
      * by destruct filters.
      * by rewrite applyFilters_app, Hpart, IH.
Qed.

(** X22. The filter evaluator only ever removes records: what it returns
    is the input with some records left out, in the same order;
    filtering a result again with the same filters changes nothing; and
    filtering the record list followed by another gives the result
    followed by the result for the other list, or the exception that
    the other list raises. *)
Theorem applyFilters_only_removes_records `{Host} (requests more kept : list WebhookRequest)
    (filters : option ETLFilters) :
  applyFilters requests filters = Ok kept →
  kept `sublist_of` requests ∧
  applyFilters kept filters = Ok kept ∧
  applyFilters (requests ++ more) filters =
    (rest ← applyFilters more filters; Ok (kept ++ rest)).
Proof.
  intros Hkept. split_and!.
  - apply applyFilters_Ok in Hkept as ->. destruct filters; [apply filter_sublist | done].
  - destruct filters as [filters|]; simpl in *; [|done].
    apply filterRequests_Ok in Hkept as [Hall ->].
    rewrite filterRequests_returns, filter_twice; [done|].
    apply Forall_forall. intros r [Hin _]%list_elem_of_In%List.filter_In.
    apply (proj1 (Forall_forall _ _) Hall). by apply list_elem_of_In.
  - by rewrite applyFilters_app, Hkept.
Qed.

Lemma applyFilters_only_removes_records_witness :
  [sampleRequest 1 "GET" 50] `sublist_of`
    [sampleRequest 1 "GET" 50; sampleRequest 5 "GET" 200] ∧
  @applyFilters referenceHost [sampleRequest 1 "GET" 50] (Some halfOpenRange)
    = Ok [sampleRequest 1 "GET" 50] ∧
  @applyFilters referenceHost
    ([sampleRequest 1 "GET" 50; sampleRequest 5 "GET" 200] ++ [sampleRequest 9 "POST" 100])
    (Some halfOpenRange) =
    (rest ← @applyFilters referenceHost [sampleRequest 9 "POST" 100] (Some halfOpenRange);
     Ok ([sampleRequest 1 "GET" 50] ++ rest)).
Proof.
  apply (applyFilters_only_removes_records (H := referenceHost)
           [sampleRequest 1 "GET" 50; sampleRequest 5 "GET" 200]
           [sampleRequest 9 "POST" 100] [sampleRequest 1 "GET" 50] (Some halfOpenRange)).
  reflexivity.
Defined.

(** * Part IV: the DTO mapper *)

(** ** Object literals over well-formed property lists *)

Lemma lookupProp_None k props : Js.lookupProp k props = None ↔ k ∉ map fst props.
Proof.
  induction props as [|[k' v] props IH]; simpl.
  - split; [intros _; apply not_elem_of_nil|done].
  - rewrite not_elem_of_cons. destruct (String.eqb k' k) eqn:E.
    + apply String.eqb_eq in E as ->. split; [done|]. by intros [? _].
    + apply String.eqb_neq in E. rewrite IH. split; [by intros ?|by intros [_ ?]].
Qed.

Lemma setProp_fresh k v props :
  k ∉ map fst props → Js.setProp k v props = props ++ [(k, v)].
Proof.
  induction props as [|[k' v'] props IH]; simpl; [done|].
  rewrite not_elem_of_cons. intros [Hne Hnotin].
  apply not_eq_sym, String.eqb_neq in Hne. by rewrite Hne, IH.
Qed.

Lemma setProp_keys k v v0 props :
  Js.lookupProp k props = Some v0 → map fst (Js.setProp k v props) = map fst props.
Proof.
  induction props as [|[k' v'] props IH]; simpl; [done|].
  destruct (String.eqb k' k) eqn:E; simpl.
  - apply String.eqb_eq in E as ->. done.
  - intros Hlookup. by rewrite IH.
Qed.

Lemma setProp_same k v props :
  Js.lookupProp k props = Some v → Js.setProp k v props = props.
Proof.
  induction props as [|[k' v'] props IH]; simpl; [done|].
  destruct (String.eqb k' k) eqn:E.
  - apply String.eqb_eq in E as ->. by intros [= ->].
  - intros Hlookup. by rewrite IH.
Qed.

Lemma assignProps_fresh base extra :
  wellFormed (base ++ extra) → Js.assignProps base extra = base ++ extra.
Proof.
  unfold wellFormed, Js.assignProps. revert base.
  induction extra as [|[k v] extra IH]; intros base Hnodup; simpl.
  - by rewrite app_nil_r.
  - rewrite setProp_fresh.
    + rewrite IH; rewrite <- app_assoc; done.
    + rewrite map_app in Hnodup. apply NoDup_app in Hnodup as (_ & Hdisjoint & _).
      intros Hin. apply (Hdisjoint _ Hin). by left.
Qed.

Lemma literal_wellFormed props : wellFormed props → Js.literal props = props.
Proof. intros Hwf. unfold Js.literal. by rewrite assignProps_fresh. Qed.

Lemma assignProps_snoc base extra k v :
  Js.assignProps base (extra ++ [(k, v)]) = Js.setProp k v (Js.assignProps base extra).
Proof. unfold Js.assignProps. by rewrite foldl_app. Qed.

Lemma setProp_wellFormed k v props : wellFormed props → wellFormed (Js.setProp k v props).
Proof.
  unfold wellFormed. intros Hwf.
  destruct (Js.lookupProp k props) as [v0|] eqn:E.
  - by rewrite (setProp_keys _ _ _ _ E).
  - apply lookupProp_None in E. rewrite setProp_fresh, map_app by done. simpl.
    apply NoDup_app. split_and!; [done| |apply NoDup_singleton].
    intros k' Hk' ->%list_elem_of_singleton. done.
Qed.

(** ** Redaction *)

Lemma getProp_redact k props header :
  Js.getProp k (DTOMapper.redact props header) =
  if String.eqb header k && Js.truthy (Js.getProp k props)
  then Js.Str "[REDACTED]" else Js.getProp k props.
Proof.
  unfold DTOMapper.redact.
  destruct (String.eqb header k) eqn:E; simpl.
  - apply String.eqb_eq in E as ->.
    destruct (Js.truthy (Js.getProp k props)); [|done].
    unfold Js.getProp. by rewrite lookupProp_setProp, String.eqb_refl.
  - destruct (Js.truthy (Js.getProp header props)); [|done].
    unfold Js.getProp. by rewrite lookupProp_setProp, E.
Qed.

Lemma redact_keys props header :
  Js.inherited header = Js.Undefined →
  map fst (DTOMapper.redact props header) = map fst props.
Proof.
  intros Hplain. unfold DTOMapper.redact, Js.getProp.
  destruct (Js.lookupProp header props) as [v0|] eqn:E; simpl; [|by rewrite Hplain].
  destruct (Js.truthy v0); [|done]. by rewrite (setProp_keys _ _ _ _ E).
Qed.

Lemma getProp_redacted k props names :
  Js.getProp k (foldl DTOMapper.redact props names) =
  if bool_decide (k ∈ names) && Js.truthy (Js.getProp k props)
  then Js.Str "[REDACTED]" else Js.getProp k props.
Proof.
  revert props. induction names as [|header names IH]; intros props; simpl; [done|].
  rewrite IH, getProp_redact.
  destruct (String.eqb header k) eqn:E; simpl.
  - apply String.eqb_eq in E as ->.
    rewrite (bool_decide_eq_true_2 (k ∈ k :: names)) by by left. simpl.
    destruct (Js.truthy (Js.getProp k props)) eqn:Hv; simpl.
    + by destruct (bool_decide (k ∈ names)).
    + rewrite Hv. by destruct (bool_decide (k ∈ names)).
  - apply String.eqb_neq in E.
    destruct (decide (k ∈ names)) as [Hin|Hnotin].
    + rewrite !bool_decide_eq_true_2; [done|by right|done].
    + rewrite !bool_decide_eq_false_2; [done| |done].
      rewrite not_elem_of_cons. by split; [apply not_eq_sym|].
Qed.

Lemma redacted_keys props names :
  Forall (fun header => Js.inherited header = Js.Undefined) names →
  map fst (foldl DTOMapper.redact props names) = map fst props.
Proof.
  intros Hplain. revert props.
  induction Hplain as [|header names Hheader _ IH]; intros props; simpl; [done|].
  by rewrite IH, redact_keys.
Qed.

Lemma sensitiveHeaders_plain :
  Forall (fun header => Js.inherited header = Js.Undefined) DTOMapper.sensitiveHeaders.
Proof. by repeat constructor. Qed.

Lemma redact_again props header :
  (Js.truthy (Js.getProp header props) = true →
   Js.getProp header props = Js.Str "[REDACTED]") →
  DTOMapper.redact props header = props.
Proof.
  unfold DTOMapper.redact, Js.getProp.
  destruct (Js.lookupProp header props) as [v0|] eqn:E; simpl.
  - destruct (Js.truthy v0); [|done]. intros Hv. specialize (Hv eq_refl). subst v0.
    by apply setProp_same.
  - destruct (Js.truthy (Js.inherited header)); [|done]. intros Hv.
    specialize (Hv eq_refl).
    by destruct (inherited_cases header) as [Heq|[Heq|[name Heq]]]; rewrite Heq in Hv.
Qed.

Lemma redacted_again props names :
  foldl DTOMapper.redact (foldl DTOMapper.redact props names) names =
  foldl DTOMapper.redact props names.
Proof.
  assert (∀ l, (∀ h, h ∈ names → Js.truthy (Js.getProp h l) = true →
                     Js.getProp h l = Js.Str "[REDACTED]") →
               foldl DTOMapper.redact l names = l) as Hfixed.
  { induction names as [|header names IH]; intros l Hl; simpl; [done|].
    rewrite redact_again by (apply Hl; by left).
    apply IH. intros h Hh. apply Hl. by right. }
  apply Hfixed. intros h Hh. rewrite getProp_redacted.
  rewrite bool_decide_eq_true_2 by done. simpl.
  by destruct (Js.truthy (Js.getProp h props)) eqn:E; [|rewrite E].
Qed.

Lemma sanitize_wellFormed next r dtoProps headers :
  wellFormed dtoProps →
  wellFormed (Js.ownEntries headers) →
  Js.lookupProp "headers" dtoProps = Some headers →
  DTOMapper.sanitizeWebhookRequestDTO next (Js.Obj r dtoProps) =
  Ok (Js.Obj (next + 2)
        (Js.setProp "headers"
           (Js.Obj next (foldl DTOMapper.redact (Js.ownEntries headers)
                           DTOMapper.sensitiveHeaders))
           dtoProps)).
Proof.
  intros Hdto Hheaders Hlookup.
  unfold DTOMapper.sanitizeWebhookRequestDTO.
  change (Js.member (Js.Obj r dtoProps) "headers")
    with (Ok (Js.getProp "headers" dtoProps) : Result Js.Val).
  unfold Js.getProp. rewrite Hlookup.
  change (Js.ownEntries (Js.Obj r dtoProps)) with dtoProps.
  unfold mbind, Result_bind, Js.literal. cbn [default from_option id].
  rewrite assignProps_snoc. by rewrite !assignProps_fresh.
Qed.

(** X23. [sanitizeWebhookRequestDTO] returns a new object whose
    properties are those of the DTO, except that [headers] is a copy of
    the DTO's headers in which each of [authorization], [cookie],
    [x-api-key], [x-auth-token] that has a truthy value reads
    [[REDACTED]]. The copy has the same header names in the same order
    (nothing is added or dropped), and every other header, a credential
    under a differently spelled or capitalised name included, keeps its
    value. *)
Theorem sanitize_redacts_the_sensitive_headers (next r : nat)
    (dtoProps : list (string * Js.Val)) (headers : Js.Val) :
  wellFormed dtoProps →
  wellFormed (Js.ownEntries headers) →
  Js.lookupProp "headers" dtoProps = Some headers →
  ∃ props sanitized,
    DTOMapper.sanitizeWebhookRequestDTO next (Js.Obj r dtoProps)
      = Ok (Js.Obj (next + 2) props) ∧
    Js.getProp "headers" props = Js.Obj next sanitized ∧
    (∀ k, k ≠ "headers" → Js.getProp k props = Js.getProp k dtoProps) ∧
    map fst props = map fst dtoProps ∧
    map fst sanitized = map fst (Js.ownEntries headers) ∧
    (∀ k, Js.getProp k sanitized =
          if bool_decide (k ∈ DTOMapper.sensitiveHeaders) &&
             Js.truthy (Js.getProp k (Js.ownEntries headers))
          then Js.Str "[REDACTED]"
          else Js.getProp k (Js.ownEntries headers)).
Proof.
  intros Hdto Hheaders Hlookup.
  rewrite (sanitize_wellFormed _ _ _ _ Hdto Hheaders Hlookup).
  do 2 eexists. split; [reflexivity|]. split_and!.
  - unfold Js.getProp. by rewrite lookupProp_setProp, String.eqb_refl.
  - intros k Hk. apply not_eq_sym, String.eqb_neq in Hk.
    unfold Js.getProp. by rewrite lookupProp_setProp, Hk.
  - by rewrite (setProp_keys _ _ _ _ Hlookup).
  - apply redacted_keys, sensitiveHeaders_plain.
  - intros k. apply getProp_redacted.
Qed.

Lemma sanitize_redacts_the_sensitive_headers_witness :
  ∃ props sanitized,
    DTOMapper.sanitizeWebhookRequestDTO 100 (Js.Obj 1 credentialDTO)
      = Ok (Js.Obj (100 + 2) props) ∧
    Js.getProp "headers" props = Js.Obj 100 sanitized ∧
    (∀ k, k ≠ "headers" → Js.getProp k props = Js.getProp k credentialDTO) ∧
    map fst props = map fst credentialDTO ∧
    map fst sanitized = map fst (Js.ownEntries (Js.Obj 7 credentialHeaders)) ∧
    (∀ k, Js.getProp k sanitized =
          if bool_decide (k ∈ DTOMapper.sensitiveHeaders) &&
             Js.truthy (Js.getProp k (Js.ownEntries (Js.Obj 7 credentialHeaders)))
          then Js.Str "[REDACTED]"
          else Js.getProp k (Js.ownEntries (Js.Obj 7 credentialHeaders))).
Proof.
  apply (sanitize_redacts_the_sensitive_headers 100 1 credentialDTO
           (Js.Obj 7 credentialHeaders)).
  - unfold wellFormed. simpl. repeat (apply NoDup_cons; split; [set_solver|]).
    apply NoDup_nil_2.
  - unfold wellFormed. simpl. repeat (apply NoDup_cons; split; [set_solver|]).
    apply NoDup_nil_2.
  - reflexivity.
Defined.

(** X24. Sanitizing is idempotent: sanitizing the result of a
    sanitization again yields an object with the same properties and
    the same headers (only the identities of the fresh objects
    differ). *)
Theorem sanitize_twice_is_sanitize_once (next next' r : nat)
    (dtoProps : list (string * Js.Val)) (headers : Js.Val)
    (props sanitized : list (string * Js.Val)) :
  wellFormed dtoProps →
  wellFormed (Js.ownEntries headers) →
  Js.lookupProp "headers" dtoProps = Some headers →
  DTOMapper.sanitizeWebhookRequestDTO next (Js.Obj r dtoProps)
    = Ok (Js.Obj (next + 2) props) →
  Js.getProp "headers" props = Js.Obj next sanitized →
  ∃ props',
    DTOMapper.sanitizeWebhookRequestDTO next' (Js.Obj (next + 2) props)
      = Ok (Js.Obj (next' + 2) props') ∧
    Js.getProp "headers" props' = Js.Obj next' sanitized ∧
    map fst props' = map fst props ∧
    (∀ k, k ≠ "headers" → Js.getProp k props' = Js.getProp k props).
Proof.
  intros Hdto Hheaders Hlookup.
  rewrite (sanitize_wellFormed _ _ _ _ Hdto Hheaders Hlookup).
  intros [= <-]. unfold Js.getProp at 1.
  rewrite lookupProp_setProp, String.eqb_refl. simpl. intros [= <-].
  rewrite (sanitize_wellFormed next' _ _
             (Js.Obj next (foldl DTOMapper.redact (Js.ownEntries headers)
                             DTOMapper.sensitiveHeaders))).
  - change (Js.ownEntries (Js.Obj next ?l)) with l. rewrite redacted_again.
    eexists. split; [reflexivity|]. split_and!.
    + unfold Js.getProp. by rewrite lookupProp_setProp, String.eqb_refl.
    + erewrite setProp_keys; [done|]. by rewrite lookupProp_setProp, String.eqb_refl.
    + intros k Hk. apply not_eq_sym, String.eqb_neq in Hk.
      unfold Js.getProp. by rewrite !lookupProp_setProp, Hk.
  - by apply setProp_wellFormed.
  - unfold wellFormed.
    change (Js.ownEntries (Js.Obj next ?l)) with l.
    by rewrite redacted_keys by apply sensitiveHeaders_plain.
  - by rewrite lookupProp_setProp, String.eqb_refl.
Qed.

Lemma sanitize_twice_is_sanitize_once_witness :
  ∃ props',
    DTOMapper.sanitizeWebhookRequestDTO 200
      (Js.Obj (100 + 2)
         [("id", Js.Str "r1");
          ("headers", Js.Obj 100 [("authorization", Js.Str "[REDACTED]");
                                  ("accept", Js.Str "*/*")])])
      = Ok (Js.Obj (200 + 2) props') ∧
    Js.getProp "headers" props' =
      Js.Obj 200 [("authorization", Js.Str "[REDACTED]"); ("accept", Js.Str "*/*")] ∧
    map fst props' =
      map fst [("id", Js.Str "r1");
               ("headers", Js.Obj 100 [("authorization", Js.Str "[REDACTED]");
                                       ("accept", Js.Str "*/*")])] ∧
    (∀ k, k ≠ "headers" →
          Js.getProp k props' =
          Js.getProp k [("id", Js.Str "r1");
                        ("headers", Js.Obj 100 [("authorization", Js.Str "[REDACTED]");
                                                ("accept", Js.Str "*/*")])]).
Proof.
  apply (sanitize_twice_is_sanitize_once 100 200 1 credentialDTO
           (Js.Obj 7 credentialHeaders)).
  - unfold wellFormed. simpl. repeat (apply NoDup_cons; split; [set_solver|]).
    apply NoDup_nil_2.
  - unfold wellFormed. simpl. repeat (apply NoDup_cons; split; [set_solver|]).
    apply NoDup_nil_2.
  - reflexivity.
  - reflexivity.
  - reflexivity.
Defined.

(** ** Validators *)

Lemma member_total dto k :
  dto ≠ Js.Undefined → dto ≠ Js.Null → ∃ v, Js.member dto k = Ok v.
Proof. destruct dto; try done; simpl; repeat case_match; by eexists. Qed.

Lemma allOf_hasType dto fields :
  (∀ k, ∃ v, Js.member dto k = Ok v) →
  DTOMapper.allOf (map (fun field => DTOMapper.hasType dto field.1 field.2) fields) =
  Ok (forallb (fun field =>
                 match Js.member dto field.1 with
                 | Ok v => String.eqb (typeOf v) field.2
                 | Throw _ => false
                 end) fields).
Proof.
  intros Htotal. induction fields as [|[k type] fields IH]; simpl; [done|].
  unfold DTOMapper.hasType in *. destruct (Htotal k) as (v & Hv). rewrite Hv. simpl.
  destruct (String.eqb (typeOf v) type); [exact IH|done].
Qed.

Lemma forallb_fieldsTyped dto fields :
  forallb (fun field =>
             match Js.member dto field.1 with
             | Ok v => String.eqb (typeOf v) field.2
             | Throw _ => false
             end) fields = true ↔ fieldsTyped dto fields.
Proof.
  rewrite forallb_forall. unfold fieldsTyped. split.
  - intros Hall k type Hin%list_elem_of_In. specialize (Hall _ Hin). simpl in Hall.
    destruct (Js.member dto k) as [v|]; [|done].
    exists v. split; [done|]. by apply String.eqb_eq.
  - intros Hall [k type] Hin%list_elem_of_In.
    destruct (Hall _ _ Hin) as (v & Hv & Htype). simpl. rewrite Hv.
    by apply String.eqb_eq.
Qed.

Lemma validator_object dto fields :
  typeOf dto = "object" → dto ≠ Js.Null →
  ∃ b,
    DTOMapper.allOf (Ok (String.eqb (typeOf dto) "object")
                     :: map (fun field => DTOMapper.hasType dto field.1 field.2) fields)
      = Ok b ∧
    (b = true ↔ fieldsTyped dto fields).
Proof.
  intros Htype Hnull. eexists. split.
  - cbn [DTOMapper.allOf]. rewrite Htype. simpl.
    apply allOf_hasType. intros k. apply member_total; [|done]. by intros ->.
  - apply forallb_fieldsTyped.
Qed.

Lemma validator_cases dto fields k type :
  let validator :=
    DTOMapper.allOf (Ok (String.eqb (typeOf dto) "object")
                     :: map (fun field => DTOMapper.hasType dto field.1 field.2)
                          ((k, type) :: fields)) in
  (dto = Js.Null →
   validator = typeError ("Cannot read properties of null (reading '" +:+ k +:+ "')")) ∧
  (dto ≠ Js.Null → ∃ b, validator = Ok b) ∧
  (validator = Ok true ↔
     dto ≠ Js.Null ∧ typeOf dto = "object" ∧ fieldsTyped dto ((k, type) :: fields)).
Proof.
  intros validator. unfold validator. clear validator.
  destruct dto;
    try (edestruct validator_object as (b & -> & Hb); [done..|];
         split_and!; [done|by eexists|];
         split; [intros [= ->]; split_and!; [done..|by apply Hb]
                |intros (_ & _ & ->%Hb); done]).
  - split_and!; [done|by eexists|]. split; [done|by intros (_ & ? & _)].
  - split_and!; [done|done|]. split; [done|by intros [? _]].
  - split_and!; [done|by eexists|]. split; [done|by intros (_ & ? & _)].
  - split_and!; [done|by eexists|]. split; [done|by intros (_ & ? & _)].
  - split_and!; [done|by eexists|]. split; [done|by intros (_ & ? & _)].
  - split_and!; [done|by eexists|]. split; [done|by intros (_ & ? & _)].
Qed.

(** X25. The validators of the DTO mapper answer [false], without
    throwing, for every value that is not an object, and for an object
    they answer [true] exactly when each required field has the
    required [typeof] (optional fields are not looked at, and [headers]
    and [queryParams] may be [null] or arrays, whose [typeof] is
    [object] too). The one value they do not answer for is [null]:
    there they throw a TypeError instead of returning [false]. *)
Theorem dto_validators_throw_on_null_only (dto : Js.Val) :
  (dto = Js.Null →
   DTOMapper.validateWebhookRequestDTO dto =
     typeError "Cannot read properties of null (reading 'id')" ∧
   DTOMapper.validateWebhookConfigDTO dto =
     typeError "Cannot read properties of null (reading 'id')") ∧
  (dto ≠ Js.Null →
   (∃ b, DTOMapper.validateWebhookRequestDTO dto = Ok b) ∧
   (∃ b, DTOMapper.validateWebhookConfigDTO dto = Ok b)) ∧
  (DTOMapper.validateWebhookRequestDTO dto = Ok true ↔
     dto ≠ Js.Null ∧ typeOf dto = "object" ∧ fieldsTyped dto requestFieldTypes) ∧
  (DTOMapper.validateWebhookConfigDTO dto = Ok true ↔
     dto ≠ Js.Null ∧ typeOf dto = "object" ∧ fieldsTyped dto configFieldTypes).
Proof.
  destruct (validator_cases dto (tail requestFieldTypes) "id" "string")
    as (Hnull & Hother & Htrue).
  destruct (validator_cases dto (tail configFieldTypes) "id" "string")
    as (Hnull' & Hother' & Htrue').
  split_and!.
  - intros Hdto. split; [exact (Hnull Hdto)|exact (Hnull' Hdto)].
  - intros Hdto. split; [exact (Hother Hdto)|exact (Hother' Hdto)].
  - exact Htrue.
  - exact Htrue'.
Qed.

(** ** Conversions between requests and DTOs *)

Section Conversion.
Context `{Host}.
Variable isoString : Z → string.

Lemma toWebhookRequestDTOs_valid next requests :
  Forall (fun r => is_Some (date_time (req_timestamp r))) requests →
  ∃ dtos,
    DTOMapper.toWebhookRequestDTOs isoString next requests = Ok dtos ∧
    map DTOMapper.dto_id dtos = map req_id requests.
Proof.
  intros Hvalid. revert next.
  induction Hvalid as [|r requests [t Ht] _ IH]; intros next; simpl.
  - by exists [].
  - destruct (IH (next + 2)%nat) as (dtos & -> & Hids).
    unfold DTOMapper.toWebhookRequestDTO. rewrite Ht. simpl.
    eexists. split; [reflexivity|]. simpl. by rewrite Hids.
Qed.

Lemma toWebhookRequestDTOs_invalid next requests :
  Exists (fun r => date_time (req_timestamp r) = None) requests →
  DTOMapper.toWebhookRequestDTOs isoString next requests =
    Throw (ThrownError "Invalid time value").
Proof.
  intros Hinvalid. revert next.
  induction Hinvalid as [r requests Hr|r requests _ IH]; intros next; simpl.
  - unfold DTOMapper.toWebhookRequestDTO. by rewrite Hr.
  - rewrite IH. unfold DTOMapper.toWebhookRequestDTO.
    by destruct (date_time (req_timestamp r)).
Qed.

End Conversion.

(** X21. Converting a request to a DTO and back gives the request
    again but for [extraPath], which a DTO does not carry and the
    result lacks: every other field is the same, [headers] and
    [queryParams] are the very same objects (the DTO shares them with
    the request, it does not copy them), and the timestamp is a new
    date with the same time value, provided the host parses the text
    [toISOString] gave for it. So a captured request that has path
    segments after the endpoint id does not survive the round trip,
    and one without them does, up to the identity of the record and of
    its date. The DTO gets the defaults [processed] false, [tags]
    empty, [priority] medium, [retryCount] 0. A request whose timestamp
    is an invalid date cannot be converted: [toWebhookRequestDTO]
    throws a RangeError, and converting a list of requests throws as
    soon as one of them is such a request. The other direction never
    throws, so a DTO with an unparsable timestamp yields a request that
    cannot be converted back. *)
Theorem request_dto_round_trip `{Host} (isoString : Z → string) (next next' : nat)
    (request : WebhookRequest) (t : Z) :
  date_time (req_timestamp request) = Some t →
  dateParse (isoString t) = Some t →
  (∃ dto,
     DTOMapper.toWebhookRequestDTO isoString next request = Ok dto ∧
     DTOMapper.fromWebhookRequestDTO next' dto =
       {| req_ref := next'; req_id := req_id request;
          req_webhookId := req_webhookId request; req_method := req_method request;
          req_path := req_path request; req_extraPath := None;
          req_headers := req_headers request;
          req_body := req_body request; req_queryParams := req_queryParams request;
          req_timestamp := {| date_ref := S next'; date_time := Some t |};
          req_ip := req_ip request; req_userAgent := req_userAgent request;
          req_contentType := req_contentType request;
          req_bodySize := req_bodySize request |} ∧
     (DTOMapper.fromWebhookRequestDTO next' dto =
        {| req_ref := next'; req_id := req_id request;
           req_webhookId := req_webhookId request; req_method := req_method request;
           req_path := req_path request; req_extraPath := req_extraPath request;
           req_headers := req_headers request;
           req_body := req_body request; req_queryParams := req_queryParams request;
           req_timestamp := {| date_ref := S next'; date_time := Some t |};
           req_ip := req_ip request; req_userAgent := req_userAgent request;
           req_contentType := req_contentType request;
           req_bodySize := req_bodySize request |}
      ↔ req_extraPath request = None) ∧
     DTOMapper.dto_timestamp dto = isoString t ∧
     DTOMapper.dto_processed dto = Some false ∧
     DTOMapper.dto_tags dto = Some (S next, []) ∧
     DTOMapper.dto_priority dto = Some "medium" ∧
     DTOMapper.dto_retryCount dto = Some 0) ∧
  (∀ requests,
     (Forall (fun r => is_Some (date_time (req_timestamp r))) requests →
      ∃ dtos, DTOMapper.toWebhookRequestDTOs isoString next requests = Ok dtos ∧
              map DTOMapper.dto_id dtos = map req_id requests) ∧
     (Exists (fun r => date_time (req_timestamp r) = None) requests →
      DTOMapper.toWebhookRequestDTOs isoString next requests =
        Throw (ThrownError "Invalid time value"))) ∧
  (∀ dto,
     dateParse (DTOMapper.dto_timestamp dto) = None →
     DTOMapper.toWebhookRequestDTO isoString next
       (DTOMapper.fromWebhookRequestDTO next' dto) =
       Throw (ThrownError "Invalid time value")).
Proof.
  intros Htime Hparse. split_and!.
  - unfold DTOMapper.toWebhookRequestDTO. rewrite Htime. simpl.
    eexists. split; [reflexivity|].
    unfold DTOMapper.fromWebhookRequestDTO. simpl. rewrite Hparse.
    split_and!; try done. split; [by intros [= <-] | by intros ->].
  - intros requests. split.
    + apply toWebhookRequestDTOs_valid.
    + apply toWebhookRequestDTOs_invalid.
  - intros dto Hinvalid. unfold DTOMapper.toWebhookRequestDTO. simpl.
    by rewrite Hinvalid.
Qed.

Lemma request_dto_round_trip_witness :
  ∃ dto,
    @DTOMapper.toWebhookRequestDTO utcISOString 100 (nestedRequest 10 "POST" 1000)
      = Ok dto ∧
    @DTOMapper.fromWebhookRequestDTO referenceHost 200 dto =
      {| req_ref := 200; req_id := "r10"; req_webhookId := "hook01";
         req_method := "POST"; req_path := "/hook01/orders/7";
         req_extraPath := None;
         req_headers := {| sm_ref := 11; sm_entries := [("content-type", "text/plain")] |};
         req_body := "ping";
         req_queryParams := {| sm_ref := 12; sm_entries := [] |};
         req_timestamp := {| date_ref := 201; date_time := Some 1000 |};
         req_ip := Some "10.0.0.1"; req_userAgent := Some "curl/8.0";
         req_contentType := Some "text/plain"; req_bodySize := 4 |} ∧
    (@DTOMapper.fromWebhookRequestDTO referenceHost 200 dto =
       {| req_ref := 200; req_id := "r10"; req_webhookId := "hook01";
          req_method := "POST"; req_path := "/hook01/orders/7";
          req_extraPath := Some {| arr_ref := 14; arr_elems := ["orders"; "7"] |};
          req_headers := {| sm_ref := 11; sm_entries := [("content-type", "text/plain")] |};
          req_body := "ping";
          req_queryParams := {| sm_ref := 12; sm_entries := [] |};
          req_timestamp := {| date_ref := 201; date_time := Some 1000 |};
          req_ip := Some "10.0.0.1"; req_userAgent := Some "curl/8.0";
          req_contentType := Some "text/plain"; req_bodySize := 4 |}
     ↔ Some {| arr_ref := 14; arr_elems := ["orders"; "7"] |} = None) ∧
    DTOMapper.dto_timestamp dto = "1970-01-01T00:00:01.000Z" ∧
    DTOMapper.dto_processed dto = Some false ∧
    DTOMapper.dto_tags dto = Some (101%nat, []) ∧
    DTOMapper.dto_priority dto = Some "medium" ∧
    DTOMapper.dto_retryCount dto = Some 0.
Proof.
  apply (proj1 (request_dto_round_trip (H := referenceHost) utcISOString 100 200
                  (nestedRequest 10 "POST" 1000) 1000 eq_refl eq_refl)).
Defined.

(** * Part V: the job control endpoint *)

Section Control.
Context `{Host}.

Lemma cancelJob_false now jobId st :
  snd (cancelJob now jobId st) = false → fst (cancelJob now jobId st) = st.
Proof.
  unfold cancelJob. destruct (jobs st !! jobId); [|done].
  by destruct (decide (jobId ∈ activeJobs st)).
Qed.


Lemma PATCH_start_refused now body jobId st job :
  Js.member body "jobId" = Ok (Js.Str jobId) →
  Js.member body "action" = Ok (Js.Str "start") →
  jobId ≠ EmptyString →
  getJob jobId st = Some job →
  job_status (heap st job) ≠ pending →
  PATCH now (Ok body) st = (st, failure 400 "Job is not in pending status", None).
Proof.
  intros HjobId Haction Hid Hjob Hstatus.
  assert (destructure body "jobId" = Ok (Js.Str jobId)) as HjobId'
    by (by destruct body).
  assert (destructure body "action" = Ok (Js.Str "start")) as Haction'
    by (by destruct body).
  assert (Js.truthy (Js.Str jobId) = true) as Htruthy.
  { simpl. apply negb_true_iff. by apply String.eqb_neq. }
  unfold PATCH. rewrite HjobId', Haction', Htruthy.
  cbn [negb orb getJobOf Js.truthy]. rewrite Hjob.
  cbn [Js.strictEq]. by rewrite bool_decide_eq_false_2.
Qed.

End Control.

(** X26. The PATCH handler changes the engine only when it answers 200:
    every other response (400, 404 or 500) leaves the registered jobs,
    the active set and every job object as they were and starts
    nothing. A 200 response is the only one with [success] true. *)
Theorem PATCH_changes_the_engine_only_on_success `{Host} (now : string)
    (json : Result Js.Val) (st : State) :
  let st' := fst (fst (PATCH now json st)) in
  let response := snd (fst (PATCH now json st)) in
  let started := snd (PATCH now json st) in
  res_status response ∈ [200; 400; 404; 500] ∧
  (res_success response = true ↔ res_status response = 200) ∧
  (res_status response ≠ 200 → st' = st ∧ started = None).
Proof.
  unfold PATCH.
  destruct json as [body|e]; [|simpl; split_and!; [set_solver|done|done]].
  destruct (destructure body "jobId") as [jobId|e];
    [|simpl; split_and!; [set_solver|done|done]].
  destruct (destructure body "action") as [action|e];
    [|simpl; split_and!; [set_solver|done|done]].
  destruct (negb (Js.truthy jobId) || negb (Js.truthy action));
    [simpl; split_and!; [set_solver|done|done]|].
  destruct (getJobOf jobId st) as [job|];
    [|simpl; split_and!; [set_solver|done|done]].
  destruct (Js.strictEq action (Js.Str "start")).
  { destruct (negb (bool_decide (job_status (heap st job) = pending)));
      [simpl; split_and!; [set_solver|done|done]|].
    destruct (executeJob now job st) as [st' started]. simpl.
    split_and!; [set_solver|done|done]. }
  destruct (Js.strictEq action (Js.Str "cancel"));
    [|simpl; split_and!; [set_solver|done|done]].
  destruct jobId as [| | | |s| | | | |]; try (simpl; split_and!; [set_solver|done|done]).
  unfold cancelJobOf.
  destruct (cancelJob now s st) as [st' cancelled'] eqn:Hcancel.
  destruct cancelled'; simpl; (split_and!; [set_solver|done|]); [done|].
  intros _. split; [|done].
  pose proof (cancelJob_false now s st) as Hsame. rewrite Hcancel in Hsame.
  by apply Hsame.
Qed.



(** X28. Through the endpoint a job is started at most once: from the
    moment a run of a registered job has begun, every PATCH [start] for
    that job is refused with 400 and changes nothing, at each later
    point of the run and after it has settled or has been cancelled. *)
Theorem PATCH_starts_a_job_at_most_once `{Host} (now now' : string) (job : loc)
    (st : State) (events : list Event) (body : Js.Val) :
  job_id (heap st job) ∉ activeJobs st →
  job_id (heap st job) ≠ EmptyString →
  Js.member body "jobId" = Ok (Js.Str (job_id (heap st job))) →
  Js.member body "action" = Ok (Js.Str "start") →
  let st' := fst (runEvents (job_id (heap st job)) events (executeJob now job st)) in
  PATCH now' (Ok body) st' = (st', failure 400 "Job is not in pending status", None).
Proof.
  intros Hidle Hid HjobId Haction st'.
  destruct (runEvents_footprint _ _ events _ (runInvariant_start now job st Hidle))
    as ((Hjobs & p & _ & Hrest) & _ & _).
  fold st' in Hjobs, Hrest.
  apply (PATCH_start_refused now' body (job_id (heap st job)) st' job); try done.
  destruct (snd (runEvents (job_id (heap st job)) events (executeJob now job st)))
    as [run|outcome].
  - destruct Hrest as (_ & _ & _ & _ & [-> | ->]); done.
  - destruct Hrest as (_ & [(-> & _) | (-> & _)]); done.
Qed.

Lemma PATCH_starts_a_job_at_most_once_witness :
  @PATCH referenceHost "2024-01-05T00:00:00.000Z" (Ok startBody)
    (fst (@runEvents referenceHost "job1"
            [Resumes (sampleWorld "2024-01-03T00:00:00.000Z");
             Cancels "2024-01-03T00:00:00.500Z"]
            (executeJob "2024-01-02T00:00:00.000Z" 0%nat (sampleState None)))) =
    (fst (@runEvents referenceHost "job1"
            [Resumes (sampleWorld "2024-01-03T00:00:00.000Z");
             Cancels "2024-01-03T00:00:00.500Z"]
            (executeJob "2024-01-02T00:00:00.000Z" 0%nat (sampleState None))),
     failure 400 "Job is not in pending status", None).
Proof.
  apply (PATCH_starts_a_job_at_most_once (H := referenceHost)
           "2024-01-02T00:00:00.000Z" "2024-01-05T00:00:00.000Z" 0%nat
           (sampleState None)
           [Resumes (sampleWorld "2024-01-03T00:00:00.000Z");
            Cancels "2024-01-03T00:00:00.500Z"] startBody).
  - apply not_elem_of_empty.
  - discriminate.
  - reflexivity.
  - reflexivity.
Defined.

(** * Part VI: bulk operations of the admin dispatcher *)

Section Bulk.
Import AdminDispatcher.

Lemma successes_snoc results r :
  successes (results ++ [r]) = successes results + (if result_success r then 1 else 0).
Proof.
  unfold successes. rewrite List.filter_app, length_app. simpl.
  destruct (result_success r); simpl; lia.
Qed.

Lemma failures_snoc results r :
  failures (results ++ [r]) = failures results + (if result_success r then 0 else 1).
Proof.
  unfold failures. rewrite List.filter_app, length_app. simpl.
  destruct (result_success r); simpl; lia.
Qed.

Lemma successes_failures results :
  successes results + failures results = Z.of_nat (length results).
Proof.
  unfold successes, failures.
  rewrite <- (List.filter_length result_success results). lia.
Qed.

(** One pass of the loop appends the entry of its target and counts it
    once. *)
Lemma pass_appends storageManager ref operation targetId results :
  op_results operation = Some results →
  let entry := resultOf targetId (processTarget storageManager ref operation targetId) in
  pass storageManager ref operation targetId =
    Ok ((if result_success entry then countCompleted else countFailed)
          (withResults (results ++ [entry]) operation)).
Proof.
  intros Hresults entry. unfold entry, pass, attempt, push.
  destruct (processTarget storageManager ref operation targetId) as [success|err];
    simpl; rewrite Hresults; simpl; [by destruct success|done].
Qed.

Lemma processTarget_ext storageManager ref operation operation' targetId :
  op_type operation' = op_type operation →
  op_parameters operation' = op_parameters operation →
  processTarget storageManager ref operation' targetId =
  processTarget storageManager ref operation targetId.
Proof. unfold processTarget. by intros -> ->. Qed.

(** What the loop leaves: one entry per target, in order, and the two
    counters advanced by the successes and the failures. *)
Lemma forEachTarget_appends storageManager next k operation targets d results :
  op_results (operations d operation) = Some results →
  let before := operations d operation in
  let entries :=
    imap (fun i targetId =>
            resultOf targetId
              (processTarget (storageManager (k + i)%nat) (next + (k + i))%nat
                 before targetId)) targets in
  ∃ d',
    forEachTarget storageManager next k operation targets d = (d', Ok ()) ∧
    operations d' operation =
      withProgress
        {| progress_total := progress_total (op_progress before);
           progress_completed :=
             progress_completed (op_progress before) + successes entries;
           progress_failed := progress_failed (op_progress before) + failures entries |}
        (withResults (results ++ entries) before) ∧
    (∀ other, other ≠ operation → operations d' other = operations d other) ∧
    (∀ otherId, otherId ≠ op_id before →
       bulkOperations d' !! otherId = bulkOperations d !! otherId) ∧
    (targets ≠ [] → bulkOperations d' !! op_id before = Some operation).
Proof.
  revert k d results.
  induction targets as [|targetId targets IH]; intros k d results Hresults before entries.
  - exists d. simpl. split_and!; try done.
    unfold entries, successes, failures. simpl. rewrite !Z.add_0_r, app_nil_r.
    unfold before. destruct (operations d operation) as [? ? ? ? ? [] ? ? ?].
    simpl in *. by subst.
  - simpl. rewrite (pass_appends _ _ _ _ _ Hresults).
    set (entry := resultOf targetId
                    (processTarget (storageManager k) (next + k)%nat
                       (operations d operation) targetId)).
    set (after := (if result_success entry then countCompleted else countFailed)
                    (withResults (results ++ [entry]) (operations d operation))).
    set (d1 := register operation (update operation (fun _ => after) d)).
    assert (operations d1 operation = after) as Hafter.
    { unfold d1, register, update. simpl. apply fn_lookup_alter. }
    assert (op_results after = Some (results ++ [entry])) as Hresults1.
    { unfold after. by destruct (result_success entry). }
    destruct (IH (S k) d1 (results ++ [entry])) as (d' & Hloop & Hop & Hothers & Hids & _).
    { by rewrite Hafter. }
    exists d'. split; [exact Hloop|]. rewrite Hafter in Hop, Hids.
    assert (op_type after = op_type before ∧ op_parameters after = op_parameters before ∧
            op_id after = op_id before) as (Htype & Hparameters & Hid).
    { unfold after, before. by destruct (result_success entry). }
    assert (entries =
            entry :: imap (fun i targetId0 =>
                      resultOf targetId0
                        (processTarget (storageManager (S k + i)%nat)
                           (next + (S k + i))%nat after targetId0)) targets) as Hentries.
    { unfold entries. simpl. rewrite !Nat.add_0_r. f_equal.
      apply imap_ext. intros i t _. simpl.
      rewrite (processTarget_ext _ _ _ _ _ Htype Hparameters).
      by replace (k + S i)%nat with (S (k + i)) by lia. }
    split_and!.
    + rewrite Hop, Hentries.
      generalize (imap (fun i targetId0 =>
                    resultOf targetId0
                      (processTarget (storageManager (S k + i)%nat)
                         (next + (S k + i))%nat after targetId0)) targets).
      intros l.
      assert (successes (entry :: l) =
              (if result_success entry then 1 else 0) + successes l) as ->.
      { unfold successes. simpl. destruct (result_success entry); simpl; lia. }
      assert (failures (entry :: l) =
              (if result_success entry then 0 else 1) + failures l) as ->.
      { unfold failures. simpl. destruct (result_success entry); simpl; lia. }
      unfold after, before, countCompleted, countFailed, withProgress, withResults.
      rewrite <- app_assoc.
      destruct (result_success entry); simpl; f_equal; f_equal; lia.
    + intros other Hne. rewrite Hothers by done.
      unfold d1, register, update. simpl. by apply fn_lookup_alter_ne.
    + intros otherId Hne. rewrite Hid in Hids. rewrite Hids by done.
      unfold d1, register, update. simpl.
      rewrite fn_lookup_alter. fold after. rewrite Hid.
      by apply lookup_insert_ne.
    + intros _. destruct targets as [|t targets].
      * simpl in Hloop. injection Hloop as <-.
        unfold d1, register, update. simpl. rewrite fn_lookup_alter. fold after.
        rewrite Hid. apply lookup_insert_eq.
      * destruct (IH (S k) d1 (results ++ [entry])) as (d'' & Hloop' & _ & _ & _ & Hreg).
        { by rewrite Hafter. }
        rewrite Hloop in Hloop'. injection Hloop' as <-.
        rewrite Hafter, Hid in Hreg. by apply Hreg.
Qed.

Lemma result_ids (f : nat → string → Result bool) targets :
  map result_id (imap (fun k targetId => resultOf targetId (f k targetId)) targets)
  = targets.
Proof.
  revert f. induction targets as [|targetId targets IH]; intros f; simpl; [done|].
  f_equal; [by destruct (f 0%nat targetId)|]. apply (IH (fun k => f (S k))).
Qed.

Lemma imap_uniform {A B} (f : nat → A → B) (g : A → B) (l : list A) :
  (∀ k x, f k x = g x) → imap f l = map g l.
Proof.
  intros Hfg. revert f Hfg. induction l as [|x l IH]; intros f Hfg; simpl; [done|].
  rewrite Hfg. f_equal. apply IH. intros k y. apply Hfg.
Qed.

Lemma executeBulkOperation_resolved created now operationId operation type targets
    parameters storageManager next d :
  let initial :=
    {| op_id := operationId; op_type := type; op_targets := targets;
       op_parameters := parameters; op_status := pending;
       op_progress := {| progress_total := Z.of_nat (length targets);
                         progress_completed := 0; progress_failed := 0 |};
       op_createdAt := created; op_completedAt := None;
       op_results := Some [] |} in
  let d' := fst (executeBulkOperation created now operationId operation type targets
                   parameters (Ok storageManager) next d) in
  let results :=
    imap (fun k targetId =>
            resultOf targetId
              (processTarget (storageManager k) (next + k)%nat initial targetId))
      targets in
  operations d' operation =
    {| op_id := operationId; op_type := type; op_targets := targets;
       op_parameters := parameters; op_status := completed;
       op_progress := {| progress_total := Z.of_nat (length targets);
                         progress_completed := successes results;
                         progress_failed := failures results |};
       op_createdAt := created; op_completedAt := Some now;
       op_results := Some results |} ∧
  getBulkOperation operationId d' = Some operation ∧
  (∀ other, other ≠ operation → operations d' other = operations d other) ∧
  (∀ otherId, otherId ≠ operationId →
     getBulkOperation otherId d' = getBulkOperation otherId d).
Proof.
  intros bulkOperation.
  unfold executeBulkOperation, executeBulkOperationAsync.
  fold bulkOperation.
  set (d0 := register operation (update operation (fun _ => bulkOperation) d)).
  set (d1 := register operation (update operation (withStatus running) d0)).
  assert (operations d0 operation = bulkOperation) as Hd0
    by (unfold d0, register, update; simpl; apply fn_lookup_alter).
  assert (operations d1 operation = withStatus running bulkOperation) as Hd1.
  { unfold d1, register, update. cbn [operations]. by rewrite fn_lookup_alter, Hd0. }
  destruct (forEachTarget_appends storageManager next 0 operation targets d1 [])
    as (d2 & Hloop & Hop & Hothers & Hids & _); [by rewrite Hd1|].
  rewrite Hd1 in Hop, Hids.
  change (op_id (withStatus running bulkOperation)) with operationId in Hids.
  rewrite Hd1. change (op_targets (withStatus running bulkOperation)) with targets.
  rewrite Hloop. cbn [fst].
  unfold getBulkOperation, register, update. cbn [operations bulkOperations].
  rewrite !fn_lookup_alter, Hop.
  rewrite (imap_ext _ (fun k targetId =>
             resultOf targetId
               (processTarget (storageManager k) (next + k)%nat bulkOperation targetId)))
    by done.
  split_and!.
  - unfold withCompletedAt, withStatus, withProgress, withResults, bulkOperation.
    cbn [op_id op_type op_targets op_parameters op_status op_progress op_createdAt
         op_completedAt op_results progress_total progress_completed progress_failed].
    by rewrite !Z.add_0_l.
  - apply lookup_insert_eq.
  - intros other Hne. rewrite !fn_lookup_alter_ne by done. rewrite Hothers by done.
    unfold d1, d0, register, update. cbn [operations]. by rewrite !fn_lookup_alter_ne.
  - intros otherId Hne. rewrite lookup_insert_ne by done. rewrite Hids by done.
    unfold d1, d0, register, update. cbn [operations bulkOperations].
    rewrite !fn_lookup_alter. by rewrite !lookup_insert_ne.
Qed.

(** X29. A bulk operation accounts for every target exactly once.
    When the storage manager is available, the background run of
    [executeBulkOperation] ends with the operation [completed], stamped
    and registered under its id, with one entry of [results] per target
    in the order of the targets: the entry of a target says whether its
    processing succeeded, and carries the error message when it threw.
    A target whose processing throws does not stop the others.
    [progress.completed] and [progress.failed] are the numbers of
    successful and failed entries and add up to [progress.total], the
    number of targets. Other operations are left as they were. *)
Theorem bulk_operation_accounts_for_every_target (created now operationId : string)
    (operation : loc) (type : string) (targets : list string) (parameters : Js.Val)
    (storageManager : nat → AdminStorage) (next : nat) (d : Dispatcher) :
  let d' := fst (executeBulkOperation created now operationId operation type targets
                   parameters (Ok storageManager) next d) in
  let after := operations d' operation in
  ∃ results,
    op_results after = Some results ∧
    results =
      imap (fun k targetId =>
              resultOf targetId
                (processTarget (storageManager k) (next + k)%nat after targetId))
        targets ∧
    map result_id results = targets ∧
    op_progress after =
      {| progress_total := Z.of_nat (length targets);
         progress_completed := successes results;
         progress_failed := failures results |} ∧
    successes results + failures results = Z.of_nat (length targets) ∧
    op_status after = completed ∧
    op_completedAt after = Some now ∧
    getBulkOperation operationId d' = Some operation ∧
    (∀ other, other ≠ operation → operations d' other = operations d other) ∧
    (∀ otherId, otherId ≠ operationId →
       getBulkOperation otherId d' = getBulkOperation otherId d).
Proof.
  intros d' after.
  destruct (executeBulkOperation_resolved created now operationId operation type
              targets parameters storageManager next d)
    as (Hafter & Hregistered & Hothers & Hids).
  fold d' in Hafter, Hregistered, Hothers, Hids. fold after in Hafter.
  eexists. split_and!; [by rewrite Hafter| |apply result_ids
                       |by rewrite Hafter| |by rewrite Hafter|by rewrite Hafter
                       |done|done|done].
  - apply imap_ext. intros k targetId _. simpl. f_equal.
    apply processTarget_ext; by rewrite Hafter.
  - by rewrite successes_failures, length_imap.
Qed.

(** X30. How a bulk operation ends, by kind. When the storage manager
    cannot be obtained, the operation is marked [failed] with no entry
    in [results], both counters at 0 and no [completedAt]. An [export]
    or [transform] operation succeeds for every target without asking
    the storage manager anything. An operation of any type other than
    [delete], [update], [export] and [transform] fails for every target,
    with no error message, and is nevertheless [completed]. *)
Theorem bulk_operation_outcomes_by_type (created now operationId : string)
    (operation : loc) (type : string) (targets : list string) (parameters : Js.Val)
    (next : nat) (d : Dispatcher) :
  let run getStorageManager :=
    operations (fst (executeBulkOperation created now operationId operation type
                       targets parameters getStorageManager next d)) operation in
  let total := Z.of_nat (length targets) in
  (∀ e,
     op_status (run (Throw e)) = failed ∧
     op_results (run (Throw e)) = Some [] ∧
     op_progress (run (Throw e)) =
       {| progress_total := total; progress_completed := 0; progress_failed := 0 |} ∧
     op_completedAt (run (Throw e)) = None) ∧
  (type ∈ ["export"; "transform"] →
   ∀ storageManager,
     op_status (run (Ok storageManager)) = completed ∧
     op_results (run (Ok storageManager)) =
       Some (map (fun targetId => resultOf targetId (Ok true)) targets) ∧
     op_progress (run (Ok storageManager)) =
       {| progress_total := total; progress_completed := total;
          progress_failed := 0 |}) ∧
  (type ∉ ["delete"; "update"; "export"; "transform"] →
   ∀ storageManager,
     op_status (run (Ok storageManager)) = completed ∧
     op_results (run (Ok storageManager)) =
       Some (map (fun targetId => resultOf targetId (Ok false)) targets) ∧
     op_progress (run (Ok storageManager)) =
       {| progress_total := total; progress_completed := 0;
          progress_failed := total |}).
Proof.
  intros run total.
  assert (∀ (b : bool) storageManager,
            (∀ operation', op_type operation' = type →
               ∀ k targetId,
                 processTarget (storageManager k) (next + k)%nat operation' targetId
                   = Ok b) →
            op_status (run (Ok storageManager)) = completed ∧
            op_results (run (Ok storageManager)) =
              Some (map (fun targetId => resultOf targetId (Ok b)) targets) ∧
            op_progress (run (Ok storageManager)) =
              {| progress_total := total;
                 progress_completed := if b then total else 0;
                 progress_failed := if b then 0 else total |}) as Huniform.
  { intros b storageManager Hall.
    destruct (executeBulkOperation_resolved created now operationId operation type
                targets parameters storageManager next d) as (Hafter & _).
    cbv zeta in Hafter. fold (run (Ok storageManager)) in Hafter.
    rewrite (imap_uniform _ (fun targetId => resultOf targetId (Ok b))) in Hafter
      by (intros k targetId; by rewrite Hall).
    rewrite Hafter. cbn [op_status op_results op_progress].
    split_and!; [done|done|]. unfold successes, failures, total.
    clear. destruct b; f_equal;
      induction targets as [|t ts IH]; simpl in *; try done; lia. }
  split_and!.
  - intros e. unfold run, executeBulkOperation, executeBulkOperationAsync.
    cbn [fst]. unfold register, update. cbn [operations].
    rewrite !fn_lookup_alter. done.
  - intros Htype storageManager.
    destruct (Huniform true storageManager) as (? & ? & ?); [|done].
    intros operation' <- k targetId. unfold processTarget.
    repeat (apply elem_of_cons in Htype as [->|Htype]); [done..|].
    by apply elem_of_nil in Htype.
  - intros Htype storageManager.
    destruct (Huniform false storageManager) as (? & ? & ?); [|done].
    intros operation' <- k targetId. unfold processTarget.
    repeat case_match; try done;
      match goal with E : String.eqb _ _ = true |- _ =>
        apply String.eqb_eq in E; exfalso; apply Htype; rewrite E
      end; repeat constructor.
Qed.

Lemma bulk_operation_outcomes_by_type_witness :
  let after :=
    operations (fst (executeBulkOperation "2024-01-02T00:00:00.000Z"
                       "2024-01-02T00:00:05.000Z" "op1" 0%nat "export"
                       ["hook01"; "hook02"] (Js.Obj 0 []) (Ok deadStorage) 100
                       emptyDispatcher)) 0%nat in
  op_status after = completed ∧
  op_results after =
    Some (map (fun targetId => resultOf targetId (Ok true)) ["hook01"; "hook02"]) ∧
  op_progress after =
    {| progress_total := 2; progress_completed := 2; progress_failed := 0 |}.
Proof.
  apply (proj1 (proj2 (bulk_operation_outcomes_by_type "2024-01-02T00:00:00.000Z"
                  "2024-01-02T00:00:05.000Z" "op1" 0%nat "export"
                  ["hook01"; "hook02"] (Js.Obj 0 []) 100 emptyDispatcher))
           ltac:(constructor) deadStorage).
Defined.

(** A delete operation whose storage manager rejects every call: each
    target ends with a failed entry that carries the message, and the
    operation still completes. *)
Example bulk_delete_with_storage_down :
  let after :=
    operations (fst (executeBulkOperation "2024-01-02T00:00:00.000Z"
                       "2024-01-02T00:00:05.000Z" "op1" 0%nat "delete"
                       ["hook01"; "hook02"] (Js.Obj 0 [("type", Js.Str "webhook")])
                       (Ok deadStorage) 100 emptyDispatcher)) 0%nat in
  op_status after = completed ∧
  op_results after =
    Some [ {| result_id := "hook01"; result_success := false;
              result_error := Some "storage down" |};
           {| result_id := "hook02"; result_success := false;
              result_error := Some "storage down" |} ] ∧
  op_progress after =
    {| progress_total := 2; progress_completed := 0; progress_failed := 2 |}.
Proof.
  destruct (executeBulkOperation_resolved "2024-01-02T00:00:00.000Z"
              "2024-01-02T00:00:05.000Z" "op1" 0%nat "delete" ["hook01"; "hook02"]
              (Js.Obj 0 [("type", Js.Str "webhook")]) deadStorage 100 emptyDispatcher)
    as (Hafter & _).
  intros after. subst after. by rewrite Hafter.
Qed.

End Bulk.
